(** * Finite-difference gradients of ceviche: [ceviche/utils.py]

    A shallow embedding of [grad_num], [vjp_maker_num] and
    [jacobian_forward], and of [circ2eps], [grid_coords], [aniplot] and
    [measure_fields].  NumPy arrays live in a store of buffers and are
    manipulated through handles, so that views ([ravel], [reshape]) alias
    their base array and copies ([copy.copy], [flatten]) do not.  Python
    exceptions are results of the computation; the store survives them. *)

From Stdlib Require Import ZArith List String Floats Lia Bool QArith Qcanon.
From stdpp Require Import base list strings gmap.

(** ** Scalars

    The arithmetic the code performs on array entries.  [float64] below is
    the instance the program runs on (IEEE 754 binary64, NumPy's default
    dtype); [exact] interprets the same operations over the rationals. *)

Class Scalar (F : Type) : Type := {
  f0 : F;
  f1 : F;
  fadd : F → F → F;
  fsub : F → F → F;
  fmul : F → F → F;
  fdiv : F → F → F
}.

#[global] Instance float64 : Scalar float := {|
  f0 := 0%float;
  f1 := 1%float;
  fadd := PrimFloat.add;
  fsub := PrimFloat.sub;
  fmul := PrimFloat.mul;
  fdiv := PrimFloat.div
|}.

#[global] Instance exact : Scalar Qc := {|
  f0 := 0%Qc;
  f1 := 1%Qc;
  fadd := Qcplus;
  fsub := Qcminus;
  fmul := Qcmult;
  fdiv := Qcdiv
|}.

(** Laws of exact (rounding-free) arithmetic. *)
Class ExactArith (F : Type) `{Scalar F} : Prop := {
  fadd_comm : ∀ a b : F, fadd a b = fadd b a;
  fadd_assoc : ∀ a b c : F, fadd a (fadd b c) = fadd (fadd a b) c;
  fadd_0_l : ∀ a : F, fadd f0 a = a;
  fmul_assoc : ∀ a b c : F, fmul a (fmul b c) = fmul (fmul a b) c;
  fmul_0_r : ∀ a : F, fmul a f0 = f0;
  fmul_add_distr_r : ∀ a b c : F, fmul (fadd a b) c = fadd (fmul a c) (fmul b c);
  fmul_add_distr_l : ∀ a b c : F, fmul a (fadd b c) = fadd (fmul a b) (fmul a c)
}.

(** ** Python outcomes *)

Inductive exn : Type :=
| NameError (name : string)
| AttributeError (attr : string)
| IndexError
| ValueError
| TypeError.

Inductive result (A : Type) : Type :=
| Ok (a : A)
| Raise (e : exn).

Arguments Ok {A} a.
Arguments Raise {A} e.

#[global] Instance result_ret : MRet result := λ A a, Ok a.

#[global] Instance result_bind : MBind result := λ A B f m,
  match m with
  | Ok a => f a
  | Raise e => Raise e
  end.

(** ** The buffer of a reduction

    [bufsize] is the number of entries that a NumPy reduction passes to its
    inner loop at once: NumPy's buffer size ([np.getbufsize()], 8192 unless
    set otherwise), or more where the inner loop grows over a whole
    contiguous array.  What is proved below holds for every value. *)

Class Buffering : Type := {
  bufsize : nat;
  bufsize_pos : 0 < bufsize
}.

#[global] Instance default_buffering : Buffering := {|
  bufsize := 2 ^ 13;
  bufsize_pos := Nat.lt_0_succ (2 ^ 13 - 1)
|}.

(** ** Arrays

    [tensor] is the content of an array (its shape and its entries in
    row-major order); [ndarray] is a reference to an array object: a buffer
    of the store seen under a shape.  Only C-contiguous arrays that span
    their whole buffer occur in the code. *)

Record tensor (F : Type) : Type := Tensor {
  t_shape : list nat;
  t_data : list F
}.

Arguments Tensor {F} t_shape t_data.
Arguments t_shape {F} t.
Arguments t_data {F} t.

Record ndarray : Type := NdArray {
  buf : nat;
  shape : list nat
}.

(** The store of array buffers, and the log of the calls made to the
    differentiated function (one entry per call: the argument values). *)
Record world (F : Type) : Type := World {
  heap : list (list F);
  calls : list (list (tensor F))
}.

Arguments World {F} heap calls.
Arguments heap {F} w.
Arguments calls {F} w.

Definition M (F A : Type) : Type := world F → result A * world F.

#[global] Instance M_ret {F} : MRet (M F) := λ A a w, (Ok a, w).

#[global] Instance M_bind {F} : MBind (M F) := λ A B f m w,
  match m w with
  | (Ok a, w') => f a w'
  | (Raise e, w') => (Raise e, w')
  end.

Definition raise {F A} (e : exn) : M F A := λ w, (Raise e, w).

Definition lift {F A} (r : result A) : M F A := λ w, (r, w).

(** [for x in xs: body(x)] *)
Fixpoint for_each {F A} (xs : list A) (body : A → M F unit) : M F unit :=
  match xs with
  | [] => mret tt
  | x :: rest => body x ;; for_each rest body
  end.

(** [for i in range(n): body(i)] *)
Definition for_range {F} (n : nat) (body : nat → M F unit) : M F unit :=
  for_each (seq 0 n) body.

(** Python sequence indexing [l[i]]: a negative index counts from the end. *)
Definition norm_index (n : nat) (i : Z) : option nat :=
  let j := if (i <? 0)%Z then (i + Z.of_nat n)%Z else i in
  if ((0 <=? j) && (j <? Z.of_nat n))%Z then Some (Z.to_nat j) else None.

Definition py_index {A} (l : list A) (i : Z) : result A :=
  match norm_index (length l) i with
  | Some j => match l !! j with Some x => Ok x | None => Raise IndexError end
  | None => Raise IndexError
  end.

(** [l[i] = x] on a list *)
Definition py_setitem {A} (l : list A) (i : Z) (x : A) : result (list A) :=
  match norm_index (length l) i with
  | Some j => Ok (<[j := x]> l)
  | None => Raise IndexError
  end.

(** [a.size]: the number of entries of an array of the given shape. *)
Definition arr_size (sh : list nat) : nat := foldr Nat.mul 1 sh.

(** The values [step_size] can take: a Python [float] or [int], a NumPy
    scalar, or an array. *)
Inductive pyval (F : Type) : Type :=
| PyFloat (x : F)
| PyInt (n : Z)
| NpFloat64 (x : F)
| NpArray (a : ndarray).

Arguments PyFloat {F} x.
Arguments PyInt {F} n.
Arguments NpFloat64 {F} x.
Arguments NpArray {F} a.

(** The closures of [vjp_maker_num]: [vjp] maps a cotangent to a gradient,
    [vjp_maker] maps the output and the arguments of [fn] to a [vjp]. *)
Definition vjp_t (F : Type) : Type := tensor F → M F ndarray.

Definition vjp_maker_t (F : Type) : Type := tensor F → list ndarray → M F (vjp_t F).

Section NumPy.
Context {F : Type} `{Scalar F} `{Buffering}.

Definition buffer (w : world F) (a : ndarray) : list F :=
  default [] (heap w !! buf a).

Definition value (w : world F) (a : ndarray) : tensor F :=
  Tensor (shape a) (buffer w a).

Definition alloc (d : list F) : M F nat := λ w,
  (Ok (length (heap w)), World (heap w ++ [d]) (calls w)).

(** [np.zeros(n)] and [np.ones(n)] *)
Definition np_zeros (n : nat) : M F ndarray :=
  b ← alloc (replicate n f0); mret (NdArray b [n]).

Definition np_ones (n : nat) : M F ndarray :=
  b ← alloc (replicate n f1); mret (NdArray b [n]).

(** [s * a] for a Python float [s]: a new array *)
Definition scalar_mul (s : F) (a : ndarray) : M F ndarray := λ w,
  (b ← alloc (fmul s <$> buffer w a); mret (NdArray b (shape a))) w.

(** [a.ravel()]: a one-dimensional view of the same buffer *)
Definition ravel (a : ndarray) : ndarray :=
  NdArray (buf a) [arr_size (shape a)].

(** [copy.copy(a)]: a new array with its own buffer *)
Definition copy_copy (a : ndarray) : M F ndarray := λ w,
  (b ← alloc (buffer w a); mret (NdArray b (shape a))) w.

(** [a.flatten()]: a one-dimensional copy *)
Definition flatten (a : ndarray) : M F ndarray := λ w,
  (b ← alloc (buffer w a); mret (NdArray b [arr_size (shape a)])) w.

(** [a.reshape(sh)]: a view of the same buffer under another shape *)
Definition nd_reshape (a : ndarray) (sh : list nat) : M F ndarray :=
  if decide (arr_size sh = arr_size (shape a))
  then mret (NdArray (buf a) sh)
  else raise ValueError.

(** [a[i]] on a one-dimensional array *)
Definition getitem (a : ndarray) (i : nat) : M F F := λ w,
  match buffer w a !! i with
  | Some x => (Ok x, w)
  | None => (Raise IndexError, w)
  end.

(** [a[i] = x] on a one-dimensional array: written through to the buffer *)
Definition setitem (a : ndarray) (i : nat) (x : F) : M F unit := λ w,
  if decide (i < length (buffer w a))
  then (Ok tt, World (<[buf a := <[i := x]> (buffer w a)]> (heap w)) (calls w))
  else (Raise IndexError, w).

(** [a[i] += s] *)
Definition iadd_item (a : ndarray) (i : nat) (s : M F F) : M F unit :=
  x ← getitem a i; y ← s; setitem a i (fadd x y).

(** Calls to the function under differentiation: it reads its arguments and
    returns a value; each call is logged. *)
Definition call1 (fn : tensor F → F) (a : ndarray) : M F F := λ w,
  (Ok (fn (value w a)), World (heap w) (calls w ++ [[value w a]])).

Definition calln (fn : list (tensor F) → tensor F) (args : list ndarray) : M F (tensor F) := λ w,
  (Ok (fn (value w <$> args)), World (heap w) (calls w ++ [value w <$> args])).

(** *** Elementwise arithmetic with broadcasting

    Shapes are aligned at their last axis; an axis of length 1 is
    stretched.  Both functions below work on reversed shapes. *)
Fixpoint broadcast_rev (s1 s2 : list nat) : option (list nat) :=
  match s1, s2 with
  | [], s => Some s
  | s, [] => Some s
  | d1 :: r1, d2 :: r2 =>
      r ← broadcast_rev r1 r2;
      if decide (d1 = d2) then Some (d1 :: r)
      else if decide (d1 = 1) then Some (d2 :: r)
      else if decide (d2 = 1) then Some (d1 :: r)
      else None
  end.

Definition broadcast_shapes (s1 s2 : list nat) : option (list nat) :=
  match broadcast_rev (rev s1) (rev s2) with
  | Some r => Some (rev r)
  | None => None
  end.

(** The flat index, in an operand of (reversed) shape [s], of the entry
    that lands at flat index [k] of the result of (reversed) shape [rs]. *)
Fixpoint src_index (rs s : list nat) (k : nat) : nat :=
  match rs, s with
  | r :: rs', d :: s' =>
      (if decide (d = 1) then 0 else k mod r) + d * src_index rs' s' (k / r)
  | _, _ => 0
  end.

Definition broadcast2 (op : F → F → F) (a b : tensor F) : result (tensor F) :=
  match broadcast_shapes (t_shape a) (t_shape b) with
  | Some rs =>
      Ok (Tensor rs
            ((λ k, op (nth (src_index (rev rs) (rev (t_shape a)) k) (t_data a) f0)
                      (nth (src_index (rev rs) (rev (t_shape b)) k) (t_data b) f0))
               <$> seq 0 (arr_size rs)))
  | None => Raise ValueError
  end.

(** [a - b], [a * b] and [a / s] *)
Definition np_sub : tensor F → tensor F → result (tensor F) := broadcast2 fsub.

Definition np_mul : tensor F → tensor F → result (tensor F) := broadcast2 fmul.

Definition np_div_scalar (a : tensor F) (s : F) : tensor F :=
  Tensor (t_shape a) ((λ x, fdiv x s) <$> t_data a).

(** *** [np.sum]

    [np.sum(a)] is [np.add.reduce] over all the entries of [a], which lie
    next to each other in memory.  The result starts as the identity [0.];
    the entries come in buffers of [bufsize], and the sum of each buffer,
    formed by NumPy's [pairwise_sum], is added to it.  [pairwise_sum] adds
    fewer than 8 entries from left to right, starting from [0.] (from
    [-0.] in later releases, which makes no difference to [np.sum]: see
    [fold_add_from_neg_0]).  Up to 128
    entries go into eight accumulators, entry [i] into [r[i % 8]]; the
    accumulators are added up as
    [((r0 + r1) + (r2 + r3)) + ((r4 + r5) + (r6 + r7))], and the entries
    past the last whole group of eight follow one by one.  More than 128
    entries are split at [n2 = n / 2 - (n / 2) % 8], and the sums of the two
    parts are added. *)

(** The loop [for (i = 8; i < n - (n % 8); i += 8)] over whole groups of
    eight, and what follows it. *)
Fixpoint block_loop (r0 r1 r2 r3 r4 r5 r6 r7 : F) (a : list F) : F :=
  match a with
  | x0 :: x1 :: x2 :: x3 :: x4 :: x5 :: x6 :: x7 :: rest =>
      block_loop (fadd r0 x0) (fadd r1 x1) (fadd r2 x2) (fadd r3 x3)
                 (fadd r4 x4) (fadd r5 x5) (fadd r6 x6) (fadd r7 x7) rest
  | _ =>
      fold_left fadd a
        (fadd (fadd (fadd r0 r1) (fadd r2 r3)) (fadd (fadd r4 r5) (fadd r6 r7)))
  end.

(** [pairwise_sum] on at most 128 entries: the accumulators start as the
    first eight entries; with fewer than eight there are none. *)
Definition block_sum (a : list F) : F :=
  match a with
  | x0 :: x1 :: x2 :: x3 :: x4 :: x5 :: x6 :: x7 :: rest =>
      block_loop x0 x1 x2 x3 x4 x5 x6 x7 rest
  | _ => fold_left fadd a f0
  end.

(** [pairwise_sum(a, n)]; the recursion halves the array, so that [fuel]
    at least the number of entries is never used up. *)
Fixpoint pairwise_sum (fuel : nat) (a : list F) : F :=
  let n := length a in
  if decide (n ≤ 128) then block_sum a
  else
    match fuel with
    | 0 => f0
    | S fuel' =>
        let n2 := n / 2 - (n / 2) mod 8 in
        fadd (pairwise_sum fuel' (take n2 a)) (pairwise_sum fuel' (drop n2 a))
    end.

(** The buffers that the entries come in. *)
Definition buffers (a : list F) : list (list F) :=
  (λ i, take bufsize (drop (i * bufsize) a))
    <$> seq 0 ((length a + bufsize - 1) / bufsize).

(** [np.add.reduce] over the entries [a] *)
Definition add_reduce (a : list F) : F :=
  fold_left (λ out b, fadd out (pairwise_sum (length b) b)) (buffers a) f0.

Definition np_sum (a : tensor F) : F := add_reduce (t_data a).

(** ** [grad_num] *)

(** The body of the loop [for i in range(N)]. *)
Definition grad_num_body (fn : tensor F → F) (arg gradient step : ndarray)
    (shape : list nat) (f_old : F) (i : nat) : M F unit :=
  arg_new ← copy_copy (ravel arg);
  iadd_item arg_new i (getitem step i);;
  view ← nd_reshape arg_new shape;
  f_new_i ← call1 fn view;
  s ← getitem step i;
  setitem gradient i (fdiv (fsub f_new_i f_old) s).

Definition grad_num (fn : tensor F → F) (arg : ndarray) (step_size : pyval F) : M F ndarray :=
  let N := arr_size (shape arg) in
  let shape := shape arg in
  gradient ← np_zeros N;
  f_old ← call1 fn arg;
  step ← match step_size with
         | PyFloat s => ones ← np_ones N; scalar_mul s ones
         | PyInt _ => raise (AttributeError "ravel"%string)
         | NpFloat64 x => b ← alloc [x]; mret (NdArray b [1])
         | NpArray a => mret (ravel a)
         end;
  for_range N (grad_num_body fn arg gradient step shape f_old);;
  nd_reshape gradient shape.

(** ** [vjp_maker_num] *)

(** The body of the loop [for ip in range(num_p)]. *)
Definition vjp_body (fn : list (tensor F) → tensor F) (args : list ndarray) (arg_ind : Z)
    (shape : list nat) (step : F) (fn_out v : tensor F) (vjp_num : ndarray)
    (ip : nat) : M F unit :=
  a ← lift (py_index args arg_ind);
  args_rav ← flatten a;
  iadd_item args_rav ip (mret step);;
  r ← nd_reshape args_rav shape;
  args_new ← lift (py_setitem args arg_ind r);
  out ← calln fn args_new;
  d ← lift (np_sub out fn_out);
  let dfn_darg := np_div_scalar d step in
  p ← lift (np_mul v dfn_darg);
  setitem vjp_num ip (np_sum p).

Definition vjp (fn : list (tensor F) → tensor F) (args : list ndarray) (arg_ind : Z)
    (shape : list nat) (num_p : nat) (step : F) (fn_out : tensor F) : vjp_t F := λ v,
  vjp_num ← np_zeros num_p;
  for_range num_p (vjp_body fn args arg_ind shape step fn_out v vjp_num);;
  mret vjp_num.

Definition vjp_maker (fn : list (tensor F) → tensor F) (arg_ind : Z) (steps : list F)
    (ia : nat) : vjp_maker_t F := λ fn_out args,
  a ← lift (py_index args arg_ind);
  let shape := shape a in
  let num_p := arr_size shape in
  step ← lift (py_index steps (Z.of_nat ia));
  mret (vjp fn args arg_ind shape num_p step fn_out).

Definition vjp_single_arg (fn : list (tensor F) → tensor F) (arg_inds : list Z)
    (steps : list F) (ia : nat) : result (vjp_maker_t F) :=
  arg_ind ← py_index arg_inds (Z.of_nat ia);
  step ← py_index steps (Z.of_nat ia);
  mret (vjp_maker fn arg_ind steps ia).

(** The loop [for ia in range(len(arg_inds)): vjp_makers.append(...)] *)
Fixpoint append_makers (fn : list (tensor F) → tensor F) (arg_inds : list Z)
    (steps : list F) (ias : list nat) (vjp_makers : list (vjp_maker_t F))
    : result (list (vjp_maker_t F)) :=
  match ias with
  | [] => Ok vjp_makers
  | ia :: rest =>
      mk ← vjp_single_arg fn arg_inds steps ia;
      append_makers fn arg_inds steps rest (vjp_makers ++ [mk])
  end.

Definition vjp_maker_num (fn : list (tensor F) → tensor F) (arg_inds : list Z)
    (steps : list F) : result (list (vjp_maker_t F)) :=
  append_makers fn arg_inds steps (seq 0 (length arg_inds)) [].

End NumPy.

(** ** [jacobian_forward]

    The function body runs under autograd's [unary_to_nary] decorator.  The
    reverse-mode engine ([make_vjp], which returns a pullback and the value
    of the function) is a parameter. *)

Inductive pyobj (F : Type) : Type :=
| PyFun (f : tensor F → tensor F)
| PyArr (t : tensor F)
| PyGlobal (name : string).

Arguments PyFun {F} f.
Arguments PyArr {F} t.
Arguments PyGlobal {F} name.

(** The names bound at module level once [utils.py] has been imported. *)
Definition module_globals : list string :=
  ["np"; "sp"; "copy"; "plt"; "make_vjp"; "npa"; "make_sparse"; "grad_num";
   "circ2eps"; "grid_coords"; "vjp_maker_num"; "_make_vjp"; "_make_jvp";
   "unary_to_nary"; "primitive"; "defvjp_argnum"; "vspace";
   "jacobian_forward"; "aniplot"; "measure_fields"; "fft"; "fftfreq"; "stft";
   "specshow"; "get_spectrum"; "get_max_power_freq"; "get_spectral_power";
   "plot_spectral_power"]%string.

(** Python's builtin functions and constants (the exception classes, whose
    names all start with a capital letter, are left out). *)
Definition builtins : list string :=
  ["abs"; "all"; "any"; "ascii"; "bin"; "bool"; "breakpoint"; "bytearray";
   "bytes"; "callable"; "chr"; "classmethod"; "compile"; "complex"; "delattr";
   "dict"; "dir"; "divmod"; "enumerate"; "eval"; "exec"; "filter"; "float";
   "format"; "frozenset"; "getattr"; "globals"; "hasattr"; "hash"; "help";
   "hex"; "id"; "input"; "int"; "isinstance"; "issubclass"; "iter"; "len";
   "list"; "locals"; "map"; "max"; "memoryview"; "min"; "next"; "object";
   "oct"; "open"; "ord"; "pow"; "print"; "property"; "range"; "repr";
   "reversed"; "round"; "set"; "setattr"; "slice"; "sorted"; "staticmethod";
   "str"; "sum"; "super"; "tuple"; "type"; "vars"; "zip"; "__import__";
   "None"; "True"; "False"; "Ellipsis"; "NotImplemented"; "__debug__";
   "quit"; "exit"; "copyright"; "credits"; "license"]%string.

(** Name resolution inside a function body: the local variables, then the
    globals of the module, then the builtins. *)
Definition load_name {F} (locals : list (string * pyobj F)) (name : string)
    : result (pyobj F) :=
  match list_find (λ b, b.1 = name) locals with
  | Some (_, b) => Ok b.2
  | None =>
      if bool_decide (name ∈ module_globals ++ builtins)
      then Ok (PyGlobal name)
      else Raise (NameError name)
  end.

Section Jacobian.
Context {F : Type} `{Scalar F}.

Definition pullback : Type := tensor F → result (tensor F).

Variable make_vjp : (tensor F → tensor F) → tensor F → result (pullback * tensor F).

Definition call_make_vjp (f x : pyobj F) : result (pullback * tensor F) :=
  match f, x with
  | PyFun f, PyArr x => make_vjp f x
  | _, _ => Raise TypeError
  end.

(** [vspace(ans).standard_basis()]: the one-hot arrays of a shape, in
    row-major order of the position of the 1. *)
Definition standard_basis (sh : list nat) : list (tensor F) :=
  (λ j, Tensor sh (<[j := f1]> (replicate (arr_size sh) f0))) <$> seq 0 (arr_size sh).

(** [np.stack(ts)]: the arrays, all of one shape, along a new first axis. *)
Definition np_stack (ts : list (tensor F)) : result (tensor F) :=
  match ts with
  | [] => Raise ValueError
  | t :: _ =>
      if forallb (λ t', bool_decide (t_shape t' = t_shape t)) ts
      then Ok (Tensor (length ts :: t_shape t) (concat (t_data <$> ts)))
      else Raise ValueError
  end.

(** [np.reshape(t, sh)] *)
Definition np_reshape (t : tensor F) (sh : list nat) : result (tensor F) :=
  if decide (arr_size sh = length (t_data t))
  then Ok (Tensor sh (t_data t))
  else Raise ValueError.

Definition jacobian_forward (fn : tensor F → tensor F) (x : tensor F) : result (tensor F) :=
  let locals := [("fn"%string, PyFun fn); ("x"%string, PyArr x)] in
  _ ← load_name locals "_make_vjp";
  fun_ ← load_name locals "fun";
  x_ ← load_name locals "x";
  '(vjp, ans) ← call_make_vjp fun_ x_;
  let ans_vspace := t_shape ans in
  let jacobian_shape := ans_vspace ++ t_shape x in
  grads ← mapM vjp (standard_basis ans_vspace);
  stacked ← np_stack grads;
  np_reshape stacked jacobian_shape.

(** The function [jacobian_forward(fn, argnum)] applied to the positional
    arguments [args], through [unary_to_nary]: the argument at [argnum] is
    the point, the others are held fixed. *)
Definition jacobian_forward_nary (fn : list (tensor F) → tensor F) (argnum : Z)
    (args : list (tensor F)) : result (tensor F) :=
  x ← py_index args argnum;
  jacobian_forward
    (λ x', fn (match py_setitem args argnum x' with Ok args' => args' | Raise _ => args end)) x.

End Jacobian.

(** ** What the functions are meant to compute *)

Section Specification.
Context {F : Type} `{Scalar F} `{Buffering}.

(** The array [t] with its flat entry [i] incremented by [s]. *)
Definition perturb (t : tensor F) (i : nat) (s : F) : tensor F :=
  Tensor (t_shape t) (alter (λ x, fadd x s) i (t_data t)).

(** The forward difference of [fn] at [t] along entry [i] with step [s]. *)
Definition fd_quotient (fn : tensor F → F) (t : tensor F) (i : nat) (s : F) : F :=
  fdiv (fsub (fn (perturb t i s)) (fn t)) s.

(** The one-dimensional array [step] that [grad_num] derives from
    [step_size]; an [int] has no [ravel]. *)
Definition step_of (w : world F) (N : nat) (step_size : pyval F) : option (list F) :=
  match step_size with
  | PyFloat s => Some (replicate N (fmul s f1))
  | PyInt _ => None
  | NpFloat64 x => Some [x]
  | NpArray a => heap w !! buf a
  end.

(** A scalar [step_size] that is not a Python [float]: an [int], a NumPy
    scalar or a zero-dimensional array. *)
Definition nonfloat_scalar (w : world F) (step_size : pyval F) : Prop :=
  match step_size with
  | PyFloat _ => False
  | PyInt _ => True
  | NpFloat64 _ => True
  | NpArray a => shape a = [] ∧ ∃ x, heap w !! buf a = Some [x]
  end.

(** The argument values [ts] with only entry [p] of argument [k]
    incremented by [step]. *)
Definition perturb_arg (ts : list (tensor F)) (k p : nat) (step : F) : list (tensor F) :=
  alter (λ t, perturb t p step) k ts.

(** The finite-difference partial of the output along entry [p] of
    argument [k], entry by entry. *)
Definition fd_partial (fn : list (tensor F) → tensor F) (fn_out : tensor F)
    (ts : list (tensor F)) (k p : nat) (step : F) : list F :=
  (λ y, fdiv y step) <$> zip_with fsub (t_data (fn (perturb_arg ts k p step))) (t_data fn_out).

(** The elementwise product of two arrays summed over all entries, as
    [np.sum] adds them up. *)
Definition np_dot (v d : list F) : F := add_reduce (zip_with fmul v d).

(** The same products added from left to right, as a Python loop does. *)
Definition dot (v d : list F) : F := fold_left fadd (zip_with fmul v d) f0.

(** An array whose entry count matches its shape. *)
Definition well_formed (t : tensor F) : Prop := length (t_data t) = arr_size (t_shape t).

(** The pointwise sum of two cotangents and the multiple of a cotangent. *)
Definition tensor_add (v1 v2 : tensor F) : tensor F :=
  Tensor (t_shape v1) (zip_with fadd (t_data v1) (t_data v2)).

Definition tensor_scale (c : F) (v : tensor F) : tensor F :=
  Tensor (t_shape v) (fmul c <$> t_data v).

(** The value of a zero-dimensional (scalar) array. *)
Definition item (t : tensor F) : F := nth 0 (t_data t) f0.

(** The computation [m], started in [w], returns an array with entries [G]. *)
Definition returns_array (m : M F ndarray) (w : world F) (G : list F) : Prop :=
  ∃ g w', m w = (Ok g, w') ∧ heap w' !! buf g = Some G.

(** The state of the loop of [grad_num] before iteration [j]: the argument
    and the steps are as they were, the first [j] entries of the gradient
    are set, and [fn] has been called once per perturbation so far. *)
Definition grad_num_inv (fn : tensor F → F) (h0 : list (list F)) (c0 : list (list (tensor F)))
    (arg : ndarray) (A St : list F) (lg ls : nat) (j : nat) (w : world F) : Prop :=
  heap w !! buf arg = Some A ∧
  heap w !! ls = Some St ∧
  (∃ G, heap w !! lg = Some G ∧ length G = length A ∧
        ∀ i s, i < j → St !! i = Some s →
               G !! i = Some (fd_quotient fn (Tensor (shape arg) A) i s)) ∧
  calls w = c0 ++ imap (λ i s, [perturb (Tensor (shape arg) A) i s]) (take j St) ∧
  h0 `prefix_of` heap w.

(** The state of the loop of a [vjp] closure before iteration [j]. *)
Definition vjp_inv (fn : list (tensor F) → tensor F) (fn_out v : tensor F)
    (h0 : list (list F)) (c0 : list (list (tensor F))) (ts : list (tensor F))
    (kk : nat) (step : F) (n : nat) (j : nat) (w : world F) : Prop :=
  (∃ G, heap w !! length h0 = Some G ∧ length G = n ∧
        ∀ p, p < j → G !! p = Some (np_dot (t_data v) (fd_partial fn fn_out ts kk p step))) ∧
  calls w = c0 ++ ((λ p, perturb_arg ts kk p step) <$> seq 0 j) ∧
  h0 `prefix_of` heap w.

(** [m] leaves the buffers [h0] that existed beforehand as they are,
    whatever its outcome, and its result (if any) satisfies [Q]. *)
Definition frames {A} (h0 : list (list F)) (m : M F A) (Q : A → Prop) : Prop :=
  ∀ w, h0 `prefix_of` heap w →
       h0 `prefix_of` heap (m w).2 ∧ ∀ x, (m w).1 = Ok x → Q x.

(** An array allocated after [h0] was taken. *)
Definition fresh (h0 : list (list F)) (a : ndarray) : Prop := length h0 ≤ buf a.

End Specification.

(** Floats that are equal as numbers: identical, or zeros of either sign. *)
Definition same_number (x y : float) : Prop :=
  x = y ∨ (x = 0%float ∧ y = (-0)%float).

Definition not_finite (x : float) : Prop :=
  x = infinity ∨ x = neg_infinity ∨ x = nan.

Definition is_zero (x : float) : Prop := x = 0%float ∨ x = (-0)%float.

(** Further laws of exact arithmetic: those of a field that the forward
    difference of a polynomial needs. *)
Class ExactField (F : Type) `{ExactArith F} : Prop := {
  fmul_comm : ∀ a b : F, fmul a b = fmul b a;
  fsub_add_l : ∀ a b : F, fsub (fadd a b) a = b;
  fdiv_mul_r : ∀ c s : F, s ≠ f0 → fdiv (fmul c s) s = c
}.

(** Two functions to differentiate: [f(x) = sum of c_i x_i] and
    [f(x) = sum of x_i^2]. *)
Definition linear_form {F : Type} `{Scalar F} (c : list F) (t : tensor F) : F :=
  dot c (t_data t).


(** ** [measure_fields]

    The solver [F] is an object with a state: [initialize_fields] resets
    it and [forward] advances it by one step under a current and returns
    the fields, a dictionary from component names to arrays.  What is
    printed is recorded as the time index of each progress line. *)

Inductive sim_exn : Type :=
| ZeroDivisionError
| KeyError (key : string)
| PyError (e : exn).

Inductive outcome (A : Type) : Type :=
| Returned (a : A)
| Raised (e : sim_exn).

Arguments Returned {A} a.
Arguments Raised {A} e.

(** The argument [probes]: a list of arrays, or a single array. *)
Inductive probes_arg (F : Type) : Type :=
| ProbeList (l : list (tensor F))
| OneProbe (p : tensor F).

Arguments ProbeList {F} l.
Arguments OneProbe {F} p.

(** [if not isinstance(probes, list): probes = [probes]] *)
Definition probe_list {F : Type} (probes : probes_arg F) : list (tensor F) :=
  match probes with
  | ProbeList l => l
  | OneProbe p => [p]
  end.

Record sim (solver : Type) : Type := Sim {
  solver_state : solver;
  stdout : list nat
}.

Arguments Sim {solver} solver_state stdout.
Arguments solver_state {solver} s.
Arguments stdout {solver} s.

Section Simulation.
Context {F : Type} `{Scalar F} `{Buffering}.
Variable solver : Type.
Variable initialize_fields : solver → solver.
Variable forward : solver → tensor F → solver * gmap string (tensor F).
Variable source : nat → tensor F.

(** [F.forward(Jz=source(t_index))] *)
Definition step_solver (t_index : nat) (st : sim solver)
    : gmap string (tensor F) * sim solver :=
  let r := forward (solver_state st) (source t_index) in
  (r.2, Sim r.1 (stdout st)).

(** [print(...)] of a progress line *)
Definition print_progress (t_index : nat) (st : sim solver) : sim solver :=
  Sim (solver_state st) (stdout st ++ [t_index]).

(** The loop [for probe_index, probe in enumerate(probes)], from
    [probe_index] on. *)
Fixpoint measure_probes (fields : gmap string (tensor F)) (component : string)
    (t_index N_probes probe_index : nat) (probes : list (tensor F)) (measured : list F)
    : outcome (list F) :=
  match probes with
  | [] => Returned measured
  | probe :: rest =>
      match fields !! component with
      | None => Raised (KeyError component)
      | Some fld =>
          match np_mul fld probe with
          | Raise e => Raised (PyError e)
          | Ok pr =>
              let field_probe := np_sum pr in
              measure_probes fields component t_index N_probes (S probe_index) rest
                (<[t_index * N_probes + probe_index := field_probe]> measured)
          end
      end
  end.

(** The loop [for t_index in range(steps)]. *)
Fixpoint measure_steps (steps : Z) (probes : list (tensor F)) (component : string)
    (t_indices : list nat) (measured : list F) (st : sim solver)
    : outcome (list F) * sim solver :=
  match t_indices with
  | [] => (Returned measured, st)
  | t_index :: rest =>
      if decide (steps / 20 = 0)%Z then (Raised ZeroDivisionError, st)
      else
        let st1 := if decide (Z.of_nat t_index mod (steps / 20) = 0)%Z
                   then print_progress t_index st else st in
        let '(fields, st2) := step_solver t_index st1 in
        match measure_probes fields component t_index (length probes) 0 probes measured with
        | Raised e => (Raised e, st2)
        | Returned measured' => measure_steps steps probes component rest measured' st2
        end
  end.

Definition measure_fields (steps : Z) (probes : probes_arg F) (component : string)
    (st : sim solver) : outcome (tensor F) * sim solver :=
  let st := Sim (initialize_fields (solver_state st)) (stdout st) in
  let probes := probe_list probes in
  let N_probes := length probes in
  if decide (steps < 0)%Z then (Raised (PyError ValueError), st)
  else
    let measured := replicate (Z.to_nat steps * N_probes) f0 in
    match measure_steps steps probes component (seq 0 (Z.to_nat steps)) measured st with
    | (Returned measured, st') => (Returned (Tensor [Z.to_nat steps; N_probes] measured), st')
    | (Raised e, st') => (Raised e, st')
    end.

(** The solver after [n] steps driven by [source], and the fields that
    step [t] returns. *)
Fixpoint solver_at (s : solver) (n : nat) : solver :=
  match n with
  | 0 => s
  | S n' => (forward (solver_at s n') (source n')).1
  end.

Definition fields_at (s : solver) (t : nat) : gmap string (tensor F) :=
  (forward (solver_at s t) (source t)).2.

(** The time indices at which a progress line is printed. *)
Definition progress_lines (every : nat) (steps : nat) : list nat :=
  filter (λ t, t mod every = 0) (seq 0 steps).

End Simulation.

(** ** [aniplot]

    The figure is recorded as the panels drawn: the index of the axis
    and the time step of each one; what is printed, as the same pair for
    each line.  The calls into the plotting library are parameters:
    [subplots] is [plt.subplots(1, num_panels, ...)] and [draw] is the
    block that fills one panel. *)

(** What [plt.subplots] returns: one axes object, or an array of them. *)
Inductive axes : Type :=
| OneAxes
| AxesArray (n : nat).

Record plot (solver : Type) : Type := Plot {
  plot_solver : solver;
  plot_stdout : list (nat * nat);
  plot_panels : list (nat * nat)
}.

Arguments Plot {solver} plot_solver plot_stdout plot_panels.
Arguments plot_solver {solver} p.
Arguments plot_stdout {solver} p.
Arguments plot_panels {solver} p.

(** [ax_list[ax_index]] *)
Definition ax_getitem (ax_list : axes) (ax_index : nat) : outcome unit :=
  match ax_list with
  | OneAxes => Raised (PyError TypeError)
  | AxesArray n =>
      if decide (ax_index < n) then Returned tt else Raised (PyError IndexError)
  end.

Section Animation.
Context {F : Type}.
Variable solver : Type.
Variable initialize_fields : solver → solver.
Variable eps_r_shape : solver → list nat.
Variable forward : solver → tensor F → solver * gmap string (tensor F).
Variable source : nat → tensor F.
Variable subplots : Z → outcome axes.
Variable draw : solver → nat → nat → nat → gmap string (tensor F) → string → nat
                → option sim_exn.

(** The loop [for t_index in range(steps)]. *)
Fixpoint aniplot_steps (steps : Z) (component : string) (num_panels : Z)
    (ax_list : axes) (Nx Ny : nat) (t_indices : list nat) (ax_index : nat)
    (st : plot solver) : outcome unit * plot solver :=
  match t_indices with
  | [] => (Returned tt, st)
  | t_index :: rest =>
      let r := forward (plot_solver st) (source t_index) in
      let fields := r.2 in
      let st1 := Plot r.1 (plot_stdout st) (plot_panels st) in
      if decide (steps / num_panels = 0)%Z then (Raised ZeroDivisionError, st1)
      else if decide (Z.of_nat t_index mod (steps / num_panels) = 0)%Z then
        let st2 := Plot r.1 (plot_stdout st ++ [(ax_index, t_index)]) (plot_panels st) in
        match ax_getitem ax_list ax_index with
        | Raised e => (Raised e, st2)
        | Returned _ =>
            match draw r.1 ax_index Nx Ny fields component t_index with
            | Some e => (Raised e, st2)
            | None =>
                aniplot_steps steps component num_panels ax_list Nx Ny rest (S ax_index)
                  (Plot r.1 (plot_stdout st2) (plot_panels st ++ [(ax_index, t_index)]))
            end
        end
      else aniplot_steps steps component num_panels ax_list Nx Ny rest ax_index st1
  end.

Definition aniplot (steps : Z) (component : string) (num_panels : Z) (st : plot solver)
    : outcome unit * plot solver :=
  let st := Plot (initialize_fields (plot_solver st)) (plot_stdout st) (plot_panels st) in
  match subplots num_panels with
  | Raised e => (Raised e, st)
  | Returned ax_list =>
      match eps_r_shape (plot_solver st) with
      | [Nx; Ny; _] =>
          aniplot_steps steps component num_panels ax_list Nx Ny
            (seq 0 (Z.to_nat steps)) 0 st
      | _ => (Raised (PyError ValueError), st)
      end
  end.

End Animation.

(** The panels [0 .. k-1], drawn [every] steps apart. *)
Definition panel_schedule (every k : nat) : list (nat * nat) :=
  (λ a, (a, a * every)) <$> seq 0 k.

(** ** [circ2eps] and [grid_coords]

    The coordinates [np.linspace(-N/2*dL, N/2*dL, N)] of an axis with
    [N] grid points and the test
    [(xs - x)**2 + (ys - y)**2 < r**2] at one grid point are parameters:
    the code is followed in where it looks and what it writes.  The
    circle parameters [x], [y], [r] and [eps_c] are one-dimensional. *)

Section Grid.
Context {F : Type}.
Variable linspace : nat → F → list F.
Variable in_circle : F → F → F → F → F → bool.

(** [np.meshgrid(x_coord, y_coord, indexing='ij')] *)
Definition meshgrid_ij (x_coord y_coord : list F) : tensor F * tensor F :=
  (Tensor [length x_coord; length y_coord]
          (x_coord ≫= λ xi, replicate (length y_coord) xi),
   Tensor [length x_coord; length y_coord]
          (x_coord ≫= λ _, y_coord)).

Definition grid_coords (array : ndarray) (dL : F) : result (tensor F * tensor F) :=
  match shape array with
  | [Nx; Ny] => Ok (meshgrid_ij (linspace Nx dL) (linspace Ny dL))
  | _ => Raise ValueError
  end.

(** [a[mask] = c] for a boolean [mask] over the two leading axes of [a] *)
Definition setitem_mask (a : ndarray) (mask_shape : list nat) (mask : list bool) (c : F)
    : M F unit := λ w,
  if decide (take 2 (shape a) = mask_shape)
  then (Ok tt,
        World (<[buf a := imap (λ p v, if nth (p / arr_size (drop 2 (shape a))) mask false
                                       then c else v)
                               (buffer w a)]> (heap w))
              (calls w))
  else (Raise IndexError, w).

(** The body of the loop [for ih in range(x.shape[0])]. *)
Definition circ2eps_body (x y r eps_c : list F) (xs ys : tensor F) (eps_r : ndarray)
    (ih : nat) : M F unit :=
  xv ← lift (py_index x (Z.of_nat ih));
  yv ← lift (py_index y (Z.of_nat ih));
  rv ← lift (py_index r (Z.of_nat ih));
  let mask := zip_with (λ a b, in_circle a b xv yv rv) (t_data xs) (t_data ys) in
  c ← lift (py_index eps_c (Z.of_nat ih));
  setitem_mask eps_r (t_shape xs) mask c.

Definition circ2eps (x y r eps_c : list F) (eps_b : ndarray) (dL : F) : M F ndarray :=
  match shape eps_b with
  | Nx :: Ny :: _ =>
      let x_coord := linspace Nx dL in
      let y_coord := linspace Ny dL in
      let '(xs, ys) := meshgrid_ij x_coord y_coord in
      eps_r ← copy_copy eps_b;
      for_range (length x) (circ2eps_body x y r eps_c xs ys eps_r);;
      mret eps_r
  | _ => raise IndexError
  end.

(** Whether circle [ih] contains the grid point [(i, j)]. *)
Definition in_circle_at (x_coord y_coord x y r : list F) (ih i j : nat) : bool :=
  match x_coord !! i, y_coord !! j, x !! ih, y !! ih, r !! ih with
  | Some xi, Some yj, Some xv, Some yv, Some rv => in_circle xi yj xv yv rv
  | _, _, _, _, _ => false
  end.

End Grid.

(** ** Sample inputs *)

Module Sample.

(** [f(x) = sum of x_i^2] *)
Definition sum_squares (t : tensor float) : float :=
  fold_left (λ acc x, (acc + x * x)%float) (t_data t) 0%float.

(** The 2 x 2 array [[1, 2], [3, 4]], alone in the store. *)
Definition w22 : world float := World [[1; 2; 3; 4]%float] [].

Definition arg22 : ndarray := NdArray 0 [2; 2].

(** [fn(a, b) = a * b], elementwise. *)
Definition product (ts : list (tensor float)) : tensor float :=
  match ts with
  | [a; b] => match np_mul a b with Ok t => t | Raise _ => Tensor [0] [] end
  | _ => Tensor [0] []
  end.

(** [a = [2, 3]] and [b = [5, 7]]. *)
Definition w_ab : world float := World [[2; 3]%float; [5; 7]%float] [].

Definition args_ab : list ndarray := [NdArray 0 [2]; NdArray 1 [2]].

Definition out_ab : tensor float := Tensor [2] [10; 21]%float.

(** [fn(a) = sum of a_i^2] as a function of one positional argument with a
    zero-dimensional output, and the 2 x 2 argument above. *)
Definition sum_squares_nd (ts : list (tensor float)) : tensor float :=
  Tensor [] [sum_squares (default (Tensor [0] []) (ts !! 0))].

(** [fn(a) = [a_0, a_0]]: one input entry, two output entries. *)
Definition twice (ts : list (tensor float)) : tensor float :=
  match ts with
  | [a] => Tensor [2] [nth 0 (t_data a) 0%float; nth 0 (t_data a) 0%float]
  | _ => Tensor [2] [0; 0]%float
  end.

Definition w_one : world float := World [[0%float]] [].

(** [fn(a) = [a_0, ..., a_0]]: one input entry, eight output entries. *)
Definition eightfold (ts : list (tensor float)) : tensor float :=
  Tensor [8] (replicate 8 (nth 0 (t_data (default (Tensor [0] []) (ts !! 0))) 0%float)).

(** [2^53], from where on binary64 holds the even integers only. *)
Definition two53 : float := 9007199254740992%float.

Definition big : float := 1152921504606846976%float.

(** The same function over the rationals. *)
Definition twice_exact (ts : list (tensor Qc)) : tensor Qc :=
  match ts with
  | [a] => Tensor [2] [nth 0 (t_data a) 0%Qc; nth 0 (t_data a) 0%Qc]
  | _ => Tensor [2] [0%Qc; 0%Qc]
  end.

Definition w_one_exact : world Qc := World [[0%Qc]] [].

(** The 2 x 2 array with a step array of two entries only. *)
Definition w_short : world float := World [[1; 2; 3; 4]%float; [0.5; 0.25]%float] [].

(** The array [[1, 2]] over the rationals. *)
Definition w_two_exact : world Qc := World [[Q2Qc 1; Q2Qc 2]] [].


(** The linear map [x ↦ A x] for [A = [[1, 2], [3, 4]]] and an engine that
    differentiates it: the pullback of a cotangent [v] is [Aᵀ v]. *)
Definition linear_map (t : tensor float) : tensor float :=
  match t_data t with
  | [x; y] => Tensor [2] [(1 * x + 2 * y)%float; (3 * x + 4 * y)%float]
  | _ => Tensor [2] [0; 0]%float
  end.

Definition linear_engine (f : tensor float → tensor float) (x : tensor float)
    : result ((tensor float → result (tensor float)) * tensor float) :=
  Ok (λ v, match t_data v with
           | [a; b] => Ok (Tensor [2] [(1 * a + 3 * b)%float; (2 * a + 4 * b)%float])
           | _ => Raise ValueError
           end,
      f x).

(** A solver whose state counts the steps taken and whose field [Ez] is
    the current it was driven with; a constant source. *)
Definition counter_forward (s : nat) (J : tensor float) : nat * gmap string (tensor float) :=
  (S s, {[ "Ez"%string := J ]}).

Definition unit_source (t : nat) : tensor float := Tensor [2] [1; 1]%float.

Definition probe_a : tensor float := Tensor [2] [1; 0]%float.


(** What the plotting library does: no figure without panels, a single
    axes object for one panel, an array of axes otherwise; drawing that
    always succeeds; a solver whose permittivity has shape (2, 1, 1). *)
Definition plt_subplots (num_panels : Z) : outcome axes :=
  if decide (num_panels ≤ 0)%Z then Raised (PyError ValueError)
  else if decide (num_panels = 1)%Z then Returned OneAxes
  else Returned (AxesArray (Z.to_nat num_panels)).

Definition draw_ok (s : nat) (ax_index Nx Ny : nat) (fields : gmap string (tensor float))
    (component : string) (t_index : nat) : option sim_exn := None.

Definition eps_shape (s : nat) : list nat := [2; 1; 1].

(** Evenly spaced coordinates [0, 1, ...] scaled by [dL], and circles
    over the rationals. *)
Definition unit_linspace (N : nat) (dL : Qc) : list Qc :=
  (λ i, Q2Qc (inject_Z (Z.of_nat i)) * dL)%Qc <$> seq 0 N.

Definition disc (xi yj xv yv rv : Qc) : bool :=
  bool_decide (((xi - xv) * (xi - xv) + (yj - yv) * (yj - yv) < rv * rv)%Qc).

(** A 2 x 2 background of ones. *)
Definition w_eps : world Qc := World [[1; 1; 1; 1]%Qc] [].

End Sample.

(** ** Running the store operations *)

Section Machinery.
Context {F : Type} `{Scalar F}.
Implicit Types (w : world F) (a : ndarray) (d : list F).

Lemma bind_ok {A B} (m : M F A) (f : A → M F B) w x w1 r :
  m w = (Ok x, w1) → f x w1 = r → (m ≫= f) w = r.
Proof. intros E <-. unfold mbind, M_bind. by rewrite E. Qed.

Lemma bind_raise {A B} (m : M F A) (f : A → M F B) w e w1 :
  m w = (Raise e, w1) → (m ≫= f) w = (Raise e, w1).
Proof. intros E. unfold mbind, M_bind. by rewrite E. Qed.

Lemma arr_size_singleton n : arr_size [n] = n.
Proof. unfold arr_size. simpl. lia. Qed.

Lemma buffer_lookup w a d : heap w !! buf a = Some d → buffer w a = d.
Proof. unfold buffer. by intros ->. Qed.

Lemma np_zeros_run n w :
  np_zeros n w = (Ok (NdArray (length (heap w)) [n]),
                  World (heap w ++ [replicate n f0]) (calls w)).
Proof. reflexivity. Qed.

Lemma np_ones_run n w :
  np_ones n w = (Ok (NdArray (length (heap w)) [n]),
                 World (heap w ++ [replicate n f1]) (calls w)).
Proof. reflexivity. Qed.

Lemma scalar_mul_run s a w d :
  heap w !! buf a = Some d →
  scalar_mul s a w = (Ok (NdArray (length (heap w)) (shape a)),
                      World (heap w ++ [fmul s <$> d]) (calls w)).
Proof. intros E. unfold scalar_mul. by rewrite (buffer_lookup _ _ _ E). Qed.

Lemma copy_copy_run a w d :
  heap w !! buf a = Some d →
  copy_copy a w = (Ok (NdArray (length (heap w)) (shape a)),
                   World (heap w ++ [d]) (calls w)).
Proof. intros E. unfold copy_copy. by rewrite (buffer_lookup _ _ _ E). Qed.

Lemma flatten_run a w d :
  heap w !! buf a = Some d →
  flatten a w = (Ok (NdArray (length (heap w)) [arr_size (shape a)]),
                 World (heap w ++ [d]) (calls w)).
Proof. intros E. unfold flatten. by rewrite (buffer_lookup _ _ _ E). Qed.

Lemma nd_reshape_run a sh w :
  arr_size sh = arr_size (shape a) →
  nd_reshape a sh w = (Ok (NdArray (buf a) sh), w).
Proof. intros E. unfold nd_reshape. by rewrite decide_True. Qed.

Lemma getitem_run a i w d x :
  heap w !! buf a = Some d → d !! i = Some x → getitem a i w = (Ok x, w).
Proof. intros E Ei. unfold getitem. by rewrite (buffer_lookup _ _ _ E), Ei. Qed.

Lemma getitem_out_of_range a i w d :
  heap w !! buf a = Some d → length d ≤ i → getitem a i w = (Raise IndexError, w).
Proof.
  intros E Hi. unfold getitem.
  by rewrite (buffer_lookup _ _ _ E), (lookup_ge_None_2 _ _ Hi).
Qed.

Lemma setitem_run a i x w d :
  heap w !! buf a = Some d → i < length d →
  setitem a i x w = (Ok tt, World (<[buf a := <[i := x]> d]> (heap w)) (calls w)).
Proof.
  intros E Hi. unfold setitem. rewrite (buffer_lookup _ _ _ E).
  by rewrite decide_True.
Qed.

Lemma iadd_item_run a i (s : M F F) y w d x :
  heap w !! buf a = Some d → d !! i = Some x → s w = (Ok y, w) →
  iadd_item a i s w
  = (Ok tt, World (<[buf a := <[i := fadd x y]> d]> (heap w)) (calls w)).
Proof.
  intros E Ei Es. unfold iadd_item.
  eapply bind_ok; [by eapply getitem_run|].
  eapply bind_ok; [exact Es|].
  eapply setitem_run; [done|]. by eapply lookup_lt_Some.
Qed.

Lemma call1_run fn a w d :
  heap w !! buf a = Some d →
  call1 fn a w = (Ok (fn (Tensor (shape a) d)),
                  World (heap w) (calls w ++ [[Tensor (shape a) d]])).
Proof. intros E. unfold call1, value. by rewrite (buffer_lookup _ _ _ E). Qed.

Lemma for_each_seq_inv (I : nat → world F → Prop) (body : nat → M F unit) k :
  ∀ j,
  (∀ i w, j ≤ i < j + k → I i w → ∃ w', body i w = (Ok tt, w') ∧ I (S i) w') →
  ∀ w, I j w → ∃ w', for_each (seq j k) body w = (Ok tt, w') ∧ I (j + k) w'.
Proof.
  induction k as [|k IH]; intros j Hbody w Hw.
  - exists w. rewrite Nat.add_0_r. done.
  - destruct (Hbody j w) as (w1 & E1 & H1); [lia|done|].
    destruct (IH (S j)) with (w := w1) as (w2 & E2 & H2); [|done|].
    { intros i w' Hi. apply Hbody. lia. }
    exists w2. split; [|by replace (j + S k) with (S j + k) by lia].
    simpl. eapply bind_ok; [exact E1|exact E2].
Qed.

Lemma for_range_inv (I : nat → world F → Prop) (body : nat → M F unit) n :
  (∀ i w, i < n → I i w → ∃ w', body i w = (Ok tt, w') ∧ I (S i) w') →
  ∀ w, I 0 w → ∃ w', for_range n body w = (Ok tt, w') ∧ I n w'.
Proof.
  intros Hbody w Hw.
  apply (for_each_seq_inv I body n 0); [|done].
  intros i w' Hi. apply Hbody. lia.
Qed.

Lemma alter_as_insert {A} (f : A → A) (l : list A) i x :
  l !! i = Some x → alter f i l = <[i := f x]> l.
Proof.
  revert i. induction l as [|y l IH]; intros [|i] E; simplify_eq/=; [done|].
  f_equal. by apply IH.
Qed.

Lemma prefix_insert_ge {A} (l0 l : list A) i x :
  l0 `prefix_of` l → length l0 ≤ i → l0 `prefix_of` <[i := x]> l.
Proof.
  intros [k ->] Hi. rewrite insert_app_r_alt by done. by eexists.
Qed.

Lemma py_index_run {A} (l : list A) i j x :
  norm_index (length l) i = Some j → l !! j = Some x → py_index l i = Ok x.
Proof. intros Ei Ej. unfold py_index. by rewrite Ei, Ej. Qed.

Lemma py_setitem_run {A} (l : list A) i j x :
  norm_index (length l) i = Some j → py_setitem l i x = Ok (<[j := x]> l).
Proof. intros Ei. unfold py_setitem. by rewrite Ei. Qed.

Lemma norm_index_nat n j : j < n → norm_index n (Z.of_nat j) = Some j.
Proof.
  intros Hj. unfold norm_index.
  destruct (Z.ltb_spec (Z.of_nat j) 0); [lia|].
  destruct (Z.leb_spec 0 (Z.of_nat j)); [|lia].
  destruct (Z.ltb_spec (Z.of_nat j) (Z.of_nat n)); [|lia].
  simpl. by rewrite Nat2Z.id.
Qed.

Lemma norm_index_lt n i j : norm_index n i = Some j → j < n.
Proof.
  unfold norm_index.
  generalize (if (i <? 0)%Z then (i + Z.of_nat n)%Z else i). intros z.
  destruct (Z.leb_spec 0 z), (Z.ltb_spec z (Z.of_nat n)); simpl; intros [= <-]; lia.
Qed.

Lemma lift_run {A} (r : result A) x w : r = Ok x → lift r w = (Ok x, w).
Proof. by intros ->. Qed.

Lemma calln_run fn args w :
  calln fn args w
  = (Ok (fn (value w <$> args)), World (heap w) (calls w ++ [value w <$> args])).
Proof. reflexivity. Qed.

Lemma prefix_value w w' a :
  heap w `prefix_of` heap w' → buf a < length (heap w) → value w' a = value w a.
Proof.
  intros Hp Ha. unfold value, buffer. f_equal.
  destruct (lookup_lt_is_Some_2 _ _ Ha) as [d Ed].
  by rewrite Ed, (prefix_lookup_Some _ _ _ _ Ed Hp).
Qed.

End Machinery.

(** ** Broadcasting of equal shapes *)

Section Broadcast.
Context {F : Type} `{Scalar F}.

Lemma arr_size_app s1 s2 : arr_size (s1 ++ s2) = arr_size s1 * arr_size s2.
Proof.
  unfold arr_size. induction s1 as [|d s1 IH]; simpl; [lia|]. rewrite IH. lia.
Qed.

Lemma arr_size_rev s : arr_size (rev s) = arr_size s.
Proof.
  induction s as [|d s IH]; [done|]. simpl rev.
  rewrite arr_size_app, IH. unfold arr_size. simpl. lia.
Qed.

Lemma broadcast_rev_same s : broadcast_rev s s = Some s.
Proof.
  induction s as [|d s IH]; [done|]. simpl. rewrite IH. simpl.
  by rewrite decide_True.
Qed.

Lemma broadcast_shapes_same s : broadcast_shapes s s = Some s.
Proof. unfold broadcast_shapes. by rewrite broadcast_rev_same, rev_involutive. Qed.

Lemma src_index_same r : ∀ k, k < arr_size r → src_index r r k = k.
Proof.
  induction r as [|d r IH]; intros k Hk.
  - unfold arr_size in Hk. simpl in *. lia.
  - change (arr_size (d :: r)) with (d * arr_size r) in Hk. simpl.
    assert (d ≠ 0) by (intros ->; lia).
    rewrite IH by (apply Nat.Div0.div_lt_upper_bound; lia).
    destruct (decide (d = 1)) as [->|Hd].
    + rewrite Nat.div_1_r. lia.
    + pose proof (Nat.div_mod_eq k d). lia.
Qed.

Lemma zip_with_as_nth (op : F → F → F) (da db : list F) n :
  length da = n → length db = n →
  (λ k, op (nth k da f0) (nth k db f0)) <$> seq 0 n = zip_with op da db.
Proof.
  intros Ha Hb. apply list_eq. intros i.
  rewrite list_lookup_fmap, lookup_zip_with.
  destruct (decide (i < n)) as [Hi|Hi].
  - rewrite lookup_seq_lt by done. simpl.
    destruct (lookup_lt_is_Some_2 da i ltac:(lia)) as [x Ex].
    destruct (lookup_lt_is_Some_2 db i ltac:(lia)) as [y Ey].
    rewrite Ex, Ey. simpl.
    by rewrite (nth_lookup_Some _ _ _ _ Ex), (nth_lookup_Some _ _ _ _ Ey).
  - rewrite lookup_seq_ge by lia. simpl.
    by rewrite (lookup_ge_None_2 da) by lia.
Qed.

Lemma broadcast2_same_shape (op : F → F → F) (a b : tensor F) :
  t_shape a = t_shape b → well_formed a → well_formed b →
  broadcast2 op a b = Ok (Tensor (t_shape a) (zip_with op (t_data a) (t_data b))).
Proof.
  intros Es Ha Hb. unfold broadcast2. rewrite <- Es, broadcast_shapes_same.
  do 2 f_equal. rewrite <- (zip_with_as_nth op _ _ (arr_size (t_shape a))); [|done|by rewrite Es].
  apply list_fmap_ext. intros i k Hk. apply lookup_seq in Hk as [-> Hk]. simpl.
  by rewrite src_index_same by by rewrite arr_size_rev.
Qed.

End Broadcast.

(** ** The buffers of [np.sum] *)

Section Buffers.
Context {F : Type} `{Scalar F} `{Buffering}.

Lemma buffers_nil : buffers ([] : list F) = [].
Proof.
  unfold buffers. simpl length.
  pose proof bufsize_pos.
  by rewrite Nat.div_small by lia.
Qed.

Lemma buffers_one (a : list F) :
  a ≠ [] → length a ≤ bufsize → buffers a = [a].
Proof.
  intros Ha Hl. unfold buffers.
  assert (0 < length a) by (destruct a; [done|simpl; lia]).
  assert (E : (length a + bufsize - 1) / bufsize = 1).
  { symmetry. apply (Nat.div_unique _ _ _ (length a - 1)); lia. }
  rewrite E. simpl. rewrite drop_0. by rewrite take_ge by lia.
Qed.

(** The buffers reach the end of the array. *)
Lemma buffers_cover (a : list F) :
  length a ≤ (length a + bufsize - 1) / bufsize * bufsize.
Proof.
  pose proof bufsize_pos.
  pose proof (Nat.div_mod_eq (length a + bufsize - 1) bufsize) as E.
  pose proof (Nat.mod_upper_bound (length a + bufsize - 1) bufsize ltac:(lia)).
  lia.
Qed.

Lemma add_reduce_nil : add_reduce ([] : list F) = f0.
Proof. unfold add_reduce. by rewrite buffers_nil. Qed.

Lemma add_reduce_one_buffer (a : list F) :
  a ≠ [] → length a ≤ bufsize →
  add_reduce a = fadd f0 (pairwise_sum (length a) a).
Proof. intros Ha Hl. unfold add_reduce. by rewrite buffers_one. Qed.

(** A single entry is added to [0.] twice: by [pairwise_sum] and by the
    reduction. *)
Lemma add_reduce_single (x : F) : add_reduce [x] = fadd f0 (fadd f0 x).
Proof.
  rewrite add_reduce_one_buffer; [done|done|].
  pose proof bufsize_pos. simpl. lia.
Qed.

Lemma take_add {A} (l : list A) n m : take (n + m) l = take n l ++ take m (drop n l).
Proof.
  revert l. induction n as [|n IH]; intros [|x l]; simpl; try done.
  - by rewrite take_nil.
  - by rewrite IH.
Qed.

(** Where the array is split, both parts have entries. *)
Lemma pairwise_split (n : nat) :
  128 < n → 0 < n / 2 - (n / 2) mod 8 < n.
Proof.
  intros Hn.
  pose proof (Nat.mod_upper_bound (n / 2) 8 ltac:(lia)).
  pose proof (Nat.div_mod_eq n 2).
  pose proof (Nat.mod_upper_bound n 2 ltac:(lia)). lia.
Qed.

(** The recursion of [pairwise_sum] ends before its fuel does: any fuel
    that is at least the number of entries gives the same sum. *)
Lemma pairwise_sum_fuel (fuel1 : nat) :
  ∀ (fuel2 : nat) (a : list F), length a ≤ fuel1 → length a ≤ fuel2 →
  pairwise_sum fuel1 a = pairwise_sum fuel2 a.
Proof.
  induction fuel1 as [|fuel1 IH]; intros fuel2 a H1 H2.
  - destruct a; [|simpl in H1; lia]. by destruct fuel2.
  - destruct fuel2 as [|fuel2].
    { destruct a; [done|simpl in H2; lia]. }
    cbn [pairwise_sum]. destruct (decide (length a ≤ 128)) as [Hs|Hs]; [done|].
    pose proof (pairwise_split (length a) ltac:(lia)) as Hn2.
    f_equal; apply IH; rewrite ?length_take, ?length_drop; lia.
Qed.

End Buffers.

(** ** The loop of [grad_num] *)

Section GradNum.
Context {F : Type} `{Scalar F}.
Implicit Types (w : world F) (a : ndarray) (d : list F).

Lemma grad_num_body_run fn h0 c0 arg A St lg ls sh j w :
  length A = arr_size (shape arg) → j < length St →
  buf arg ≠ lg → ls ≠ lg → length h0 ≤ lg →
  j < length A →
  grad_num_inv fn h0 c0 arg A St lg ls j w →
  ∃ w', grad_num_body fn arg (NdArray lg [length A]) (NdArray ls sh) (shape arg)
          (fn (Tensor (shape arg) A)) j w = (Ok tt, w') ∧
        grad_num_inv fn h0 c0 arg A St lg ls (S j) w'.
Proof.
  intros HA HSt Hag Hsg Hlg Hj (Ea & Es & (G & Eg & HG & HGj) & Ec & Hp).
  destruct (lookup_lt_is_Some_2 A j Hj) as [x Ex].
  destruct (lookup_lt_is_Some_2 St j HSt) as [s Ess].
  pose proof (lookup_lt_Some _ _ _ Ea) as La.
  pose proof (lookup_lt_Some _ _ _ Es) as Ls.
  pose proof (lookup_lt_Some _ _ _ Eg) as Lg.
  set (A' := <[j := fadd x s]> A).
  set (q := fdiv (fsub (fn (Tensor (shape arg) A')) (fn (Tensor (shape arg) A))) s).
  exists (World (<[lg := <[j := q]> G]> (<[length (heap w) := A']> (heap w ++ [A])))
                (calls w ++ [[Tensor (shape arg) A']])).
  split.
  - unfold grad_num_body.
    eapply bind_ok; [by apply copy_copy_run|].
    eapply bind_ok.
    { eapply iadd_item_run; cbn [buf heap].
      - by apply list_lookup_middle.
      - exact Ex.
      - eapply getitem_run; cbn [buf heap]; [by apply lookup_app_l_Some|exact Ess]. }
    cbn [buf shape ravel].
    eapply bind_ok.
    { apply nd_reshape_run. cbn [shape]. by rewrite arr_size_singleton. }
    eapply bind_ok.
    { eapply call1_run. cbn [buf heap]. apply list_lookup_insert_eq.
      rewrite length_app. simpl. lia. }
    cbn [shape].
    eapply bind_ok.
    { eapply getitem_run; cbn [buf heap]; [|exact Ess].
      rewrite list_lookup_insert_ne by lia. by apply lookup_app_l_Some. }
    eapply setitem_run; cbn [buf heap].
    + rewrite list_lookup_insert_ne by lia. by apply lookup_app_l_Some.
    + lia.
  - assert (EA' : perturb (Tensor (shape arg) A) j s = Tensor (shape arg) A').
    { unfold perturb. cbn. f_equal. by apply (alter_as_insert (λ y, fadd y s)). }
    repeat split; cbn [heap calls].
    + rewrite !list_lookup_insert_ne by lia. by apply lookup_app_l_Some.
    + rewrite !list_lookup_insert_ne by lia. by apply lookup_app_l_Some.
    + exists (<[j := q]> G). split; [|split].
      * apply list_lookup_insert_eq. rewrite length_insert, length_app. lia.
      * by rewrite length_insert.
      * intros i s' Hi Es'. destruct (decide (i = j)) as [->|Hne].
        -- rewrite list_lookup_insert_eq by lia. simplify_eq.
           unfold fd_quotient. by rewrite EA'.
        -- rewrite list_lookup_insert_ne by done. apply HGj; [lia|done].
    + rewrite Ec, (take_S_r _ _ _ Ess), imap_app, <- app_assoc. do 2 f_equal.
      simpl. rewrite length_take_le by lia. rewrite Nat.add_0_r. by rewrite EA'.
    + apply prefix_insert_ge; [|lia]. apply prefix_insert_ge; [|by etrans; [|apply Nat.lt_le_incl]].
      by apply prefix_app_r.
Qed.

Lemma grad_num_tail fn h0 c0 arg A St lg ls sh w :
  length A = arr_size (shape arg) → length A ≤ length St →
  buf arg ≠ lg → ls ≠ lg → length h0 ≤ lg →
  grad_num_inv fn h0 c0 arg A St lg ls 0 w →
  ∃ w', (for_range (length A)
           (grad_num_body fn arg (NdArray lg [length A]) (NdArray ls sh) (shape arg)
              (fn (Tensor (shape arg) A)));;
         nd_reshape (NdArray lg [length A]) (shape arg)) w
        = (Ok (NdArray lg (shape arg)), w') ∧
        grad_num_inv fn h0 c0 arg A St lg ls (length A) w'.
Proof.
  intros HA HSt Hag Hsg Hlg Hinv.
  destruct (for_range_inv (grad_num_inv fn h0 c0 arg A St lg ls)
              (grad_num_body fn arg (NdArray lg [length A]) (NdArray ls sh) (shape arg)
                 (fn (Tensor (shape arg) A))) (length A)) with (w := w)
    as (w' & E & Hinv'); [|done|].
  { intros i wi Hi Hwi. apply grad_num_body_run; try done. lia. }
  exists w'. split; [|done].
  eapply bind_ok; [exact E|].
  apply nd_reshape_run. cbn [shape]. by rewrite arr_size_singleton.
Qed.

Lemma grad_num_setup fn arg step_size w A St :
  heap w !! buf arg = Some A → length A = arr_size (shape arg) →
  step_of w (length A) step_size = Some St →
  ∃ ls sh w3,
    grad_num fn arg step_size w
    = (for_range (length A)
         (grad_num_body fn arg (NdArray (length (heap w)) [length A]) (NdArray ls sh)
            (shape arg) (fn (Tensor (shape arg) A)));;
       nd_reshape (NdArray (length (heap w)) [length A]) (shape arg)) w3
    ∧ ls ≠ length (heap w)
    ∧ grad_num_inv fn (heap w) (calls w ++ [[Tensor (shape arg) A]]) arg A St
        (length (heap w)) ls 0 w3.
Proof.
  intros Ea HA Est.
  pose proof (lookup_lt_Some _ _ _ Ea) as La.
  set (lg := length (heap w)).
  set (t := Tensor (shape arg) A).
  assert (Hz : (heap w ++ [replicate (length A) f0]) !! lg = Some (replicate (length A) f0))
    by by apply list_lookup_middle.
  assert (Hstart :
    grad_num fn arg step_size w
    = (step ← match step_size with
              | PyFloat s => ones ← np_ones (length A); scalar_mul s ones
              | PyInt _ => raise (AttributeError "ravel"%string)
              | NpFloat64 x => b ← alloc [x]; mret (NdArray b [1])
              | NpArray a => mret (ravel a)
              end;
       for_range (length A)
         (grad_num_body fn arg (NdArray lg [length A]) step (shape arg) (fn t));;
       nd_reshape (NdArray lg [length A]) (shape arg))
        (World (heap w ++ [replicate (length A) f0]) (calls w ++ [[t]]))).
  { unfold grad_num. rewrite <- HA.
    eapply bind_ok; [apply np_zeros_run|].
    eapply bind_ok; [apply call1_run; cbn [heap]; by apply lookup_app_l_Some|].
    reflexivity. }
  rewrite Hstart. clear Hstart.
  destruct step_size as [s|n|x|a]; simpl in Est; simplify_eq.
  - eexists _, _, _. split; [|split].
    + eapply bind_ok; [|reflexivity].
      eapply bind_ok; [apply np_ones_run|].
      eapply scalar_mul_run. cbn [buf heap]. by apply list_lookup_middle.
    + cbn [heap]. rewrite !length_app. simpl. unfold lg. lia.
    + repeat split; cbn [heap calls].
      * do 3 apply lookup_app_l_Some. done.
      * rewrite fmap_replicate. by apply list_lookup_middle.
      * exists (replicate (length A) f0). split; [|split].
        -- by do 2 apply lookup_app_l_Some.
        -- by rewrite length_replicate.
        -- intros i s' Hi. lia.
      * simpl. by rewrite app_nil_r.
      * by do 3 apply prefix_app_r.
  - eexists _, _, _. split; [|split].
    + eapply bind_ok; [|reflexivity]. reflexivity.
    + cbn [heap]. rewrite !length_app. simpl. unfold lg. lia.
    + repeat split; cbn [heap calls].
      * do 2 apply lookup_app_l_Some. done.
      * by apply list_lookup_middle.
      * exists (replicate (length A) f0). split; [|split].
        -- by apply lookup_app_l_Some.
        -- by rewrite length_replicate.
        -- intros i s' Hi. lia.
      * simpl. by rewrite app_nil_r.
      * by do 2 apply prefix_app_r.
  - pose proof (lookup_lt_Some _ _ _ Est) as Ls.
    eexists (buf a), [arr_size (shape a)], _. split; [|split].
    + eapply bind_ok; [|reflexivity]. reflexivity.
    + unfold lg. lia.
    + repeat split; cbn [heap calls].
      * by apply lookup_app_l_Some.
      * by apply lookup_app_l_Some.
      * exists (replicate (length A) f0). split; [|split].
        -- done.
        -- by rewrite length_replicate.
        -- intros i s' Hi. lia.
      * simpl. by rewrite app_nil_r.
      * by apply prefix_app_r.
Qed.

Lemma grad_num_run fn arg step_size w A St :
  heap w !! buf arg = Some A → length A = arr_size (shape arg) →
  step_of w (length A) step_size = Some St → length A ≤ length St →
  ∃ w' G,
    grad_num fn arg step_size w = (Ok (NdArray (length (heap w)) (shape arg)), w') ∧
    heap w' !! length (heap w) = Some G ∧ length G = length A ∧
    (∀ i s, i < length A → St !! i = Some s →
            G !! i = Some (fd_quotient fn (Tensor (shape arg) A) i s)) ∧
    calls w' = calls w ++ [Tensor (shape arg) A]
                 :: imap (λ i s, [perturb (Tensor (shape arg) A) i s]) (take (length A) St) ∧
    heap w `prefix_of` heap w'.
Proof.
  intros Ea HA Est HSt.
  pose proof (lookup_lt_Some _ _ _ Ea) as La.
  destruct (grad_num_setup fn arg step_size w A St) as (ls & sh & w3 & E3 & Hls & Hinv);
    try done.
  destruct (grad_num_tail fn (heap w) (calls w ++ [[Tensor (shape arg) A]]) arg A St
              (length (heap w)) ls sh w3)
    as (w' & E & (_ & _ & (G & Eg & HG & HGi) & Ec & Hp)); try done; [lia|].
  exists w', G. split; [|split; [done|split; [done|split; [|split; [|done]]]]].
  - rewrite E3. exact E.
  - intros i s Hi. by apply HGi.
  - by rewrite Ec, <- app_assoc.
Qed.

Lemma iadd_item_raise a i (s : M F F) e w d x :
  heap w !! buf a = Some d → d !! i = Some x → s w = (Raise e, w) →
  iadd_item a i s w = (Raise e, w).
Proof.
  intros E Ei Es. unfold iadd_item.
  eapply bind_ok; [by eapply getitem_run|].
  by apply bind_raise.
Qed.

Lemma grad_num_body_raise fn arg gradient ls sh f_old A St j w :
  heap w !! buf arg = Some A → heap w !! ls = Some St →
  j < length A → length St ≤ j →
  ∃ w', grad_num_body fn arg gradient (NdArray ls sh) (shape arg) f_old j w
        = (Raise IndexError, w').
Proof.
  intros Ea Es Hj HSt.
  destruct (lookup_lt_is_Some_2 A j Hj) as [x Ex].
  eexists. unfold grad_num_body.
  eapply bind_ok; [by apply copy_copy_run|].
  apply bind_raise.
  eapply iadd_item_raise; cbn [buf heap].
  - by apply list_lookup_middle.
  - exact Ex.
  - eapply getitem_out_of_range; cbn [buf heap]; [by apply lookup_app_l_Some|done].
Qed.

(** With a one-entry [step] and an argument of two entries or more, the
    second iteration fails at [step[1]]. *)
Lemma grad_num_short_step fn arg step_size w A x :
  heap w !! buf arg = Some A → length A = arr_size (shape arg) →
  step_of w (length A) step_size = Some [x] → 1 < length A →
  ∃ w', grad_num fn arg step_size w = (Raise IndexError, w').
Proof.
  intros Ea HA Est HN.
  pose proof (lookup_lt_Some _ _ _ Ea) as La.
  destruct (grad_num_setup fn arg step_size w A [x]) as (ls & sh & w3 & E3 & Hls & Hinv);
    try done.
  destruct (grad_num_body_run fn (heap w) (calls w ++ [[Tensor (shape arg) A]]) arg A [x]
              (length (heap w)) ls sh 0 w3)
    as (w4 & E4 & (Ea4 & Es4 & _)); try done; simpl; try lia.
  destruct (grad_num_body_raise fn arg (NdArray (length (heap w)) [length A]) ls sh
              (fn (Tensor (shape arg) A)) A [x] 1 w4) as (w5 & E5); try done.
  exists w5. rewrite E3. apply bind_raise.
  destruct (length A) as [|[|n]]; [lia|lia|].
  unfold for_range. simpl.
  eapply bind_ok; [exact E4|]. by apply bind_raise.
Qed.

End GradNum.

(** ** The loop of a [vjp] closure *)

Section Vjp.
Context {F : Type} `{Scalar F} `{Buffering}.
Implicit Types (w : world F) (a : ndarray) (d : list F).

Lemma vjp_body_run fn args k kk a A step fn_out v w0 c0 j w :
  norm_index (length args) k = Some kk → args !! kk = Some a →
  heap w0 !! buf a = Some A → length A = arr_size (shape a) →
  Forall (λ a', buf a' < length (heap w0)) args →
  t_shape (fn (perturb_arg (value w0 <$> args) kk j step)) = t_shape fn_out →
  well_formed (fn (perturb_arg (value w0 <$> args) kk j step)) →
  well_formed fn_out → t_shape v = t_shape fn_out → well_formed v →
  j < length A →
  vjp_inv fn fn_out v (heap w0) c0 (value w0 <$> args) kk step (length A) j w →
  ∃ w', vjp_body fn args k (shape a) step fn_out v
          (NdArray (length (heap w0)) [length A]) j w = (Ok tt, w') ∧
        vjp_inv fn fn_out v (heap w0) c0 (value w0 <$> args) kk step (length A) (S j) w'.
Proof.
  intros Ek Ekk Ea HA Hargs Hsh Hwf Hout Hv Hvwf Hj ((G & Eg & HG & HGj) & Ec & Hp).
  destruct (lookup_lt_is_Some_2 A j Hj) as [x Ex].
  pose proof (lookup_lt_Some _ _ _ Eg) as Lg.
  pose proof (prefix_lookup_Some _ _ _ _ Ea Hp) as Ea'.
  set (A' := <[j := fadd x step]> A).
  set (ts := value w0 <$> args).
  assert (Ets : perturb_arg ts kk j step = <[kk := Tensor (shape a) A']> ts).
  { unfold perturb_arg. erewrite alter_as_insert; cycle 1.
    { unfold ts. rewrite list_lookup_fmap, Ekk. reflexivity. }
    f_equal. unfold perturb, value. cbn. rewrite (buffer_lookup _ _ _ Ea). f_equal.
    by apply (alter_as_insert (λ y, fadd y step)). }
  set (out := fn (perturb_arg ts kk j step)).
  set (q := np_dot (t_data v) (fd_partial fn fn_out ts kk j step)).
  exists (World (<[length (heap w0) := <[j := q]> G]> (<[length (heap w) := A']> (heap w ++ [A])))
                (calls w ++ [perturb_arg ts kk j step])).
  assert (Evals : value (World (<[length (heap w) := A']> (heap w ++ [A])) (calls w))
                    <$> <[kk := NdArray (length (heap w)) (shape a)]> args
                  = perturb_arg ts kk j step).
  { rewrite Ets, list_fmap_insert. f_equal.
    - unfold value, buffer. cbn [buf shape heap]. f_equal.
      rewrite list_lookup_insert_eq; [done|]. rewrite length_app. simpl. lia.
    - apply Forall_fmap_ext_1. eapply Forall_impl; [exact Hargs|].
      intros a' Ha'. apply prefix_value; [|done]. cbn [heap].
      apply prefix_insert_ge; [by apply prefix_app_r|]. by apply prefix_length. }
  split.
  - unfold vjp_body.
    eapply bind_ok; [apply lift_run; by eapply py_index_run|].
    eapply bind_ok; [by apply flatten_run|].
    eapply bind_ok.
    { eapply iadd_item_run; cbn [buf heap].
      - by apply list_lookup_middle.
      - exact Ex.
      - reflexivity. }
    cbn [buf].
    eapply bind_ok.
    { apply nd_reshape_run. cbn [shape]. by rewrite arr_size_singleton. }
    eapply bind_ok; [apply lift_run; by eapply py_setitem_run|].
    eapply bind_ok; [apply calln_run|].
    cbn [buf heap calls]. fold A'. rewrite Evals. fold out.
    fold ts out in Hsh, Hwf.
    eapply bind_ok.
    { apply lift_run. by apply broadcast2_same_shape. }
    eapply bind_ok.
    { apply lift_run. apply broadcast2_same_shape.
      - cbn. congruence.
      - done.
      - unfold well_formed, np_div_scalar. cbn [t_shape t_data].
        rewrite length_fmap, length_zip_with.
        unfold well_formed in Hwf, Hout. rewrite Hwf, Hout, Hsh. lia. }
    eapply setitem_run; cbn [buf heap].
    + rewrite list_lookup_insert_ne; [by apply lookup_app_l_Some|].
      pose proof (prefix_length _ _ Hp). lia.
    + lia.
  - split; [|split]; cbn [heap calls].
    + exists (<[j := q]> G). split; [|split].
      * apply list_lookup_insert_eq. rewrite length_insert, length_app. lia.
      * by rewrite length_insert.
      * intros p Hlt. destruct (decide (p = j)) as [->|Hne].
        -- by rewrite list_lookup_insert_eq by lia.
        -- rewrite list_lookup_insert_ne by done. apply HGj. lia.
    + rewrite Ec, seq_S, fmap_app, <- app_assoc. done.
    + apply prefix_insert_ge; [|lia]. apply prefix_insert_ge; [|by apply prefix_length].
      by apply prefix_app_r.
Qed.

Lemma vjp_run fn args k kk a A step fn_out v w :
  norm_index (length args) k = Some kk → args !! kk = Some a →
  heap w !! buf a = Some A → length A = arr_size (shape a) →
  Forall (λ a', buf a' < length (heap w)) args →
  (∀ p, p < length A →
        t_shape (fn (perturb_arg (value w <$> args) kk p step)) = t_shape fn_out ∧
        well_formed (fn (perturb_arg (value w <$> args) kk p step))) →
  well_formed fn_out → t_shape v = t_shape fn_out → well_formed v →
  ∃ w' G,
    vjp fn args k (shape a) (arr_size (shape a)) step fn_out v w
      = (Ok (NdArray (length (heap w)) [length A]), w') ∧
    heap w' !! length (heap w) = Some G ∧ length G = length A ∧
    (∀ p, p < length A →
          G !! p = Some (np_dot (t_data v) (fd_partial fn fn_out (value w <$> args) kk p step))) ∧
    calls w' = calls w ++ ((λ p, perturb_arg (value w <$> args) kk p step) <$> seq 0 (length A)) ∧
    heap w `prefix_of` heap w'.
Proof.
  intros Ek Ekk Ea HA Hargs Hfn Hout Hv Hvwf.
  destruct (for_range_inv
              (vjp_inv fn fn_out v (heap w) (calls w) (value w <$> args) kk step (length A))
              (vjp_body fn args k (shape a) step fn_out v (NdArray (length (heap w)) [length A]))
              (length A))
    with (w := World (heap w ++ [replicate (length A) f0]) (calls w))
    as (w' & E & (G & Eg & HG & HGp) & Ec & Hp).
  { intros i wi Hi Hwi. destruct (Hfn i Hi). by eapply vjp_body_run. }
  { split; [|split]; cbn [heap calls].
    - exists (replicate (length A) f0). split; [by apply list_lookup_middle|].
      split; [by rewrite length_replicate|]. intros p Hp. lia.
    - simpl. by rewrite app_nil_r.
    - by apply prefix_app_r. }
  exists w', G. split; [|done].
  unfold vjp. rewrite <- HA.
  eapply bind_ok; [apply np_zeros_run|].
  eapply bind_ok; [exact E|]. reflexivity.
Qed.

End Vjp.

(** ** Writes go to fresh buffers only *)

Section Frame.
Context {F : Type} `{Scalar F} `{Buffering}.
Implicit Types (w : world F) (a : ndarray) (d : list F).

Lemma frames_ret {A} (h0 : list (list F)) (x : A) (Q : A → Prop) : Q x → frames h0 (mret x) Q.
Proof. intros HQ w Hw. split; [done|]. intros y [= <-]. done. Qed.

Lemma frames_raise {A} (h0 : list (list F)) e (Q : A → Prop) : frames h0 (raise e) Q.
Proof. intros w Hw. split; [done|]. intros y [=]. Qed.

Lemma frames_lift {A} (h0 : list (list F)) (r : result A) : frames h0 (lift r) (λ _, True).
Proof. intros w Hw. done. Qed.

Lemma frames_bind {A B} (h0 : list (list F)) (m : M F A) (f : A → M F B) (Q : A → Prop) (R : B → Prop) :
  frames h0 m Q → (∀ x, Q x → frames h0 (f x) R) → frames h0 (m ≫= f) R.
Proof.
  intros Hm Hf w Hw. destruct (Hm w Hw) as [Hp HQ].
  unfold mbind, M_bind. destruct (m w) as [[x|e] w1]; simpl in *.
  - by apply Hf; [apply HQ|].
  - split; [done|]. intros y [=].
Qed.

Lemma frames_weaken {A} (h0 : list (list F)) (m : M F A) (Q R : A → Prop) :
  frames h0 m Q → (∀ x, Q x → R x) → frames h0 m R.
Proof. intros Hm HQR w Hw. destruct (Hm w Hw) as [Hp HQ]. eauto. Qed.

Lemma frames_alloc (h0 : list (list F)) d : frames h0 (alloc d) (λ b, length h0 ≤ b).
Proof.
  intros w Hw. split; simpl.
  - by apply prefix_app_r.
  - intros b [= <-]. by apply prefix_length.
Qed.

Lemma frames_new (h0 : list (list F)) d sh : frames h0 (b ← alloc d; mret (NdArray b sh)) (fresh h0).
Proof.
  eapply frames_bind; [apply frames_alloc|]. intros b Hb. by apply frames_ret.
Qed.

Lemma frames_np_zeros (h0 : list (list F)) n : frames h0 (np_zeros n) (fresh h0).
Proof. apply frames_new. Qed.

Lemma frames_np_ones (h0 : list (list F)) n : frames h0 (np_ones n) (fresh h0).
Proof. apply frames_new. Qed.

Lemma frames_scalar_mul (h0 : list (list F)) s a : frames h0 (scalar_mul s a) (fresh h0).
Proof. intros w Hw. by apply (frames_new h0 (fmul s <$> buffer w a) (shape a)). Qed.

Lemma frames_copy_copy (h0 : list (list F)) a : frames h0 (copy_copy a) (fresh h0).
Proof. intros w Hw. by apply (frames_new h0 (buffer w a) (shape a)). Qed.

Lemma frames_flatten (h0 : list (list F)) a : frames h0 (flatten a) (fresh h0).
Proof. intros w Hw. by apply (frames_new h0 (buffer w a) [arr_size (shape a)]). Qed.

Lemma frames_nd_reshape (h0 : list (list F)) a sh : fresh h0 a → frames h0 (nd_reshape a sh) (fresh h0).
Proof.
  intros Ha. unfold nd_reshape. case_decide; [by apply frames_ret|apply frames_raise].
Qed.

Lemma frames_getitem (h0 : list (list F)) a i : frames h0 (getitem a i) (λ _, True).
Proof. intros w Hw. unfold getitem. by destruct (buffer w a !! i). Qed.

Lemma frames_setitem (h0 : list (list F)) a i x : fresh h0 a → frames h0 (setitem a i x) (λ _, True).
Proof.
  intros Ha w Hw. unfold setitem. case_decide; simpl; [|done].
  split; [|done]. by apply prefix_insert_ge.
Qed.

Lemma frames_iadd_item (h0 : list (list F)) a i (s : M F F) :
  fresh h0 a → frames h0 s (λ _, True) → frames h0 (iadd_item a i s) (λ _, True).
Proof.
  intros Ha Hs. unfold iadd_item.
  eapply frames_bind; [apply frames_getitem|]. intros x _.
  eapply frames_bind; [apply Hs|]. intros y _. by apply frames_setitem.
Qed.

Lemma frames_call1 (h0 : list (list F)) fn a : frames h0 (call1 fn a) (λ _, True).
Proof. intros w Hw. done. Qed.

Lemma frames_calln (h0 : list (list F)) fn args : frames h0 (calln fn args) (λ _, True).
Proof. intros w Hw. done. Qed.

Lemma frames_for_each {A} (h0 : list (list F)) (xs : list A) (body : A → M F unit) :
  (∀ x, frames h0 (body x) (λ _, True)) → frames h0 (for_each xs body) (λ _, True).
Proof.
  intros Hbody. induction xs as [|x xs IH]; simpl.
  - by apply frames_ret.
  - eapply frames_bind; [apply Hbody|]. by intros _ _.
Qed.

Lemma frames_grad_num_body (h0 : list (list F)) fn arg gradient step sh f_old i :
  fresh h0 gradient →
  frames h0 (grad_num_body fn arg gradient step sh f_old i) (λ _, True).
Proof.
  intros Hg. unfold grad_num_body.
  eapply frames_bind; [apply frames_copy_copy|]. intros arg_new Hnew.
  eapply frames_bind; [apply frames_iadd_item; [done|apply frames_getitem]|]. intros _ _.
  eapply frames_bind; [by apply frames_nd_reshape|]. intros view _.
  eapply frames_bind; [apply frames_call1|]. intros f_new_i _.
  eapply frames_bind; [apply frames_getitem|]. intros s _.
  by apply frames_setitem.
Qed.

Lemma frames_grad_num (h0 : list (list F)) fn arg step_size :
  frames h0 (grad_num fn arg step_size) (λ _, True).
Proof.
  unfold grad_num.
  eapply frames_bind; [apply frames_np_zeros|]. intros gradient Hg.
  eapply frames_bind; [apply frames_call1|]. intros f_old _.
  eapply frames_bind with (Q := λ _, True).
  { destruct step_size as [s|n|x|a].
    - eapply frames_bind; [apply frames_np_ones|]. intros ones _.
      eapply frames_weaken; [apply frames_scalar_mul|done].
    - apply frames_raise.
    - eapply frames_weaken; [apply frames_new|done].
    - by apply frames_ret. }
  intros step _.
  eapply frames_bind.
  { apply frames_for_each. intros i. by apply frames_grad_num_body. }
  intros _ _. eapply frames_weaken; [by apply frames_nd_reshape|done].
Qed.

Lemma frames_vjp_body (h0 : list (list F)) fn args arg_ind sh step fn_out v vjp_num ip :
  fresh h0 vjp_num →
  frames h0 (vjp_body fn args arg_ind sh step fn_out v vjp_num ip) (λ _, True).
Proof.
  intros Hg. unfold vjp_body.
  eapply frames_bind; [apply frames_lift|]. intros a _.
  eapply frames_bind; [apply frames_flatten|]. intros args_rav Hnew.
  eapply frames_bind; [apply frames_iadd_item; [done|by apply frames_ret]|]. intros _ _.
  eapply frames_bind; [by apply frames_nd_reshape|]. intros r _.
  eapply frames_bind; [apply frames_lift|]. intros args_new _.
  eapply frames_bind; [apply frames_calln|]. intros out _.
  eapply frames_bind; [apply frames_lift|]. intros d _.
  eapply frames_bind; [apply frames_lift|]. intros p _.
  by apply frames_setitem.
Qed.

Lemma frames_vjp (h0 : list (list F)) fn args arg_ind sh num_p step fn_out v :
  frames h0 (vjp fn args arg_ind sh num_p step fn_out v) (λ _, True).
Proof.
  unfold vjp.
  eapply frames_bind; [apply frames_np_zeros|]. intros vjp_num Hg.
  eapply frames_bind.
  { apply frames_for_each. intros i. by apply frames_vjp_body. }
  intros _ _. by apply frames_ret.
Qed.

End Frame.

(** ** The factory *)

Section Factory.
Context {F : Type} `{Scalar F} `{Buffering}.
Implicit Types (w : world F) (a : ndarray) (d : list F).

Lemma vjp_single_arg_run fn (arg_inds : list Z) (steps : list F) ia k step :
  arg_inds !! ia = Some k → steps !! ia = Some step →
  vjp_single_arg fn arg_inds steps ia = Ok (vjp_maker fn k steps ia).
Proof.
  intros Ek Es. unfold vjp_single_arg.
  rewrite (py_index_run arg_inds (Z.of_nat ia) ia k); [|apply norm_index_nat; by eapply lookup_lt_Some|done].
  simpl.
  rewrite (py_index_run steps (Z.of_nat ia) ia step); [|apply norm_index_nat; by eapply lookup_lt_Some|done].
  reflexivity.
Qed.

Lemma vjp_single_arg_short fn (arg_inds : list Z) (steps : list F) ia :
  ia < length arg_inds → length steps ≤ ia →
  vjp_single_arg fn arg_inds steps ia = Raise IndexError.
Proof.
  intros Hi Hs. destruct (lookup_lt_is_Some_2 arg_inds ia Hi) as [k Ek].
  unfold vjp_single_arg.
  rewrite (py_index_run arg_inds (Z.of_nat ia) ia k); [|by apply norm_index_nat|done].
  simpl. unfold py_index.
  destruct (norm_index (length steps) (Z.of_nat ia)) as [j|] eqn:E; [|done].
  apply norm_index_lt in E as Hj.
  unfold norm_index in E.
  destruct (Z.ltb_spec (Z.of_nat ia) 0); [lia|].
  destruct (Z.leb_spec 0 (Z.of_nat ia)), (Z.ltb_spec (Z.of_nat ia) (Z.of_nat (length steps)));
    simpl in E; simplify_eq; lia.
Qed.

Lemma append_makers_run fn (arg_inds : list Z) (steps : list F) n :
  ∀ j acc, j + n ≤ length arg_inds → j + n ≤ length steps →
  append_makers fn arg_inds steps (seq j n) acc
  = Ok (acc ++ imap (λ i k, vjp_maker fn k steps (j + i)) (take n (drop j arg_inds))).
Proof.
  induction n as [|n IH]; intros j acc Hi Hs; simpl.
  - by rewrite app_nil_r.
  - destruct (lookup_lt_is_Some_2 arg_inds j ltac:(lia)) as [k Ek].
    destruct (lookup_lt_is_Some_2 steps j ltac:(lia)) as [step Es].
    rewrite (vjp_single_arg_run _ _ _ _ _ _ Ek Es). simpl.
    rewrite IH by lia. f_equal.
    rewrite (drop_S _ _ _ Ek). simpl. rewrite <- app_assoc. simpl.
    rewrite Nat.add_0_r. do 2 f_equal.
    apply imap_ext. intros i x _. simpl. f_equal. lia.
Qed.

Lemma append_makers_short fn (arg_inds : list Z) (steps : list F) n :
  ∀ j acc, j + n ≤ length arg_inds → j ≤ length steps → length steps < j + n →
  append_makers fn arg_inds steps (seq j n) acc = Raise IndexError.
Proof.
  induction n as [|n IH]; intros j acc Hi Hj Hs; simpl; [lia|].
  destruct (decide (j = length steps)) as [->|Hne].
  - rewrite vjp_single_arg_short by lia. done.
  - destruct (lookup_lt_is_Some_2 arg_inds j ltac:(lia)) as [k Ek].
    destruct (lookup_lt_is_Some_2 steps j ltac:(lia)) as [step Es].
    rewrite (vjp_single_arg_run _ _ _ _ _ _ Ek Es). simpl.
    apply IH; lia.
Qed.

(** The factory looks at the lengths of its arguments only. *)
Lemma vjp_maker_num_run fn (arg_inds : list Z) (steps : list F) :
  vjp_maker_num fn arg_inds steps
  = if decide (length arg_inds ≤ length steps)
    then Ok (imap (λ ia k, vjp_maker fn k steps ia) arg_inds)
    else Raise IndexError.
Proof.
  unfold vjp_maker_num. case_decide.
  - rewrite append_makers_run by (simpl; lia). simpl.
    by rewrite drop_0, firstn_all.
  - apply append_makers_short; simpl; lia.
Qed.

Lemma vjp_maker_num_lookup fn (arg_inds : list Z) (steps : list F) makers ia mk k :
  vjp_maker_num fn arg_inds steps = Ok makers →
  makers !! ia = Some mk → arg_inds !! ia = Some k →
  mk = vjp_maker fn k steps ia ∧ length arg_inds ≤ length steps.
Proof.
  rewrite vjp_maker_num_run. case_decide; [|done]. intros [= <-] Emk Ek.
  rewrite list_lookup_imap, Ek in Emk. simpl in Emk. by simplify_eq.
Qed.

Lemma vjp_maker_run fn k (steps : list F) ia step args kk a fn_out w :
  norm_index (length args) k = Some kk → args !! kk = Some a →
  steps !! ia = Some step →
  vjp_maker fn k steps ia fn_out args w
  = (Ok (vjp fn args k (shape a) (arr_size (shape a)) step fn_out), w).
Proof.
  intros Ek Ea Es. unfold vjp_maker.
  eapply bind_ok; [apply lift_run; by eapply py_index_run|].
  eapply bind_ok; [|reflexivity].
  apply lift_run. eapply py_index_run; [|done].
  apply norm_index_nat. by eapply lookup_lt_Some.
Qed.

Lemma vjp_maker_out_of_range fn k (steps : list F) ia args fn_out w :
  norm_index (length args) k = None →
  vjp_maker fn k steps ia fn_out args w = (Raise IndexError, w).
Proof.
  intros Ek. unfold vjp_maker. apply bind_raise.
  unfold lift, py_index. by rewrite Ek.
Qed.

End Factory.

(** ** Facts of binary64 arithmetic *)

Lemma digits2_shift52 (m : positive) :
  (Z.pos (digits2_pos (4503599627370496 * m)) = Z.pos (digits2_pos m) + 52)%Z.
Proof. cbv [Pos.mul]. cbn [digits2_pos]. lia. Qed.

Lemma round_exact_shift52 s m e :
  valid_binary (S754_finite s m e) = true →
  binary_round_aux prec emax s (Z.pos (4503599627370496 * m)) (-52 + e) loc_Exact
  = S754_finite s m e.
Proof.
  unfold valid_binary, bounded, canonical_mantissa.
  intros [Hc He]%andb_true_iff. apply Z.eqb_eq in Hc.
  unfold binary_round_aux, shr_fexp. unfold Zdigits2 at 1.
  rewrite digits2_shift52.
  replace (Z.pos (digits2_pos m) + 52 + (-52 + e))%Z with (Z.pos (digits2_pos m) + e)%Z by lia.
  rewrite Hc. replace (e - (-52 + e))%Z with 52%Z by lia.
  cbv [Pos.mul].
  cbn [shr shr_record_of_loc SpecFloat.iter_pos shr_1 orb shr_m loc_of_shr_record
       round_nearest_even fst snd].
  replace (-52 + e + 52)%Z with e by lia.
  cbn [Zdigits2]. rewrite Hc, Z.sub_diag. cbn [shr shr_record_of_loc shr_m].
  by rewrite He.
Qed.

Lemma float_mul_1_l (d : float) : (1 * d)%float = d.
Proof.
  apply Prim2SF_inj. rewrite mul_spec.
  pose proof (Prim2SF_valid d) as Hv.
  change (Prim2SF 1) with (S754_finite false 4503599627370496 (-52)).
  destruct (Prim2SF d) as [s|s| |s m e]; try reflexivity.
  unfold SF64mul, SFmul. cbn [xorb]. by apply round_exact_shift52.
Qed.

Lemma float_mul_1_r (d : float) : (d * 1)%float = d.
Proof.
  apply Prim2SF_inj. rewrite mul_spec.
  pose proof (Prim2SF_valid d) as Hv.
  change (Prim2SF 1) with (S754_finite false 4503599627370496 (-52)).
  destruct (Prim2SF d) as [s|s| |s m e]; try (destruct s; reflexivity); try reflexivity.
  unfold SF64mul, SFmul. rewrite xorb_false_r, Pos.mul_comm, Z.add_comm.
  by apply round_exact_shift52.
Qed.

Lemma float_add_0_l (d : float) : same_number (0 + d)%float d.
Proof.
  unfold same_number.
  pose proof (add_spec 0 d) as E.
  change (Prim2SF 0) with (S754_zero false) in E.
  destruct (Prim2SF d) as [s|s| |s m e] eqn:Ed.
  - destruct s.
    + right. split; apply Prim2SF_inj; [by rewrite E|by rewrite Ed].
    + left. apply Prim2SF_inj. by rewrite E, Ed.
  - left. apply Prim2SF_inj. by rewrite E, Ed.
  - left. apply Prim2SF_inj. by rewrite E, Ed.
  - left. apply Prim2SF_inj. by rewrite E, Ed.
Qed.

Lemma float_add_neg_0_l (d : float) : (-0 + d)%float = d.
Proof.
  apply Prim2SF_inj. rewrite add_spec.
  change (Prim2SF (-0)) with (S754_zero true).
  by destruct (Prim2SF d) as [[]|[]| |s m e].
Qed.

(** A loop of additions that starts from [-0.] instead of [0.] ends on the
    same number, and on the same float once it is added to [0.]. *)
Lemma fold_add_from_neg_0 (a : list float) :
  (0 + fold_left fadd a (-0))%float = (0 + fold_left fadd a 0)%float.
Proof.
  assert (Hinv : ∀ x y : float, x = y ∨ (x = (-0)%float ∧ y = 0%float) →
            (0 + fold_left fadd a x)%float = (0 + fold_left fadd a y)%float).
  { induction a as [|d a IH]; intros x y Hxy.
    - destruct Hxy as [-> | [-> ->]]; [done|]. vm_compute. reflexivity.
    - simpl. apply IH. destruct Hxy as [-> | [-> ->]]; [by left|].
      rewrite float_add_neg_0_l.
      destruct (float_add_0_l d) as [E | [E ->]]; [left; by rewrite E|right].
      split; [done|]. vm_compute. reflexivity. }
  apply Hinv. by right.
Qed.

Lemma float_add_0_0_l (d : float) : same_number (0 + (0 + d))%float d.
Proof.
  destruct (float_add_0_l d) as [E | [E ->]].
  - rewrite E. apply float_add_0_l.
  - right. split; [|done]. vm_compute. reflexivity.
Qed.

Lemma float_div_zero (x s : float) : is_zero s → not_finite (x / s)%float.
Proof.
  intros Hs. unfold not_finite.
  pose proof (div_spec x s) as E.
  assert (∃ b, Prim2SF s = S754_zero b) as [b Eb]
    by (destruct Hs as [-> | ->]; [by exists false|by exists true]).
  rewrite Eb in E.
  destruct (Prim2SF x) as [sx|sx| |sx m e]; simpl in E.
  - right; right. by apply Prim2SF_inj.
  - destruct (xorb sx b); [right; left|left]; by apply Prim2SF_inj.
  - right; right. by apply Prim2SF_inj.
  - destruct (xorb sx b); [right; left|left]; by apply Prim2SF_inj.
Qed.

(** ** Exact arithmetic *)

#[global] Instance exact_arith : ExactArith Qc.
Proof.
  split; simpl; intros.
  - apply Qcplus_comm.
  - apply Qcplus_assoc.
  - apply Qcplus_0_l.
  - apply Qcmult_assoc.
  - apply Qcmult_0_r.
  - apply Qcmult_plus_distr_l.
  - apply Qcmult_plus_distr_r.
Qed.

Section Linear.
Context {F : Type} `{ExactArith F} `{Buffering}.

Lemma fadd_shuffle (a b c d : F) :
  fadd (fadd a b) (fadd c d) = fadd (fadd a c) (fadd b d).
Proof.
  rewrite <- (fadd_assoc a b), (fadd_assoc b c d), (fadd_comm b c).
  by rewrite <- (fadd_assoc c b d), (fadd_assoc a c).
Qed.

Lemma fadd_0_r (a : F) : fadd a f0 = a.
Proof. by rewrite fadd_comm, fadd_0_l. Qed.

Lemma fold_add_from (l : list F) (z : F) :
  fold_left fadd l z = fadd z (fold_left fadd l f0).
Proof.
  revert z. induction l as [|x l IH]; intros z; simpl.
  - by rewrite fadd_0_r.
  - rewrite (IH (fadd z x)), (IH (fadd f0 x)), fadd_0_l. by rewrite fadd_assoc.
Qed.

Lemma fold_add_app (l1 l2 : list F) :
  fold_left fadd (l1 ++ l2) f0 = fadd (fold_left fadd l1 f0) (fold_left fadd l2 f0).
Proof. by rewrite fold_left_app, fold_add_from. Qed.

Lemma fold_eight (x0 x1 x2 x3 x4 x5 x6 x7 : F) :
  fold_left fadd [x0; x1; x2; x3; x4; x5; x6; x7] f0
  = fadd (fadd (fadd x0 x1) (fadd x2 x3)) (fadd (fadd x4 x5) (fadd x6 x7)).
Proof. cbn [fold_left]. rewrite fadd_0_l, !fadd_assoc. done. Qed.

Lemma accumulators_add (r0 r1 r2 r3 r4 r5 r6 r7 x0 x1 x2 x3 x4 x5 x6 x7 : F) :
  fadd (fadd (fadd (fadd r0 x0) (fadd r1 x1)) (fadd (fadd r2 x2) (fadd r3 x3)))
       (fadd (fadd (fadd r4 x4) (fadd r5 x5)) (fadd (fadd r6 x6) (fadd r7 x7)))
  = fadd (fadd (fadd (fadd r0 r1) (fadd r2 r3)) (fadd (fadd r4 r5) (fadd r6 r7)))
         (fadd (fadd (fadd x0 x1) (fadd x2 x3)) (fadd (fadd x4 x5) (fadd x6 x7))).
Proof.
  rewrite (fadd_shuffle r0 x0), (fadd_shuffle r2 x2), (fadd_shuffle r4 x4),
    (fadd_shuffle r6 x6).
  rewrite (fadd_shuffle (fadd r0 r1)), (fadd_shuffle (fadd r4 r5)).
  by rewrite (fadd_shuffle (fadd (fadd r0 r1) (fadd r2 r3))).
Qed.

Lemma block_loop_exact (n : nat) :
  ∀ (a : list F) r0 r1 r2 r3 r4 r5 r6 r7, length a ≤ n →
  block_loop r0 r1 r2 r3 r4 r5 r6 r7 a
  = fadd (fadd (fadd (fadd r0 r1) (fadd r2 r3)) (fadd (fadd r4 r5) (fadd r6 r7)))
         (fold_left fadd a f0).
Proof.
  induction n as [|n IH]; intros a r0 r1 r2 r3 r4 r5 r6 r7 Hn.
  - destruct a; [|simpl in Hn; lia]. simpl. by rewrite fadd_0_r.
  - destruct a as [|x0 [|x1 [|x2 [|x3 [|x4 [|x5 [|x6 [|x7 rest]]]]]]]];
      try (cbn [block_loop]; apply fold_add_from).
    cbn [block_loop]. rewrite IH by (simpl in Hn; lia).
    change (x0 :: x1 :: x2 :: x3 :: x4 :: x5 :: x6 :: x7 :: rest)
      with ([x0; x1; x2; x3; x4; x5; x6; x7] ++ rest).
    rewrite fold_add_app, fold_eight, accumulators_add. symmetry. apply fadd_assoc.
Qed.

Lemma block_sum_exact (a : list F) : block_sum a = fold_left fadd a f0.
Proof.
  destruct a as [|x0 [|x1 [|x2 [|x3 [|x4 [|x5 [|x6 [|x7 rest]]]]]]]]; try done.
  cbn [block_sum]. rewrite (block_loop_exact (length rest)) by done.
  change (x0 :: x1 :: x2 :: x3 :: x4 :: x5 :: x6 :: x7 :: rest)
    with ([x0; x1; x2; x3; x4; x5; x6; x7] ++ rest).
  by rewrite fold_add_app, fold_eight.
Qed.

Lemma pairwise_sum_exact (fuel : nat) :
  ∀ a : list F, length a ≤ fuel → pairwise_sum fuel a = fold_left fadd a f0.
Proof.
  induction fuel as [|fuel IH]; intros a Hn.
  - destruct a; [|simpl in Hn; lia]. done.
  - cbn [pairwise_sum]. destruct (decide (length a ≤ 128)) as [Hs|Hs].
    + apply block_sum_exact.
    + pose proof (pairwise_split (length a) ltac:(lia)) as Hn2.
      rewrite !IH.
      * by rewrite <- fold_add_app, take_drop.
      * rewrite length_drop. lia.
      * rewrite length_take. lia.
Qed.

Lemma add_reduce_prefix (a : list F) (k : nat) :
  fold_left (λ out b, fadd out (pairwise_sum (length b) b))
    ((λ i, take bufsize (drop (i * bufsize) a)) <$> seq 0 k) f0
  = fold_left fadd (take (k * bufsize) a) f0.
Proof.
  induction k as [|k IH]; [done|].
  rewrite seq_S, fmap_app, fold_left_app, IH. simpl.
  rewrite pairwise_sum_exact by done.
  rewrite <- fold_add_app. f_equal.
  replace (bufsize + k * bufsize) with (k * bufsize + bufsize) by lia.
  by rewrite take_add.
Qed.

(** Without rounding [np.sum] is the sum from left to right. *)
Lemma add_reduce_exact (a : list F) : add_reduce a = fold_left fadd a f0.
Proof.
  unfold add_reduce, buffers. rewrite add_reduce_prefix.
  by rewrite take_ge by apply buffers_cover.
Qed.

Lemma fold_dot_add (d : list F) :
  ∀ (v1 v2 : list F) (a1 a2 : F), length v1 = length v2 →
  fold_left fadd (zip_with fmul (zip_with fadd v1 v2) d) (fadd a1 a2)
  = fadd (fold_left fadd (zip_with fmul v1 d) a1) (fold_left fadd (zip_with fmul v2 d) a2).
Proof.
  induction d as [|y d IH]; intros v1 v2 a1 a2 Hl.
  - by rewrite !zip_with_nil_r.
  - destruct v1 as [|x1 v1], v2 as [|x2 v2]; simplify_eq/=; [done|].
    rewrite <- IH by done. f_equal.
    by rewrite fmul_add_distr_r, fadd_shuffle.
Qed.

Lemma dot_add (v1 v2 d : list F) :
  length v1 = length v2 →
  dot (zip_with fadd v1 v2) d = fadd (dot v1 d) (dot v2 d).
Proof.
  intros Hl. unfold dot. rewrite <- fold_dot_add by done. by rewrite fadd_0_l.
Qed.

Lemma fold_dot_scale (c : F) (d : list F) :
  ∀ (v : list F) (a : F),
  fold_left fadd (zip_with fmul (fmul c <$> v) d) (fmul c a)
  = fmul c (fold_left fadd (zip_with fmul v d) a).
Proof.
  induction d as [|y d IH]; intros v a.
  - by rewrite !zip_with_nil_r.
  - destruct v as [|x v]; simpl; [done|].
    rewrite <- IH. f_equal. by rewrite fmul_add_distr_l, fmul_assoc.
Qed.

Lemma dot_scale (c : F) (v d : list F) :
  dot (fmul c <$> v) d = fmul c (dot v d).
Proof. unfold dot. rewrite <- fold_dot_scale. by rewrite fmul_0_r. Qed.

Lemma np_dot_exact (v d : list F) : np_dot v d = dot v d.
Proof. apply add_reduce_exact. Qed.

Lemma np_dot_add (v1 v2 d : list F) :
  length v1 = length v2 →
  np_dot (zip_with fadd v1 v2) d = fadd (np_dot v1 d) (np_dot v2 d).
Proof. intros Hl. rewrite !np_dot_exact. by apply dot_add. Qed.

Lemma np_dot_scale (c : F) (v d : list F) :
  np_dot (fmul c <$> v) d = fmul c (np_dot v d).
Proof. rewrite !np_dot_exact. apply dot_scale. Qed.

End Linear.

(** ** Infinities and NaN absorb *)

Lemma not_finite_spec (x : float) :
  not_finite x ↔ Prim2SF x = S754_nan ∨ ∃ s, Prim2SF x = S754_infinity s.
Proof.
  unfold not_finite. split.
  - intros [-> | [-> | ->]]; [right; by exists false|right; by exists true|by left].
  - intros [E | [[] E]].
    + right; right. by apply Prim2SF_inj.
    + right; left. by apply Prim2SF_inj.
    + left. by apply Prim2SF_inj.
Qed.

Lemma float_mul_not_finite (x d : float) : not_finite d → not_finite (x * d)%float.
Proof.
  rewrite !not_finite_spec, mul_spec. unfold SF64mul.
  intros [-> | [s ->]]; destruct (Prim2SF x) as [sx|sx| |sx m e]; simpl; eauto.
Qed.

Lemma float_add_not_finite_l (a b : float) : not_finite a → not_finite (a + b)%float.
Proof.
  rewrite !not_finite_spec, add_spec. unfold SF64add.
  intros [-> | [s ->]]; destruct (Prim2SF b) as [sb|sb| |sb m e]; simpl; eauto;
    destruct s, sb; eauto.
Qed.

Lemma float_add_not_finite_r (a b : float) : not_finite b → not_finite (a + b)%float.
Proof.
  rewrite !not_finite_spec, add_spec. unfold SF64add.
  intros [-> | [s ->]]; destruct (Prim2SF a) as [sa|sa| |sa m e]; simpl; eauto;
    destruct s, sa; eauto.
Qed.

Lemma fold_add_not_finite (l : list float) :
  ∀ a, not_finite a → not_finite (fold_left fadd l a).
Proof.
  induction l as [|x l IH]; intros a Ha; [done|]. simpl.
  apply IH. by apply float_add_not_finite_l.
Qed.

Lemma fold_cons_not_finite (x : float) (l : list float) :
  not_finite x → not_finite (fold_left fadd (x :: l) f0).
Proof. intros Hx. simpl. by apply fold_add_not_finite, float_add_not_finite_r. Qed.

Lemma tree_not_finite (r0 r1 r2 r3 r4 r5 r6 r7 : float) :
  not_finite r0 →
  not_finite (fadd (fadd (fadd r0 r1) (fadd r2 r3)) (fadd (fadd r4 r5) (fadd r6 r7))).
Proof. intros Hr. by do 3 apply float_add_not_finite_l. Qed.

Lemma block_loop_not_finite (n : nat) :
  ∀ (a : list float) r0 r1 r2 r3 r4 r5 r6 r7, length a ≤ n → not_finite r0 →
  not_finite (block_loop r0 r1 r2 r3 r4 r5 r6 r7 a).
Proof.
  induction n as [|n IH]; intros a r0 r1 r2 r3 r4 r5 r6 r7 Hn Hr.
  - destruct a; [|simpl in Hn; lia]. by apply tree_not_finite.
  - destruct a as [|x0 [|x1 [|x2 [|x3 [|x4 [|x5 [|x6 [|x7 rest]]]]]]]];
      try (cbn [block_loop]; by apply fold_add_not_finite, tree_not_finite).
    cbn [block_loop]. apply IH; [simpl in Hn; lia|]. by apply float_add_not_finite_l.
Qed.

Lemma block_sum_not_finite (a : list float) :
  a ≠ [] → Forall not_finite a → not_finite (block_sum a).
Proof.
  intros Ha Hall. destruct a as [|x0 a]; [done|].
  assert (Hx : not_finite x0) by by inversion Hall.
  destruct a as [|x1 [|x2 [|x3 [|x4 [|x5 [|x6 [|x7 rest]]]]]]];
    try (cbn [block_sum]; by apply fold_cons_not_finite).
  cbn [block_sum]. by apply (block_loop_not_finite (length rest)).
Qed.

Lemma pairwise_sum_not_finite (fuel : nat) :
  ∀ a : list float, length a ≤ fuel → a ≠ [] → Forall not_finite a →
  not_finite (pairwise_sum fuel a).
Proof.
  induction fuel as [|fuel IH]; intros a Hn Ha Hall.
  - destruct a; [done|simpl in Hn; lia].
  - cbn [pairwise_sum]. destruct (decide (length a ≤ 128)) as [Hs|Hs].
    + by apply block_sum_not_finite.
    + pose proof (pairwise_split (length a) ltac:(lia)) as Hn2.
      apply float_add_not_finite_l, IH.
      * rewrite length_take. lia.
      * intros E. apply (f_equal length) in E. rewrite length_take in E.
        cbn [length] in E. lia.
      * by apply Forall_take.
Qed.

Lemma fold_buffers_not_finite (g : list float → float) (l : list (list float)) :
  ∀ out, not_finite out → not_finite (fold_left (λ out b, fadd out (g b)) l out).
Proof.
  induction l as [|b l IH]; intros out Hout; [done|]. simpl.
  apply IH. by apply float_add_not_finite_l.
Qed.

(** A sum of infinities and NaNs is an infinity or NaN, in whatever order
    the entries are added. *)
Lemma add_reduce_not_finite `{Buffering} (a : list float) :
  a ≠ [] → Forall not_finite a → not_finite (add_reduce a).
Proof.
  intros Ha Hall. unfold add_reduce, buffers.
  pose proof (buffers_cover a) as Hc. pose proof bufsize_pos as Hb.
  destruct ((length a + bufsize - 1) / bufsize) as [|k].
  { destruct a; [done|simpl in Hc; lia]. }
  cbn [seq fmap list_fmap fold_left]. rewrite drop_0.
  apply fold_buffers_not_finite, float_add_not_finite_r, pairwise_sum_not_finite.
  - done.
  - destruct a; [done|]. destruct bufsize; [lia|done].
  - by apply Forall_take.
Qed.

Lemma np_dot_not_finite `{Buffering} (v d : list float) :
  length v = length d → 0 < length d → Forall not_finite d → not_finite (np_dot v d).
Proof.
  intros Hl Hpos Hd. unfold np_dot. apply add_reduce_not_finite.
  - destruct d; [simpl in Hpos; lia|]. by destruct v.
  - clear Hl Hpos. revert v. induction Hd as [|y d Hy _ IH]; intros [|x v]; simpl; try done.
    constructor; [by apply float_mul_not_finite|apply IH].
Qed.

Lemma fd_partial_zero_step (fn : list (tensor float) → tensor float) fn_out ts k p step :
  is_zero step → Forall not_finite (fd_partial fn fn_out ts k p step).
Proof.
  intros Hs. unfold fd_partial. apply Forall_fmap, Forall_forall.
  intros y _. simpl. by apply float_div_zero.
Qed.

(** ** Generators and scalars *)

Lemma generator_run {F : Type} `{Scalar F} `{Buffering}
    (fn : list (tensor F) → tensor F) (arg_inds : list Z) (steps : list F)
    (makers : list (vjp_maker_t F)) (ia : nat) (mk : vjp_maker_t F) (k : Z) (step : F)
    (args : list ndarray) (kk : nat) (a : ndarray) (fn_out : tensor F) (w : world F) :
  vjp_maker_num fn arg_inds steps = Ok makers →
  makers !! ia = Some mk → arg_inds !! ia = Some k → steps !! ia = Some step →
  norm_index (length args) k = Some kk → args !! kk = Some a →
  mk fn_out args w = (Ok (vjp fn args k (shape a) (arr_size (shape a)) step fn_out), w).
Proof.
  intros Emk Ei Ek Es En Ea.
  destruct (vjp_maker_num_lookup fn arg_inds steps makers ia mk k Emk Ei Ek) as [-> _].
  by eapply vjp_maker_run.
Qed.

Lemma scalar_tensor {F : Type} `{Scalar F} (t : tensor F) :
  t_shape t = [] → well_formed t → t = Tensor [] [item t].
Proof.
  destruct t as [sh d]. unfold well_formed, item. simpl. intros -> Hd.
  destruct d as [|y [|z d]]; simplify_eq/=. done.
Qed.


(** * The claims *)

(** C1 (the code departs from the claim).  [jacobian_forward] never returns
    a Jacobian: its body names the function [fun] although the parameter is
    called [fn], so for every engine, function and point the call raises
    [NameError: name 'fun' is not defined] before the engine is reached. *)
Theorem jacobian_forward_raises_name_error {F : Type} `{Scalar F}
    (make_vjp : (tensor F → tensor F) → tensor F → result (pullback * tensor F))
    (fn : tensor F → tensor F) (x : tensor F) :
  jacobian_forward make_vjp fn x = Raise (NameError "fun").
Proof. reflexivity. Qed.

(** The same through the decorator: whatever the position [argnum] and the
    arguments, no Jacobian comes back. *)
Lemma jacobian_forward_nary_never_returns {F : Type} `{Scalar F}
    (make_vjp : (tensor F → tensor F) → tensor F → result (pullback * tensor F))
    (fn : list (tensor F) → tensor F) (argnum : Z) (args : list (tensor F)) (J : tensor F) :
  jacobian_forward_nary make_vjp fn argnum args ≠ Ok J.
Proof.
  unfold jacobian_forward_nary. destruct (py_index args argnum) as [x|e]; simpl; [|done].
  change (Raise (NameError "fun") ≠ Ok J). done.
Qed.

(** For the linear map [x ↦ A x] the claim expects [A]; the code raises. *)
Example jacobian_forward_linear_map :
  jacobian_forward Sample.linear_engine Sample.linear_map (Tensor [2] [1; 1]%float)
  = Raise (NameError "fun").
Proof. reflexivity. Qed.

(** C2 (the code departs from the claim).  The docstring lets [step_size]
    be a number, and the claim covers every scalar step; the code accepts
    a Python [float] only.  On [[1, 2], [3, 4]] with [f(x) = sum of x_i^2],
    the step [1.0] gives the forward differences [[3, 5], [7, 9]]; the same
    step given as the [int] [1] raises [AttributeError] (an [int] has no
    [ravel]), and given as the NumPy scalar [np.float64(1.0)] it raises
    [IndexError] at [step[1]]. *)
Theorem grad_num_number_step_raises :
  let r := λ step_size, grad_num Sample.sum_squares Sample.arg22 step_size Sample.w22 in
  (r (PyFloat 1%float)).1 = Ok (NdArray 1 [2; 2]) ∧
  heap (r (PyFloat 1%float)).2 !! 1 = Some [3; 5; 7; 9]%float ∧
  (r (PyInt 1)).1 = Raise (AttributeError "ravel") ∧
  (r (NpFloat64 1%float)).1 = Raise IndexError.
Proof. repeat split; vm_compute; reflexivity. Qed.

(** X24.  For [arg] of shape [S] with [N] entries and a [step_size] that is
    a Python float or an array with at least [N] entries, [grad_num] returns
    an array of shape [S] whose entry [i] is
    [(fn(arg with flat entry i incremented by step[i]) - fn(arg)) / step[i]].
    [fn] is called [N + 1] times: once on [arg], then once per index on a
    perturbed array of shape [S]; every array that existed before the call
    (so [arg] too) keeps its entries, the perturbations being made on
    copies. *)
Theorem grad_num_forward_difference {F : Type} `{Scalar F}
    (fn : tensor F → F) (arg : ndarray) (step_size : pyval F) (w : world F)
    (A St : list F) :
  heap w !! buf arg = Some A → length A = arr_size (shape arg) →
  step_of w (arr_size (shape arg)) step_size = Some St →
  arr_size (shape arg) ≤ length St →
  ∃ g w' G,
    grad_num fn arg step_size w = (Ok g, w') ∧
    shape g = shape arg ∧
    heap w' !! buf g = Some G ∧ length G = arr_size (shape arg) ∧
    (∀ i s, i < arr_size (shape arg) → St !! i = Some s →
       G !! i = Some (fdiv (fsub (fn (perturb (value w arg) i s)) (fn (value w arg))) s)) ∧
    calls w' = calls w ++ [value w arg]
                 :: imap (λ i s, [perturb (value w arg) i s]) (take (arr_size (shape arg)) St) ∧
    (∀ a, buf a < length (heap w) → value w' a = value w a).
Proof.
  intros Ea HA Est HSt. rewrite <- HA in Est, HSt.
  destruct (grad_num_run fn arg step_size w A St) as (w' & G & E & EG & HG & HGi & Ec & Hp);
    try done.
  assert (Ev : value w arg = Tensor (shape arg) A).
  { unfold value. by rewrite (buffer_lookup _ _ _ Ea). }
  exists (NdArray (length (heap w)) (shape arg)), w', G. rewrite Ev, <- HA.
  repeat split; try done.
  intros a Ha. by apply prefix_value.
Qed.

Lemma grad_num_forward_difference_witness :
  ∃ g w' G,
    grad_num Sample.sum_squares Sample.arg22 (PyFloat 0.5%float) Sample.w22 = (Ok g, w') ∧
    shape g = shape Sample.arg22 ∧
    heap w' !! buf g = Some G ∧ length G = arr_size (shape Sample.arg22) ∧
    (∀ i s, i < arr_size (shape Sample.arg22) → replicate 4 (0.5 * 1)%float !! i = Some s →
       G !! i = Some (fdiv (fsub (Sample.sum_squares (perturb (value Sample.w22 Sample.arg22) i s))
                                 (Sample.sum_squares (value Sample.w22 Sample.arg22))) s)) ∧
    calls w' = calls Sample.w22 ++ [value Sample.w22 Sample.arg22]
                 :: imap (λ i s, [perturb (value Sample.w22 Sample.arg22) i s])
                      (take (arr_size (shape Sample.arg22)) (replicate 4 (0.5 * 1)%float)) ∧
    (∀ a, buf a < length (heap Sample.w22) → value w' a = value Sample.w22 a).
Proof.
  apply (grad_num_forward_difference Sample.sum_squares Sample.arg22 (PyFloat 0.5%float)
           Sample.w22 [1; 2; 3; 4]%float (replicate 4 (0.5 * 1)%float)).
  - reflexivity.
  - reflexivity.
  - reflexivity.
  - simpl. lia.
Defined.

(** On [[1, 2], [3, 4]] with [f(x) = sum of x_i^2] and step 0.5, where all
    the arithmetic is exact: the forward differences [2 x_i + 0.5]. *)
Example grad_num_sum_squares :
  let r := grad_num Sample.sum_squares Sample.arg22 (PyFloat 0.5%float) Sample.w22 in
  r.1 = Ok (NdArray 1 [2; 2]) ∧ heap r.2 !! 1 = Some [2.5; 4.5; 6.5; 8.5]%float.
Proof. split; vm_compute; reflexivity. Qed.



(** The order of [np.sum] shows in binary64: the eight entries
    [2^53, 1, ..., 1] add up to [2^53 + 6], where adding them from left to
    right stays at [2^53]. *)
Example np_sum_eight_entries :
  np_sum (Tensor [8] (Sample.two53 :: replicate 7 1%float)) = 9007199254740998%float ∧
  fold_left fadd (Sample.two53 :: replicate 7 1%float) 0%float = Sample.two53.
Proof. split; vm_compute; reflexivity. Qed.

(** So it does in a closure: for [fn(a) = [a_0, ..., a_0]] with eight
    outputs, at [a = [0]] with step 1, the cotangent [[2^53, 1, ..., 1]]
    gives the gradient [[2^53 + 6]]. *)
Example vjp_eight_outputs :
  let r := vjp Sample.eightfold [NdArray 0 [1]] 0 [1] 1 1%float
             (Tensor [8] (replicate 8 0%float))
             (Tensor [8] (Sample.two53 :: replicate 7 1%float)) Sample.w_one in
  r.1 = Ok (NdArray 1 [1]) ∧ heap r.2 !! 1 = Some [9007199254740998%float].
Proof. split; vm_compute; reflexivity. Qed.

(** C4 (the code departs from the claim).  The closure returns [vjp_num] as
    it was allocated, a one-dimensional array of [num_p] entries: for the
    2 x 2 argument [[1, 2], [3, 4]] the gradient has shape [(4,)], not
    [(2, 2)].  [grad_num] reshapes its result; this path does not. *)
Theorem vjp_gradient_is_flat :
  let mk := vjp_maker Sample.sum_squares_nd 0 [0.5%float] 0 in
  let vjp_fn := vjp Sample.sum_squares_nd [Sample.arg22] 0 [2; 2] 4 0.5%float
                  (Tensor [] [30%float]) in
  vjp_maker_num Sample.sum_squares_nd [0%Z] [0.5%float] = Ok [mk] ∧
  mk (Tensor [] [30%float]) [Sample.arg22] Sample.w22 = (Ok vjp_fn, Sample.w22) ∧
  shape Sample.arg22 = [2; 2] ∧
  (vjp_fn (Tensor [] [1%float]) Sample.w22).1 = Ok (NdArray 1 [4]) ∧
  heap (vjp_fn (Tensor [] [1%float]) Sample.w22).2 !! 1 = Some [2.5; 4.5; 6.5; 8.5]%float.
Proof. repeat split; vm_compute; reflexivity. Qed.

(** The shape is flat for every argument, whatever its shape. *)
Lemma vjp_returns_flat_array {F : Type} `{Scalar F} `{Buffering}
    (fn : list (tensor F) → tensor F) (args : list ndarray) (arg_ind : Z) (sh : list nat)
    (num_p : nat) (step : F) (fn_out v : tensor F) (w : world F) (g : ndarray) (w' : world F) :
  vjp fn args arg_ind sh num_p step fn_out v w = (Ok g, w') → shape g = [num_p].
Proof.
  unfold vjp. rewrite (bind_ok _ _ _ _ _ _ (np_zeros_run num_p w) eq_refl).
  unfold mbind, M_bind.
  destruct (for_range _ _ _) as [[[]|e] w1]; [|done].
  by intros [= <- _].
Qed.

(** C5, as the code has it.  No step is rejected and no division raises.
    With steps whose entry [i] is zero, [grad_num] returns normally and
    entry [i] of the gradient is the binary64 quotient by zero: an infinity
    or NaN.  With a zero configured step, a [vjp] closure on an output
    with at least one entry returns normally as well, and every slot of its
    gradient is an infinity or NaN. *)
Theorem zero_step_is_not_rejected `{Buffering} :
  (∀ (fn : tensor float → float) arg step_size (w : world float) A St,
     heap w !! buf arg = Some A → length A = arr_size (shape arg) →
     step_of w (arr_size (shape arg)) step_size = Some St →
     arr_size (shape arg) ≤ length St →
     ∃ g w' G,
       grad_num fn arg step_size w = (Ok g, w') ∧ heap w' !! buf g = Some G ∧
       ∀ i s, i < arr_size (shape arg) → St !! i = Some s → is_zero s →
              ∃ q, G !! i = Some q ∧ not_finite q) ∧
  (∀ (fn : list (tensor float) → tensor float) arg_inds steps makers ia mk k step
     args kk a A fn_out v (w : world float),
     vjp_maker_num fn arg_inds steps = Ok makers →
     makers !! ia = Some mk → arg_inds !! ia = Some k → steps !! ia = Some step →
     norm_index (length args) k = Some kk → args !! kk = Some a →
     heap w !! buf a = Some A → length A = arr_size (shape a) →
     Forall (λ a', buf a' < length (heap w)) args →
     (∀ p, p < arr_size (shape a) →
           t_shape (fn (perturb_arg (value w <$> args) kk p step)) = t_shape fn_out ∧
           well_formed (fn (perturb_arg (value w <$> args) kk p step))) →
     well_formed fn_out → t_shape v = t_shape fn_out → well_formed v →
     is_zero step → 0 < arr_size (t_shape fn_out) →
     ∃ vjp_fn g w' G,
       mk fn_out args w = (Ok vjp_fn, w) ∧ vjp_fn v w = (Ok g, w') ∧
       heap w' !! buf g = Some G ∧ length G = arr_size (shape a) ∧
       Forall not_finite G).
Proof.
  split.
  - intros fn arg step_size w A St Ea HA Est HSt.
    rewrite <- HA in Est, HSt.
    destruct (grad_num_run fn arg step_size w A St)
      as (w' & G & E & EG & _ & HGi & _); try done.
    eexists _, w', G. split; [exact E|]. split; [done|].
    intros i s Hi Es Hz. eexists. split; [apply HGi; [lia|done]|].
    by apply float_div_zero.
  - intros fn arg_inds steps makers ia mk k step args kk a A fn_out v w
      Emk Ei Ek Es En Ea EA HA Hargs Hfn Hout Hv Hvwf Hz Hpos.
    pose proof (generator_run fn arg_inds steps makers ia mk k step args kk a fn_out w
                  Emk Ei Ek Es En Ea) as E1.
    rewrite <- HA in Hfn.
    destruct (vjp_run fn args k kk a A step fn_out v w)
      as (w' & G & E2 & EG & HG & HGp & _); try done.
    eexists _, _, w', G. split; [exact E1|]. split; [exact E2|].
    split; [done|]. split; [by rewrite HG|].
    apply Forall_lookup. intros p q Ep.
    pose proof (lookup_lt_Some _ _ _ Ep) as Hp. rewrite HG in Hp.
    rewrite (HGp p Hp) in Ep. simplify_eq.
    destruct (Hfn p Hp) as [Hsh Hwf].
    apply np_dot_not_finite; [| |by apply fd_partial_zero_step].
    + unfold fd_partial. rewrite length_fmap, length_zip_with.
      unfold well_formed in *. rewrite Hvwf, Hwf, Hout, Hv, Hsh. lia.
    + unfold fd_partial. rewrite length_fmap, length_zip_with.
      unfold well_formed in *. rewrite Hwf, Hout, Hsh. lia.
Qed.

Lemma zero_step_is_not_rejected_witness :
  ∃ g w' G,
    grad_num Sample.sum_squares Sample.arg22 (PyFloat 0%float) Sample.w22 = (Ok g, w') ∧
    heap w' !! buf g = Some G ∧
    ∀ i s, i < arr_size (shape Sample.arg22) → replicate 4 (0 * 1)%float !! i = Some s →
           is_zero s → ∃ q, G !! i = Some q ∧ not_finite q.
Proof.
  apply (proj1 zero_step_is_not_rejected Sample.sum_squares Sample.arg22 (PyFloat 0%float)
           Sample.w22 [1; 2; 3; 4]%float (replicate 4 (0 * 1)%float)).
  - reflexivity.
  - reflexivity.
  - reflexivity.
  - simpl. lia.
Defined.

(** C5, as stated, fails: with [step_size = 0.0] the call returns, and the
    gradient holds NaN in every entry; so does the gradient of a [vjp]
    closure configured with a zero step. *)
Lemma zero_step_returns_nan :
  let r := grad_num Sample.sum_squares Sample.arg22 (PyFloat 0%float) Sample.w22 in
  let r' := vjp Sample.product Sample.args_ab 0 [2] 2 0%float Sample.out_ab
              (Tensor [2] [1; 1]%float) Sample.w_ab in
  r.1 = Ok (NdArray 1 [2; 2]) ∧ heap r.2 !! 1 = Some [nan; nan; nan; nan] ∧
  r'.1 = Ok (NdArray 2 [2]) ∧ heap r'.2 !! 2 = Some [nan; nan].
Proof. repeat split; vm_compute; reflexivity. Qed.

(** C6, as the code has it.  [vjp_maker_num] never looks at the values in
    [arg_inds] nor at the arity of [fn]: given at least as many steps as
    indices it returns one generator per index, in order.  An index out of
    the range of the positional arguments is reported ([IndexError]) when
    the generator is invoked with [(fn_out, args)]. *)
Theorem vjp_maker_num_checks_index_on_invocation {F : Type} `{Scalar F} `{Buffering}
    (fn : list (tensor F) → tensor F) (arg_inds : list Z) (steps : list F) :
  length arg_inds ≤ length steps →
  ∃ makers,
    vjp_maker_num fn arg_inds steps = Ok makers ∧
    length makers = length arg_inds ∧
    ∀ ia mk k fn_out args w,
      makers !! ia = Some mk → arg_inds !! ia = Some k →
      norm_index (length args) k = None →
      mk fn_out args w = (Raise IndexError, w).
Proof.
  intros Hlen. eexists. rewrite vjp_maker_num_run, decide_True by done.
  split; [done|]. split; [by rewrite length_imap|].
  intros ia mk k fn_out args w Emk Ek En.
  rewrite list_lookup_imap, Ek in Emk. simpl in Emk. simplify_eq.
  by apply vjp_maker_out_of_range.
Qed.

Lemma vjp_maker_num_checks_index_on_invocation_witness :
  ∃ makers,
    vjp_maker_num Sample.product [7%Z] [0.5%float] = Ok makers ∧
    length makers = length [7%Z] ∧
    ∀ ia mk k fn_out args w,
      makers !! ia = Some mk → [7%Z] !! ia = Some k →
      norm_index (length args) k = None →
      mk fn_out args w = (Raise IndexError, w).
Proof.
  apply (vjp_maker_num_checks_index_on_invocation Sample.product [7%Z] [0.5%float]).
  simpl. lia.
Defined.

(** C6, as stated, fails: position 7 of a function of two arguments is
    accepted by the factory; the error comes from the generator. *)
Lemma vjp_maker_num_accepts_bad_index :
  let mk := vjp_maker Sample.product 7 [0.5%float] 0 in
  vjp_maker_num Sample.product [7%Z] [0.5%float] = Ok [mk] ∧
  mk Sample.out_ab Sample.args_ab Sample.w_ab = (Raise IndexError, Sample.w_ab).
Proof. split; reflexivity. Qed.

(** C7.  For [fn] with a zero-dimensional output, the gradient that the
    closure of [vjp_maker_num] returns for the cotangent [1] and the
    recorded output [fn(args)], and the gradient that [grad_num] returns
    for [fn] as a function of the targeted argument with the same Python
    float step, agree entry by entry as binary64 numbers: the entries are
    identical, except that the sum in the closure turns a quotient [-0.0]
    into [+0.0]. *)
Theorem vjp_agrees_with_grad_num `{Buffering}
    (fn : list (tensor float) → tensor float) (arg_inds : list Z) (steps : list float)
    (makers : list (vjp_maker_t float)) (ia : nat) (mk : vjp_maker_t float) (k : Z)
    (step : float) (args : list ndarray) (kk : nat) (a : ndarray) (A : list float)
    (w : world float) :
  vjp_maker_num fn arg_inds steps = Ok makers →
  makers !! ia = Some mk → arg_inds !! ia = Some k → steps !! ia = Some step →
  norm_index (length args) k = Some kk → args !! kk = Some a →
  heap w !! buf a = Some A → length A = arr_size (shape a) →
  Forall (λ a', buf a' < length (heap w)) args →
  (∀ ts, t_shape (fn ts) = [] ∧ well_formed (fn ts)) →
  ∃ vjp_fn G1 G2,
    mk (fn (value w <$> args)) args w = (Ok vjp_fn, w) ∧
    returns_array (vjp_fn (Tensor [] [1%float])) w G1 ∧
    returns_array
      (grad_num (λ t, item (fn (<[kk := t]> (value w <$> args)))) a (PyFloat step)) w G2 ∧
    Forall2 same_number G1 G2.
Proof.
  intros Emk Ei Ek Es En Ea EA HA Hargs Hscalar.
  set (ts := value w <$> args).
  set (fn1 := λ t, item (fn (<[kk := t]> ts))).
  pose proof (generator_run fn arg_inds steps makers ia mk k step args kk a (fn ts) w
                Emk Ei Ek Es En Ea) as E1.
  destruct (vjp_run fn args k kk a A step (fn ts) (Tensor [] [1%float]) w)
    as (w1 & G1 & E2 & EG1 & HG1 & HG1p & _); try done.
  { intros p _. split; [|apply Hscalar].
    by rewrite (proj1 (Hscalar _)), (proj1 (Hscalar ts)). }
  { apply Hscalar. }
  { by rewrite (proj1 (Hscalar ts)). }
  destruct (grad_num_run fn1 a (PyFloat step) w A (replicate (length A) (step * 1)%float))
    as (w2 & G2 & E3 & EG2 & HG2 & HG2p & _); try done.
  { by rewrite length_replicate. }
  exists (vjp fn args k (shape a) (arr_size (shape a)) step (fn ts)), G1, G2.
  split; [exact E1|]. split; [by eexists _, _|]. split; [by eexists _, _|].
  apply Forall2_same_length_lookup. split; [congruence|].
  intros p x y Ex Ey.
  pose proof (lookup_lt_Some _ _ _ Ex) as Hp. rewrite HG1 in Hp.
  rewrite (HG1p p Hp) in Ex.
  rewrite (HG2p p step Hp) in Ey
    by (rewrite lookup_replicate; split; [symmetry; apply float_mul_1_r|done]).
  simplify_eq.
  assert (Ets : ts !! kk = Some (Tensor (shape a) A)).
  { unfold ts. rewrite list_lookup_fmap, Ea. simpl. unfold value.
    by rewrite (buffer_lookup _ _ _ EA). }
  assert (Epa : perturb_arg ts kk p step
                = <[kk := perturb (Tensor (shape a) A) p step]> ts).
  { unfold perturb_arg. by apply (alter_as_insert (λ t, perturb t p step)). }
  destruct (Hscalar (perturb_arg ts kk p step)) as [Hs1 Hw1].
  destruct (Hscalar ts) as [Hs0 Hw0].
  pose proof (scalar_tensor _ Hs1 Hw1) as T1.
  pose proof (scalar_tensor _ Hs0 Hw0) as T0.
  unfold np_dot, fd_partial, fd_quotient, fn1. fold ts.
  rewrite (list_insert_id _ _ _ Ets), <- Epa.
  set (y1 := item (fn (perturb_arg ts kk p step))) in *.
  set (y0 := item (fn ts)) in *.
  clearbody y1 y0. rewrite T1, T0. cbn [t_data zip_with fmap list_fmap].
  rewrite add_reduce_single. simpl.
  rewrite float_mul_1_l. apply float_add_0_0_l.
Qed.

Lemma vjp_agrees_with_grad_num_witness :
  ∃ vjp_fn G1 G2,
    vjp_maker Sample.sum_squares_nd 0 [0.5%float] 0
      (Sample.sum_squares_nd (value Sample.w22 <$> [Sample.arg22])) [Sample.arg22] Sample.w22
      = (Ok vjp_fn, Sample.w22) ∧
    returns_array (vjp_fn (Tensor [] [1%float])) Sample.w22 G1 ∧
    returns_array
      (grad_num (λ t, item (Sample.sum_squares_nd
                              (<[0 := t]> (value Sample.w22 <$> [Sample.arg22]))))
         Sample.arg22 (PyFloat 0.5%float)) Sample.w22 G2 ∧
    Forall2 same_number G1 G2.
Proof.
  apply (vjp_agrees_with_grad_num Sample.sum_squares_nd [0%Z] [0.5%float]
           [vjp_maker Sample.sum_squares_nd 0 [0.5%float] 0] 0
           (vjp_maker Sample.sum_squares_nd 0 [0.5%float] 0) 0%Z 0.5%float
           [Sample.arg22] 0 Sample.arg22 [1; 2; 3; 4]%float Sample.w22).
  - reflexivity.
  - reflexivity.
  - reflexivity.
  - reflexivity.
  - reflexivity.
  - reflexivity.
  - reflexivity.
  - reflexivity.
  - repeat constructor.
  - intros ts. split; reflexivity.
Defined.

(** On the 2 x 2 sample both gradients are [2.5, 4.5, 6.5, 8.5]. *)
Example vjp_and_grad_num_sum_squares :
  heap (vjp Sample.sum_squares_nd [Sample.arg22] 0 [2; 2] 4 0.5%float (Tensor [] [30%float])
          (Tensor [] [1%float]) Sample.w22).2 !! 1
  = heap (grad_num Sample.sum_squares Sample.arg22 (PyFloat 0.5%float) Sample.w22).2 !! 1.
Proof. vm_compute. reflexivity. Qed.

(** C8.  Whatever its outcome, a call to [grad_num] and a call to a [vjp]
    closure leave every array that existed before the call with the
    entries it had: the only buffers written are those the call allocates.
    The closures that the generators of [vjp_maker_num] return are [vjp]
    closures, and invoking a generator changes nothing. *)
Theorem inputs_are_not_modified {F : Type} `{Scalar F} `{Buffering} :
  (∀ (fn : tensor F → F) arg step_size (w : world F) a,
     buf a < length (heap w) → value (grad_num fn arg step_size w).2 a = value w a) ∧
  (∀ (fn : list (tensor F) → tensor F) args arg_ind sh num_p step fn_out v (w : world F) a,
     buf a < length (heap w) →
     value (vjp fn args arg_ind sh num_p step fn_out v w).2 a = value w a) ∧
  (∀ (fn : list (tensor F) → tensor F) arg_inds steps makers mk fn_out args
     (w w1 : world F) vjp_fn,
     vjp_maker_num fn arg_inds steps = Ok makers → mk ∈ makers →
     mk fn_out args w = (Ok vjp_fn, w1) →
     w1 = w ∧ ∃ arg_ind sh num_p step,
               vjp_fn = vjp fn args arg_ind sh num_p step fn_out).
Proof.
  split; [|split].
  - intros fn arg step_size w a Ha. apply prefix_value; [|done].
    by apply (frames_grad_num (heap w) fn arg step_size w).
  - intros fn args arg_ind sh num_p step fn_out v w a Ha. apply prefix_value; [|done].
    by apply (frames_vjp (heap w) fn args arg_ind sh num_p step fn_out v w).
  - intros fn arg_inds steps makers mk fn_out args w w1 vjp_fn Emk Hin Erun.
    rewrite vjp_maker_num_run in Emk. case_decide; [|done]. simplify_eq.
    apply list_elem_of_lookup in Hin as [ia Eia].
    rewrite list_lookup_imap in Eia.
    destruct (arg_inds !! ia) as [k|]; simplify_eq/=.
    unfold vjp_maker, mbind, M_bind, lift in Erun.
    destruct (py_index args k) as [a|e]; [|done].
    destruct (py_index steps (Z.of_nat ia)) as [step|e]; [|done].
    cbv [mret M_ret] in Erun. injection Erun as <- <-. eauto 10.
Qed.

Lemma inputs_are_not_modified_witness :
  value (grad_num Sample.sum_squares Sample.arg22 (PyFloat 0.5%float) Sample.w22).2
    Sample.arg22
  = value Sample.w22 Sample.arg22.
Proof.
  apply (proj1 (@inputs_are_not_modified float float64 default_buffering)). simpl. lia.
Defined.

(** C9, as the code has it.  Slot [p] of the gradient is the dot product of
    the cotangent with a partial that does not depend on the cotangent, so
    over exact arithmetic (addition associative and commutative,
    multiplication associative and distributing over addition), where the
    order in which [np.sum] adds does not matter, the closure is additive
    and homogeneous in cotangents shaped like [fn_out]. *)
Theorem vjp_linear_in_exact_arithmetic {F : Type} `{ExactArith F} `{Buffering}
    (fn : list (tensor F) → tensor F) (arg_inds : list Z) (steps : list F)
    (makers : list (vjp_maker_t F)) (ia : nat) (mk : vjp_maker_t F) (k : Z) (step : F)
    (args : list ndarray) (kk : nat) (a : ndarray) (A : list F)
    (fn_out v1 v2 : tensor F) (c : F) (w : world F) :
  vjp_maker_num fn arg_inds steps = Ok makers →
  makers !! ia = Some mk → arg_inds !! ia = Some k → steps !! ia = Some step →
  norm_index (length args) k = Some kk → args !! kk = Some a →
  heap w !! buf a = Some A → length A = arr_size (shape a) →
  Forall (λ a', buf a' < length (heap w)) args →
  (∀ p, p < arr_size (shape a) →
        t_shape (fn (perturb_arg (value w <$> args) kk p step)) = t_shape fn_out ∧
        well_formed (fn (perturb_arg (value w <$> args) kk p step))) →
  well_formed fn_out →
  t_shape v1 = t_shape fn_out → well_formed v1 →
  t_shape v2 = t_shape fn_out → well_formed v2 →
  ∃ vjp_fn G1 G2,
    mk fn_out args w = (Ok vjp_fn, w) ∧
    returns_array (vjp_fn v1) w G1 ∧
    returns_array (vjp_fn v2) w G2 ∧
    returns_array (vjp_fn (tensor_add v1 v2)) w (zip_with fadd G1 G2) ∧
    returns_array (vjp_fn (tensor_scale c v1)) w (fmul c <$> G1).
Proof.
  intros Emk Ei Ek Es En Ea EA HA Hargs Hfn Hout Hv1 Hw1 Hv2 Hw2.
  pose proof (generator_run fn arg_inds steps makers ia mk k step args kk a fn_out w
                Emk Ei Ek Es En Ea) as E0.
  rewrite <- HA in Hfn.
  assert (Hlen : length (t_data v1) = length (t_data v2)).
  { unfold well_formed in *. congruence. }
  destruct (vjp_run fn args k kk a A step fn_out v1 w)
    as (w1 & G1 & E1 & EG1 & HG1 & HG1p & _); try done.
  destruct (vjp_run fn args k kk a A step fn_out v2 w)
    as (w2 & G2 & E2 & EG2 & HG2 & HG2p & _); try done.
  destruct (vjp_run fn args k kk a A step fn_out (tensor_add v1 v2) w)
    as (w3 & G3 & E3 & EG3 & HG3 & HG3p & _); try done.
  { unfold well_formed, tensor_add in *. simpl. rewrite length_zip_with. lia. }
  destruct (vjp_run fn args k kk a A step fn_out (tensor_scale c v1) w)
    as (w4 & G4 & E4 & EG4 & HG4 & HG4p & _); try done.
  { unfold well_formed, tensor_scale in *. simpl. by rewrite length_fmap. }
  assert (G3 = zip_with fadd G1 G2) as ->.
  { apply list_eq. intros p. rewrite lookup_zip_with.
    destruct (decide (p < length A)) as [Hp|Hp].
    - rewrite (HG3p p Hp), (HG1p p Hp), (HG2p p Hp). simpl. f_equal.
      by apply np_dot_add.
    - rewrite (lookup_ge_None_2 G3), (lookup_ge_None_2 G1) by lia. done. }
  assert (G4 = fmul c <$> G1) as ->.
  { apply list_eq. intros p. rewrite list_lookup_fmap.
    destruct (decide (p < length A)) as [Hp|Hp].
    - rewrite (HG4p p Hp), (HG1p p Hp). simpl. f_equal. apply np_dot_scale.
    - rewrite (lookup_ge_None_2 G4), (lookup_ge_None_2 G1) by lia. done. }
  eexists _, G1, G2. split; [exact E0|].
  repeat split; by eexists _, _.
Qed.

Lemma vjp_linear_in_exact_arithmetic_witness :
  ∃ vjp_fn G1 G2,
    vjp_maker Sample.twice_exact 0 [1%Qc] 0 (Tensor [2] [0%Qc; 0%Qc]) [NdArray 0 [1]]
      Sample.w_one_exact = (Ok vjp_fn, Sample.w_one_exact) ∧
    returns_array (vjp_fn (Tensor [2] [1%Qc; 1%Qc])) Sample.w_one_exact G1 ∧
    returns_array (vjp_fn (Tensor [2] [0%Qc; 1%Qc])) Sample.w_one_exact G2 ∧
    returns_array (vjp_fn (tensor_add (Tensor [2] [1%Qc; 1%Qc]) (Tensor [2] [0%Qc; 1%Qc])))
      Sample.w_one_exact (zip_with fadd G1 G2) ∧
    returns_array (vjp_fn (tensor_scale 1%Qc (Tensor [2] [1%Qc; 1%Qc])))
      Sample.w_one_exact (fmul 1%Qc <$> G1).
Proof.
  apply (vjp_linear_in_exact_arithmetic Sample.twice_exact [0%Z] [1%Qc]
           [vjp_maker Sample.twice_exact 0 [1%Qc] 0] 0
           (vjp_maker Sample.twice_exact 0 [1%Qc] 0) 0%Z 1%Qc
           [NdArray 0 [1]] 0 (NdArray 0 [1]) [0%Qc]
           (Tensor [2] [0%Qc; 0%Qc]) (Tensor [2] [1%Qc; 1%Qc]) (Tensor [2] [0%Qc; 1%Qc])
           1%Qc Sample.w_one_exact).
  - reflexivity.
  - reflexivity.
  - reflexivity.
  - reflexivity.
  - reflexivity.
  - reflexivity.
  - reflexivity.
  - reflexivity.
  - repeat constructor.
  - intros p Hp. split; reflexivity.
  - reflexivity.
  - reflexivity.
  - reflexivity.
  - reflexivity.
  - reflexivity.
Defined.

(** C9, as stated, fails in binary64: for [fn(a) = [a_0, a_0]] at
    [a = [0]] with step 1, the cotangents [v1 = [2^60, 1]] and
    [v2 = [-2^60, 1]] give [vjp(v1) = [2^60]] and [vjp(v2) = [-2^60]],
    which add up to [0], while [vjp(v1 + v2) = [2]]. *)
Lemma vjp_not_additive_in_binary64 :
  let mk := vjp_maker Sample.twice 0 [1%float] 0 in
  let out := Tensor [2] [0; 0]%float in
  let vjp_fn := vjp Sample.twice [NdArray 0 [1]] 0 [1] 1 1%float out in
  let v1 := Tensor [2] [Sample.big; 1%float] in
  let v2 := Tensor [2] [(- Sample.big)%float; 1%float] in
  let G v := heap (vjp_fn v Sample.w_one).2 !! 1 in
  vjp_maker_num Sample.twice [0%Z] [1%float] = Ok [mk] ∧
  mk out [NdArray 0 [1]] Sample.w_one = (Ok vjp_fn, Sample.w_one) ∧
  Sample.twice (value Sample.w_one <$> [NdArray 0 [1]]) = out ∧
  G v1 = Some [Sample.big] ∧
  G v2 = Some [(- Sample.big)%float] ∧
  G (tensor_add v1 v2) = Some [2%float] ∧
  zip_with fadd [Sample.big] [(- Sample.big)%float] = [0%float] ∧
  [2%float] ≠ [0%float].
Proof. repeat split; try (vm_compute; reflexivity). vm_compute. discriminate. Qed.

(** C10.  For [arg] with more than one entry and a scalar [step_size] that
    is not a Python float, [grad_num] raises: an [int] has no [ravel]
    ([AttributeError]); a NumPy scalar or zero-dimensional array ravels to
    one entry and [step[1]] is out of range ([IndexError]). *)
Theorem grad_num_nonfloat_scalar_raises {F : Type} `{Scalar F}
    (fn : tensor F → F) (arg : ndarray) (step_size : pyval F) (w : world F) (A : list F) :
  heap w !! buf arg = Some A → length A = arr_size (shape arg) →
  1 < arr_size (shape arg) →
  nonfloat_scalar w step_size →
  (grad_num fn arg step_size w).1
  = Raise (match step_size with
           | PyInt _ => AttributeError "ravel"
           | _ => IndexError
           end).
Proof.
  intros Ea HA HN Hs. rewrite <- HA in HN.
  destruct step_size as [s|n|x|a]; simpl in Hs; [done| | |].
  - assert (∃ w', grad_num fn arg (PyInt n) w = (Raise (AttributeError "ravel"), w'))
      as [w' ->]; [|done].
    eexists. unfold grad_num.
    eapply bind_ok; [apply np_zeros_run|].
    eapply bind_ok; [apply call1_run; cbn [heap]; by apply lookup_app_l_Some|].
    by apply bind_raise.
  - destruct (grad_num_short_step fn arg (NpFloat64 x) w A x) as [w' ->]; done.
  - destruct Hs as [_ [x Ex]].
    destruct (grad_num_short_step fn arg (NpArray a) w A x) as [w' ->]; done.
Qed.

Lemma grad_num_nonfloat_scalar_raises_witness :
  (grad_num Sample.sum_squares Sample.arg22 (PyInt 1) Sample.w22).1
  = Raise (AttributeError "ravel").
Proof.
  apply (grad_num_nonfloat_scalar_raises Sample.sum_squares Sample.arg22 (PyInt 1)
           Sample.w22 [1; 2; 3; 4]%float).
  - reflexivity.
  - reflexivity.
  - unfold arr_size. simpl. lia.
  - exact I.
Defined.

(** A NumPy scalar fails one iteration later. *)
Example grad_num_np_scalar_step :
  (grad_num Sample.sum_squares Sample.arg22 (NpFloat64 1%float) Sample.w22).1
  = Raise IndexError.
Proof. vm_compute. reflexivity. Qed.

(** * Further properties

    Edge cases, invariants and exact results of the same functions, and the
    other array and simulation utilities of the file. *)

(** ** [grad_num]: step arrays and empty arrays *)

Section MoreLoops.
Context {F : Type} `{Scalar F}.
Implicit Types (w : world F) (a : ndarray) (d : list F).

Lemma for_each_app {A} (xs ys : list A) (body : A → M F unit) w w1 r :
  for_each xs body w = (Ok tt, w1) → for_each ys body w1 = r →
  for_each (xs ++ ys) body w = r.
Proof.
  revert w. induction xs as [|x xs IH]; intros w E1 E2; simpl in *.
  - cbv [mret M_ret] in E1. injection E1 as <-. exact E2.
  - unfold mbind, M_bind in *. destruct (body x w) as [[[]|e] w2]; [|done].
    by apply IH.
Qed.

Lemma for_each_ext {A} (xs : list A) (body1 body2 : A → M F unit) w :
  (∀ x w', body1 x w' = body2 x w') → for_each xs body1 w = for_each xs body2 w.
Proof.
  intros Hb. revert w. induction xs as [|x xs IH]; intros w; simpl; [done|].
  unfold mbind, M_bind. rewrite Hb. destruct (body2 x w) as [[[]|e] w2]; [|done].
  apply IH.
Qed.

(** A step array of [m] entries, [m] below the number [N] of entries of
    [arg]: the first [m] iterations run, the next one fails at [step[m]]. *)
Lemma grad_num_step_too_short fn arg step_size w A St :
  heap w !! buf arg = Some A → length A = arr_size (shape arg) →
  step_of w (length A) step_size = Some St → length St < length A →
  ∃ w', grad_num fn arg step_size w = (Raise IndexError, w') ∧
        calls w' = calls w ++ [Tensor (shape arg) A]
                     :: imap (λ i s, [perturb (Tensor (shape arg) A) i s]) St ∧
        heap w `prefix_of` heap w'.
Proof.
  intros Ea HA Est Hlt.
  pose proof (lookup_lt_Some _ _ _ Ea) as La.
  destruct (grad_num_setup fn arg step_size w A St) as (ls & sh & w3 & E3 & Hls & Hinv);
    try done.
  set (body := grad_num_body fn arg (NdArray (length (heap w)) [length A]) (NdArray ls sh)
                 (shape arg) (fn (Tensor (shape arg) A))) in *.
  destruct (for_each_seq_inv
              (grad_num_inv fn (heap w) (calls w ++ [[Tensor (shape arg) A]]) arg A St
                 (length (heap w)) ls) body (length St) 0) with (w := w3)
    as (w4 & E4 & (Ea4 & Es4 & _ & Ec4 & Hp4)); [|done|].
  { intros i wi Hi Hwi. apply grad_num_body_run; try done; lia. }
  destruct (grad_num_body_raise fn arg (NdArray (length (heap w)) [length A]) ls sh
              (fn (Tensor (shape arg) A)) A St (length St) w4) as (w5 & E5); try done.
  assert (Hw5 : calls w5 = calls w4 ∧ heap w4 `prefix_of` heap w5).
  { unfold grad_num_body in E5.
    rewrite (bind_ok _ _ _ _ _ _ (copy_copy_run (ravel arg) w4 A Ea4) eq_refl) in E5.
    unfold mbind, M_bind, iadd_item in E5. unfold mbind, M_bind in E5.
    destruct (lookup_lt_is_Some_2 A (length St) Hlt) as [x Ex].
    erewrite getitem_run in E5; [| cbn [buf heap]; by apply list_lookup_middle | exact Ex].
    erewrite getitem_out_of_range in E5;
      [| cbn [buf heap]; by apply lookup_app_l_Some | done].
    injection E5 as <-. simpl. split; [done|]. by apply prefix_app_r. }
  destruct Hw5 as [Ec5 Hp5].
  exists w5. split; [|split].
  - rewrite E3. apply bind_raise. unfold for_range.
    replace (length A) with (length St + S (length A - S (length St))) by lia.
    rewrite seq_app. eapply for_each_app; [exact E4|]. simpl.
    by apply bind_raise.
  - rewrite Ec5, Ec4, <- app_assoc. simpl. by rewrite firstn_all.
  - by etrans.
Qed.

End MoreLoops.

(** X1.  A step array with fewer entries than [arg]: [grad_num] raises
    [IndexError] at the first missing entry, having called [fn] once on
    [arg] and once for each step there is; no array that existed before
    the call is changed. *)
Theorem grad_num_step_array_too_short {F : Type} `{Scalar F}
    (fn : tensor F → F) (arg : ndarray) (step_size : pyval F) (w : world F)
    (A St : list F) :
  heap w !! buf arg = Some A → length A = arr_size (shape arg) →
  step_of w (arr_size (shape arg)) step_size = Some St →
  length St < arr_size (shape arg) →
  ∃ w',
    grad_num fn arg step_size w = (Raise IndexError, w') ∧
    calls w' = calls w ++ [value w arg] :: imap (λ i s, [perturb (value w arg) i s]) St ∧
    (∀ a, buf a < length (heap w) → value w' a = value w a).
Proof.
  intros Ea HA Est Hlt. rewrite <- HA in Est, Hlt.
  destruct (grad_num_step_too_short fn arg step_size w A St) as (w' & E & Ec & Hp);
    try done.
  assert (Ev : value w arg = Tensor (shape arg) A).
  { unfold value. by rewrite (buffer_lookup _ _ _ Ea). }
  exists w'. rewrite Ev. repeat split; try done.
  intros a Ha. by apply prefix_value.
Qed.

Lemma grad_num_step_array_too_short_witness :
  ∃ w',
    grad_num Sample.sum_squares Sample.arg22 (NpArray (NdArray 1 [2])) Sample.w_short
      = (Raise IndexError, w') ∧
    calls w' = calls Sample.w_short ++ [value Sample.w_short Sample.arg22]
                 :: imap (λ i s, [perturb (value Sample.w_short Sample.arg22) i s])
                      [0.5; 0.25]%float ∧
    (∀ a, buf a < length (heap Sample.w_short) → value w' a = value Sample.w_short a).
Proof.
  apply (grad_num_step_array_too_short Sample.sum_squares Sample.arg22
           (NpArray (NdArray 1 [2])) Sample.w_short [1; 2; 3; 4]%float [0.5; 0.25]%float).
  - reflexivity.
  - reflexivity.
  - reflexivity.
  - unfold arr_size. simpl. lia.
Defined.

(** X2.  An [int] step size fails for every array, whatever its size:
    [AttributeError] on [ravel], after the one call of [fn] on [arg] and
    with the arrays as they were. *)
Theorem grad_num_int_step_raises {F : Type} `{Scalar F}
    (fn : tensor F → F) (arg : ndarray) (n : Z) (w : world F) (A : list F) :
  heap w !! buf arg = Some A →
  ∃ w',
    grad_num fn arg (PyInt n) w = (Raise (AttributeError "ravel"), w') ∧
    calls w' = calls w ++ [[value w arg]] ∧
    (∀ a, buf a < length (heap w) → value w' a = value w a).
Proof.
  intros Ea. eexists. split; [|split].
  - unfold grad_num.
    eapply bind_ok; [apply np_zeros_run|].
    eapply bind_ok; [apply call1_run; cbn [heap]; by apply lookup_app_l_Some|].
    by apply bind_raise.
  - simpl. unfold value. by rewrite (buffer_lookup _ _ _ Ea).
  - intros a Ha. apply prefix_value; [|done]. simpl. by apply prefix_app_r.
Qed.

Lemma grad_num_int_step_raises_witness :
  ∃ w',
    grad_num Sample.sum_squares (NdArray 0 [1]) (PyInt 1) Sample.w_one
      = (Raise (AttributeError "ravel"), w') ∧
    calls w' = calls Sample.w_one ++ [[value Sample.w_one (NdArray 0 [1])]] ∧
    (∀ a, buf a < length (heap Sample.w_one) → value w' a = value Sample.w_one a).
Proof.
  apply (grad_num_int_step_raises Sample.sum_squares (NdArray 0 [1]) 1 Sample.w_one
           [0%float]).
  reflexivity.
Defined.



(** X4.  In binary64, for an array of at most one entry a NumPy scalar
    step and a Python float step of the same value give the same
    gradient: the forward difference at that entry. *)
Theorem grad_num_np_scalar_on_single_entry
    (fn : tensor float → float) (arg : ndarray) (x : float) (w : world float)
    (A : list float) :
  heap w !! buf arg = Some A → length A = arr_size (shape arg) →
  arr_size (shape arg) ≤ 1 →
  ∃ G, returns_array (grad_num fn arg (NpFloat64 x)) w G ∧
       returns_array (grad_num fn arg (PyFloat x)) w G ∧
       length G = arr_size (shape arg) ∧
       ∀ y, A = [y] →
            G = [((fn (Tensor (shape arg) [(y + x)%float]) - fn (Tensor (shape arg) [y])) / x)%float].
Proof.
  intros Ea HA HN. rewrite <- HA in HN.
  destruct (grad_num_run fn arg (NpFloat64 x) w A [x])
    as (w1 & G1 & E1 & EG1 & HG1 & HG1i & _); try done.
  destruct (grad_num_run fn arg (PyFloat x) w A (replicate (length A) (x * 1)%float))
    as (w2 & G2 & E2 & EG2 & HG2 & HG2i & _); try done.
  { by rewrite length_replicate. }
  assert (G2 = G1) as ->.
  { apply list_eq. intros i. destruct (decide (i < length A)) as [Hi|Hi].
    - assert (i = 0) as -> by lia.
      rewrite (HG1i 0 x Hi eq_refl).
      apply (HG2i 0 x Hi). rewrite lookup_replicate. split; [|done].
      symmetry. apply float_mul_1_r.
    - rewrite !lookup_ge_None_2 by lia. done. }
  exists G1. split; [by eexists _, _|]. split; [by eexists _, _|]. split; [congruence|].
  intros y ->. simpl in *.
  destruct G1 as [|q [|q' G1]]; simplify_eq/=.
  specialize (HG1i 0 x ltac:(lia) eq_refl). by simplify_eq/=.
Qed.

Lemma grad_num_np_scalar_on_single_entry_witness :
  ∃ G, returns_array (grad_num Sample.sum_squares (NdArray 0 [1]) (NpFloat64 0.5%float))
         Sample.w_one G ∧
       returns_array (grad_num Sample.sum_squares (NdArray 0 [1]) (PyFloat 0.5%float))
         Sample.w_one G ∧
       length G = arr_size (shape (NdArray 0 [1])) ∧
       ∀ y, [0%float] = [y] →
            G = [((Sample.sum_squares (Tensor [1%nat] [(y + 0.5)%float])
                   - Sample.sum_squares (Tensor [1%nat] [y])) / 0.5)%float].
Proof.
  apply (grad_num_np_scalar_on_single_entry Sample.sum_squares (NdArray 0 [1]) 0.5%float
           Sample.w_one [0%float]).
  - reflexivity.
  - reflexivity.
  - unfold arr_size. simpl. lia.
Defined.

(** ** [grad_num] on constants and polynomials *)

Lemma float_sub_diag (x : float) : ¬ not_finite x → (x - x)%float = 0%float.
Proof.
  intros Hx. apply Prim2SF_inj. rewrite sub_spec.
  rewrite not_finite_spec in Hx.
  destruct (Prim2SF x) as [s|s| |s m e].
  - by destruct s.
  - destruct Hx. eauto.
  - destruct Hx. eauto.
  - unfold SF64sub, SFsub. by rewrite Z.sub_diag.
Qed.

Lemma float_zero_div (s : float) : ¬ is_zero s → s ≠ nan → is_zero (0 / s)%float.
Proof.
  intros Hz Hn. unfold is_zero in *.
  pose proof (div_spec 0 s) as E.
  change (Prim2SF 0) with (S754_zero false) in E.
  destruct (Prim2SF s) as [b|b| |b m e] eqn:Es; simpl in E.
  - destruct Hz. destruct b; [right|left]; by apply Prim2SF_inj.
  - destruct b; [right|left]; by apply Prim2SF_inj.
  - destruct Hn. by apply Prim2SF_inj.
  - destruct b; [right|left]; by apply Prim2SF_inj.
Qed.

(** X5.  In binary64, the gradient of a constant function with a finite
    value is zero (of either sign) at every entry, for steps that are
    neither zero nor NaN. *)
Theorem grad_num_constant_function
    (c : float) (arg : ndarray) (step_size : pyval float) (w : world float)
    (A St : list float) :
  ¬ not_finite c →
  heap w !! buf arg = Some A → length A = arr_size (shape arg) →
  step_of w (arr_size (shape arg)) step_size = Some St →
  arr_size (shape arg) ≤ length St →
  (∀ i s, i < arr_size (shape arg) → St !! i = Some s → ¬ is_zero s ∧ s ≠ nan) →
  ∃ g w' G,
    grad_num (λ _, c) arg step_size w = (Ok g, w') ∧ shape g = shape arg ∧
    heap w' !! buf g = Some G ∧ length G = arr_size (shape arg) ∧
    Forall is_zero G.
Proof.
  intros Hc Ea HA Est HSt Hs. rewrite <- HA in Est, HSt, Hs.
  destruct (grad_num_run (λ _, c) arg step_size w A St)
    as (w' & G & E & EG & HG & HGi & _); try done.
  eexists _, w', G. split; [exact E|]. split; [done|]. split; [done|].
  split; [congruence|].
  apply Forall_lookup. intros i q Eq.
  pose proof (lookup_lt_Some _ _ _ Eq) as Hi. rewrite HG in Hi.
  destruct (lookup_lt_is_Some_2 St i ltac:(lia)) as [s Es].
  rewrite (HGi i s Hi Es) in Eq. simplify_eq. unfold fd_quotient. simpl.
  rewrite float_sub_diag by done.
  destruct (Hs i s Hi Es) as [Hz Hn]. by apply float_zero_div.
Qed.

Lemma grad_num_constant_function_witness :
  ∃ g w' G,
    grad_num (λ _, 3%float) Sample.arg22 (PyFloat 0.5%float) Sample.w22 = (Ok g, w') ∧
    shape g = shape Sample.arg22 ∧
    heap w' !! buf g = Some G ∧ length G = arr_size (shape Sample.arg22) ∧
    Forall is_zero G.
Proof.
  apply (grad_num_constant_function 3%float Sample.arg22 (PyFloat 0.5%float) Sample.w22
           [1; 2; 3; 4]%float (replicate 4 (0.5 * 1)%float)).
  - unfold not_finite. intros [E | [E | E]]; vm_compute in E; discriminate.
  - reflexivity.
  - reflexivity.
  - reflexivity.
  - simpl. lia.
  - intros i s Hi Es. apply lookup_replicate in Es as [-> _]. unfold is_zero. split.
    + intros [E | E]; vm_compute in E; discriminate.
    + intros E; vm_compute in E; discriminate.
Defined.

Section ExactDifferences.
Context {F : Type} `{ExactField F}.

Lemma fold_add_acc (l : list F) :
  ∀ z a, fold_left fadd l (fadd z a) = fadd (fold_left fadd l z) a.
Proof.
  induction l as [|x l IH]; intros z a; simpl; [done|].
  rewrite <- IH. f_equal.
  by rewrite <- !fadd_assoc, (fadd_comm a x).
Qed.

Lemma fold_dot_perturb_r (c : list F) :
  ∀ (d : list F) i x ci s z,
  d !! i = Some x → c !! i = Some ci →
  fold_left fadd (zip_with fmul c (<[i := fadd x s]> d)) z
  = fadd (fold_left fadd (zip_with fmul c d) z) (fmul ci s).
Proof.
  induction c as [|c0 c IH]; intros d i x ci s z Ed Ec; [done|].
  destruct d as [|d0 d]; [done|]. destruct i as [|i]; simplify_eq/=.
  - rewrite <- fold_add_acc. f_equal.
    by rewrite fmul_add_distr_l, fadd_assoc.
  - by eapply IH.
Qed.



End ExactDifferences.

#[global] Instance exact_field : ExactField Qc.
Proof.
  split; simpl; intros.
  - apply Qcmult_comm.
  - unfold Qcminus. ring.
  - unfold Qcdiv. rewrite <- Qcmult_assoc, Qcmult_inv_r by done. ring.
Qed.

(** X6.  In exact arithmetic the forward difference of a linear form
    [sum of c_i x_i] is its coefficient vector [c], for every non-zero
    step. *)
Theorem grad_num_exact_on_linear_forms {F : Type} `{ExactField F}
    (c : list F) (arg : ndarray) (step_size : pyval F) (w : world F) (A St : list F) :
  heap w !! buf arg = Some A → length A = arr_size (shape arg) →
  length c = length A →
  step_of w (arr_size (shape arg)) step_size = Some St →
  arr_size (shape arg) ≤ length St →
  (∀ i s, i < arr_size (shape arg) → St !! i = Some s → s ≠ f0) →
  ∃ g w', grad_num (linear_form c) arg step_size w = (Ok g, w') ∧
          shape g = shape arg ∧ heap w' !! buf g = Some c.
Proof.
  intros Ea HA Hc Est HSt Hs. rewrite <- HA in Est, HSt, Hs.
  destruct (grad_num_run (linear_form c) arg step_size w A St)
    as (w' & G & E & EG & HG & HGi & _); try done.
  eexists _, w'. split; [exact E|]. split; [done|].
  replace c with G; [done|].
  apply list_eq. intros i. destruct (decide (i < length A)) as [Hi|Hi].
  - destruct (lookup_lt_is_Some_2 St i ltac:(lia)) as [s Es].
    destruct (lookup_lt_is_Some_2 A i Hi) as [x Ex].
    destruct (lookup_lt_is_Some_2 c i ltac:(lia)) as [ci Eci].
    rewrite (HGi i s Hi Es), Eci. f_equal.
    unfold fd_quotient, linear_form, perturb, dot. simpl.
    rewrite (alter_as_insert (λ y, fadd y s) _ _ _ Ex).
    rewrite (fold_dot_perturb_r c A i x ci s f0 Ex Eci).
    rewrite fsub_add_l. apply fdiv_mul_r. by apply (Hs i).
  - rewrite !lookup_ge_None_2 by lia. done.
Qed.


Lemma Qc_one_nonzero : fmul 1%Qc 1%Qc ≠ (f0 : Qc).
Proof. intros E. apply (f_equal this) in E. vm_compute in E. discriminate. Qed.

Lemma grad_num_exact_on_linear_forms_witness :
  ∃ g w', grad_num (linear_form [Q2Qc 3; Q2Qc 4]) (NdArray 0 [2]) (PyFloat 1%Qc)
            Sample.w_two_exact = (Ok g, w') ∧
          shape g = shape (NdArray 0 [2]) ∧ heap w' !! buf g = Some [Q2Qc 3; Q2Qc 4].
Proof.
  apply (grad_num_exact_on_linear_forms [Q2Qc 3; Q2Qc 4] (NdArray 0 [2]) (PyFloat 1%Qc)
           Sample.w_two_exact [Q2Qc 1; Q2Qc 2] (replicate 2 (fmul 1%Qc 1%Qc))).
  - reflexivity.
  - reflexivity.
  - reflexivity.
  - reflexivity.
  - simpl. lia.
  - intros i s Hi Es. apply lookup_replicate in Es as [-> _]. apply Qc_one_nonzero.
Defined.


(** ** [vjp_maker_num]: indices and cotangents *)

Section MoreVjp.
Context {F : Type} `{Scalar F} `{Buffering}.
Implicit Types (w : world F) (a : ndarray) (d : list F).

Lemma norm_index_negative n (k : Z) :
  (- Z.of_nat n ≤ k < 0)%Z → norm_index n k = norm_index n (k + Z.of_nat n).
Proof.
  intros Hk. unfold norm_index.
  destruct (Z.ltb_spec k 0); [|lia].
  destruct (Z.ltb_spec (k + Z.of_nat n) 0); [lia|done].
Qed.

Lemma vjp_negative_index fn (args : list ndarray) (k : Z) sh num_p (step : F) fn_out v w :
  (- Z.of_nat (length args) ≤ k < 0)%Z →
  vjp fn args k sh num_p step fn_out v w
  = vjp fn args (k + Z.of_nat (length args)) sh num_p step fn_out v w.
Proof.
  intros Hk. unfold vjp, mbind, M_bind.
  destruct (np_zeros num_p w) as [[vjp_num|e] w1]; [|done].
  unfold for_range.
  rewrite (for_each_ext _ _
             (vjp_body fn args (k + Z.of_nat (length args)) sh step fn_out v vjp_num));
    [done|].
  intros ip w'. unfold vjp_body, py_index, py_setitem.
  by rewrite (norm_index_negative _ _ Hk).
Qed.





Lemma vjp_body_bad_cotangent fn args k kk a A step fn_out v vjp_num j w :
  norm_index (length args) k = Some kk → args !! kk = Some a →
  heap w !! buf a = Some A → length A = arr_size (shape a) → j < length A →
  (∀ ts, t_shape (fn ts) = t_shape fn_out ∧ well_formed (fn ts)) →
  well_formed fn_out →
  broadcast_shapes (t_shape v) (t_shape fn_out) = None →
  ∃ w', vjp_body fn args k (shape a) step fn_out v vjp_num j w = (Raise ValueError, w') ∧
        (∃ ts, calls w' = calls w ++ [ts]) ∧ heap w `prefix_of` heap w'.
Proof.
  intros Ek Ekk Ea HA Hj Hfn Hout Hv.
  destruct (lookup_lt_is_Some_2 A j Hj) as [x Ex].
  eexists. split.
  - unfold vjp_body.
    eapply bind_ok; [apply lift_run; by eapply py_index_run|].
    eapply bind_ok; [by apply flatten_run|].
    eapply bind_ok.
    { eapply iadd_item_run; cbn [buf heap].
      - by apply list_lookup_middle.
      - exact Ex.
      - reflexivity. }
    cbn [buf].
    eapply bind_ok.
    { apply nd_reshape_run. cbn [shape]. by rewrite arr_size_singleton. }
    eapply bind_ok; [apply lift_run; by eapply py_setitem_run|].
    eapply bind_ok; [apply calln_run|].
    match goal with |- context [fn ?ts] => destruct (Hfn ts) as [Hsh Hwf] end.
    eapply bind_ok; [apply lift_run; by apply broadcast2_same_shape|].
    apply bind_raise. unfold lift, np_mul, broadcast2, np_div_scalar.
    cbn [t_shape]. rewrite Hsh, Hv. reflexivity.
  - cbn [heap calls]. split; [by eexists|].
    apply prefix_insert_ge; [by apply prefix_app_r|done].
Qed.

End MoreVjp.

(** X8.  With fewer steps than argument indices the factory itself raises
    [IndexError], at [steps[ia]] in [vjp_single_arg]: no maker is
    returned. *)
Theorem vjp_maker_num_too_few_steps {F : Type} `{Scalar F} `{Buffering}
    (fn : list (tensor F) → tensor F) (arg_inds : list Z) (steps : list F) :
  length steps < length arg_inds →
  vjp_maker_num fn arg_inds steps = Raise IndexError.
Proof.
  intros Hlt. rewrite vjp_maker_num_run. by rewrite decide_False by lia.
Qed.

Lemma vjp_maker_num_too_few_steps_witness :
  vjp_maker_num Sample.product [0%Z; 1%Z] [0.5%float] = Raise IndexError.
Proof.
  apply (vjp_maker_num_too_few_steps Sample.product [0%Z; 1%Z] [0.5%float]).
  simpl. lia.
Defined.

(** X9.  A negative argument index counts from the end: the maker for an
    index [k] with [-len(args) <= k < 0] yields a [vjp] that behaves as
    the one for [k + len(args)]. *)
Theorem vjp_maker_negative_index {F : Type} `{Scalar F} `{Buffering}
    (fn : list (tensor F) → tensor F) (steps : list F) (ia : nat) (step : F) (k : Z)
    (args : list ndarray) (fn_out : tensor F) (w : world F) :
  steps !! ia = Some step →
  (- Z.of_nat (length args) ≤ k < 0)%Z →
  ∃ vjp_neg vjp_pos,
    vjp_maker fn k steps ia fn_out args w = (Ok vjp_neg, w) ∧
    vjp_maker fn (k + Z.of_nat (length args)) steps ia fn_out args w = (Ok vjp_pos, w) ∧
    ∀ v w', vjp_neg v w' = vjp_pos v w'.
Proof.
  intros Es Hk.
  set (kk := Z.to_nat (k + Z.of_nat (length args))).
  assert (Hkk : kk < length args) by (unfold kk; lia).
  assert (En2 : norm_index (length args) (k + Z.of_nat (length args)) = Some kk).
  { replace (k + Z.of_nat (length args))%Z with (Z.of_nat kk) by (unfold kk; lia).
    by apply norm_index_nat. }
  assert (En1 : norm_index (length args) k = Some kk)
    by by rewrite norm_index_negative.
  destruct (lookup_lt_is_Some_2 args kk Hkk) as [a Ea].
  eexists _, _. split; [by eapply vjp_maker_run|]. split; [by eapply vjp_maker_run|].
  intros v w'. by apply vjp_negative_index.
Qed.

Lemma vjp_maker_negative_index_witness :
  ∃ vjp_neg vjp_pos,
    vjp_maker Sample.product (-1) [0.5%float] 0 Sample.out_ab Sample.args_ab Sample.w_ab
      = (Ok vjp_neg, Sample.w_ab) ∧
    vjp_maker Sample.product (-1 + Z.of_nat (length Sample.args_ab)) [0.5%float] 0
      Sample.out_ab Sample.args_ab Sample.w_ab = (Ok vjp_pos, Sample.w_ab) ∧
    ∀ v w', vjp_neg v w' = vjp_pos v w'.
Proof.
  apply (vjp_maker_negative_index Sample.product [0.5%float] 0 0.5%float (-1)
           Sample.args_ab Sample.out_ab Sample.w_ab).
  - reflexivity.
  - simpl. lia.
Defined.



(** X11.  A cotangent whose shape cannot be broadcast against the output
    makes [vjp] raise [ValueError] after one call of [fn], with the arrays
    as they were; unless the argument has no entries: then the loop body
    never runs, [fn] is not called and an empty gradient is returned. *)
Theorem vjp_rejects_incompatible_cotangent {F : Type} `{Scalar F} `{Buffering}
    (fn : list (tensor F) → tensor F) (arg_inds : list Z) (steps : list F)
    (makers : list (vjp_maker_t F)) (ia : nat) (mk : vjp_maker_t F) (k : Z) (step : F)
    (args : list ndarray) (kk : nat) (a : ndarray) (A : list F)
    (fn_out v : tensor F) (w : world F) :
  vjp_maker_num fn arg_inds steps = Ok makers →
  makers !! ia = Some mk → arg_inds !! ia = Some k → steps !! ia = Some step →
  norm_index (length args) k = Some kk → args !! kk = Some a →
  heap w !! buf a = Some A → length A = arr_size (shape a) →
  (∀ ts, t_shape (fn ts) = t_shape fn_out ∧ well_formed (fn ts)) →
  well_formed fn_out →
  broadcast_shapes (t_shape v) (t_shape fn_out) = None →
  ∃ vjp_fn,
    mk fn_out args w = (Ok vjp_fn, w) ∧
    (0 < arr_size (shape a) →
     ∃ w' ts, vjp_fn v w = (Raise ValueError, w') ∧ calls w' = calls w ++ [ts] ∧
              ∀ a', buf a' < length (heap w) → value w' a' = value w a') ∧
    (arr_size (shape a) = 0 →
     ∃ g w', vjp_fn v w = (Ok g, w') ∧ heap w' !! buf g = Some [] ∧ calls w' = calls w).
Proof.
  intros Emk Ei Ek Es En Ea EA HA Hfn Hout Hv.
  pose proof (generator_run fn arg_inds steps makers ia mk k step args kk a fn_out w
                Emk Ei Ek Es En Ea) as E0.
  eexists. split; [exact E0|]. rewrite <- HA. split.
  - intros Hpos.
    destruct (vjp_body_bad_cotangent fn args k kk a A step fn_out v
                (NdArray (length (heap w)) [length A]) 0
                (World (heap w ++ [replicate (length A) f0]) (calls w)))
      as (w' & E & [ts Ec] & Hp); try done.
    { cbn [heap]. by apply lookup_app_l_Some. }
    exists w', ts. split; [|split; [done|]].
    + unfold vjp.
      eapply bind_ok; [apply np_zeros_run|].
      apply bind_raise. unfold for_range.
      destruct (length A) as [|n]; [lia|]. simpl.
      by apply bind_raise.
    + intros a' Ha'. apply prefix_value; [|done].
      etrans; [|exact Hp]. by apply prefix_app_r.
  - intros Hzero. eexists _, _. split; [|split].
    + unfold vjp. eapply bind_ok; [apply np_zeros_run|].
      rewrite Hzero. reflexivity.
    + cbn [buf heap]. by apply list_lookup_middle.
    + reflexivity.
Qed.

Lemma vjp_rejects_incompatible_cotangent_witness :
  ∃ vjp_fn,
    vjp_maker Sample.twice 0 [1%float] 0 (Tensor [2] [0; 0]%float) [NdArray 0 [1]]
      Sample.w_one = (Ok vjp_fn, Sample.w_one) ∧
    (0 < arr_size (shape (NdArray 0 [1])) →
     ∃ w' ts, vjp_fn (Tensor [3] [1; 1; 1]%float) Sample.w_one = (Raise ValueError, w') ∧
              calls w' = calls Sample.w_one ++ [ts] ∧
              ∀ a', buf a' < length (heap Sample.w_one) →
                    value w' a' = value Sample.w_one a') ∧
    (arr_size (shape (NdArray 0 [1])) = 0 →
     ∃ g w', vjp_fn (Tensor [3] [1; 1; 1]%float) Sample.w_one = (Ok g, w') ∧
             heap w' !! buf g = Some [] ∧ calls w' = calls Sample.w_one).
Proof.
  apply (vjp_rejects_incompatible_cotangent Sample.twice [0%Z] [1%float]
           [vjp_maker Sample.twice 0 [1%float] 0] 0 (vjp_maker Sample.twice 0 [1%float] 0)
           0%Z 1%float [NdArray 0 [1]] 0 (NdArray 0 [1]) [0%float]
           (Tensor [2] [0; 0]%float) (Tensor [3] [1; 1; 1]%float) Sample.w_one).
  - reflexivity.
  - reflexivity.
  - reflexivity.
  - reflexivity.
  - reflexivity.
  - reflexivity.
  - reflexivity.
  - reflexivity.
  - intros ts. unfold Sample.twice. destruct ts as [|t [|t' ts]]; split; reflexivity.
  - reflexivity.
  - reflexivity.
Defined.

(** ** [measure_fields] *)

Section SimulationFacts.
Context {F : Type} `{Scalar F} `{Buffering}.
Variable solver : Type.
Variable initialize_fields : solver → solver.
Variable forward : solver → tensor F → solver * gmap string (tensor F).
Variable source : nat → tensor F.



Lemma measure_probes_none (fields : gmap string (tensor F)) component t N pi m :
  measure_probes fields component t N pi [] m = Returned m.
Proof. reflexivity. Qed.


Lemma progress_lines_S every j :
  progress_lines every (S j)
  = progress_lines every j ++ (if decide (j mod every = 0) then [j] else []).
Proof.
  unfold progress_lines. by rewrite seq_S, filter_app.
Qed.

Lemma progress_test (steps : Z) (t : nat) :
  (0 < steps / 20)%Z →
  (Z.of_nat t mod (steps / 20) = 0)%Z ↔ t mod Z.to_nat (steps / 20) = 0.
Proof.
  intros Hq.
  rewrite <- (Z2Nat.id (steps / 20)) at 1 by lia.
  rewrite <- Nat2Z.inj_mod. lia.
Qed.


End SimulationFacts.

Lemma progress_lines_length every n :
  0 < every → length (progress_lines every n) = (n + every - 1) / every.
Proof.
  intros Hq. induction n as [|n IH].
  - simpl. symmetry. apply Nat.div_small. lia.
  - rewrite progress_lines_S, length_app, IH.
    pose proof (Nat.div_mod_eq n every) as Hn.
    pose proof (Nat.mod_upper_bound n every ltac:(lia)) as Hr.
    set (a := n / every) in *. set (r := n mod every) in *.
    assert (H1 : (n + every - 1) / every = if decide (r = 0) then a else S a).
    { destruct (decide (r = 0)).
      - symmetry. apply (Nat.div_unique _ _ _ (every - 1)); lia.
      - symmetry. apply (Nat.div_unique _ _ _ (r - 1)); lia. }
    assert (H2 : (S n + every - 1) / every = S a).
    { symmetry. apply (Nat.div_unique _ _ _ r); lia. }
    rewrite H1, H2. fold r.
    destruct (decide (r = 0)); simpl; lia.
Qed.

Lemma progress_lines_count (steps : Z) :
  (20 ≤ steps)%Z →
  20 ≤ length (progress_lines (Z.to_nat (steps / 20)) (Z.to_nat steps)) ≤ 39.
Proof.
  intros Hs.
  assert (Hq : (0 < steps / 20)%Z) by (apply Z.div_str_pos; lia).
  pose proof (Z.div_mod steps 20 ltac:(lia)) as Hdm.
  pose proof (Z.mod_pos_bound steps 20 ltac:(lia)) as Hr.
  set (q := Z.to_nat (steps / 20)). set (n := Z.to_nat steps).
  assert (Hn : 20 * q ≤ n < 20 * q + 20) by (unfold q, n; lia).
  rewrite progress_lines_length by (unfold q; lia).
  split.
  - apply Nat.div_le_lower_bound; nia.
  - apply Nat.lt_succ_r. apply Nat.Div0.div_lt_upper_bound. nia.
Qed.

Lemma progress_lines_twenty (steps : Z) :
  (20 ≤ steps)%Z →
  length (progress_lines (Z.to_nat (steps / 20)) (Z.to_nat steps)) = 20
  ↔ (steps mod 20 = 0)%Z.
Proof.
  intros Hs.
  assert (Hq : (0 < steps / 20)%Z) by (apply Z.div_str_pos; lia).
  pose proof (Z.div_mod steps 20 ltac:(lia)) as Hdm.
  pose proof (Z.mod_pos_bound steps 20 ltac:(lia)) as Hr.
  set (q := Z.to_nat (steps / 20)). set (n := Z.to_nat steps).
  assert (Hn : n = 20 * q + Z.to_nat (steps mod 20)) by (unfold q, n; lia).
  rewrite progress_lines_length by (unfold q; lia).
  split.
  - intros Hc.
    assert (n + q - 1 < q * 21).
    { destruct (decide (n + q - 1 < q * 21)) as [|Hge]; [done|].
      assert (21 ≤ (n + q - 1) / q) by (apply Nat.div_le_lower_bound; unfold q; lia).
      lia. }
    lia.
  - intros Hz. symmetry. apply (Nat.div_unique _ _ _ (q - 1)); unfold q in *; lia.
Qed.

Section MeasureReturns.
Context {F : Type} `{Scalar F} `{Buffering}.
Variable solver : Type.
Variable initialize_fields : solver → solver.
Variable forward : solver → tensor F → solver * gmap string (tensor F).
Variable source : nat → tensor F.

Lemma measure_steps_printed (steps : Z) (probes : list (tensor F)) component k :
  (0 < steps / 20)%Z →
  ∀ j (m : list F) (st : sim solver) m' st',
  measure_steps solver forward source steps probes component (seq j k) m st
    = (Returned m', st') →
  stdout st' = stdout st ++ filter (λ t, t mod Z.to_nat (steps / 20) = 0) (seq j k).
Proof.
  intros Hq. induction k as [|k IH]; intros j m st m' st' E.
  - simpl in E. simplify_eq. by rewrite app_nil_r.
  - simpl in E. rewrite decide_False in E by lia.
    destruct (measure_probes _ _ _ _ _ _ _) as [m1|e] eqn:E1; [|done].
    apply IH in E. rewrite E. cbn [stdout].
    cbn [seq]. rewrite filter_cons.
    destruct (decide (Z.of_nat j mod (steps / 20) = 0)%Z) as [Hd|Hd].
    + rewrite decide_True by by apply progress_test.
      simpl. by rewrite <- app_assoc.
    + rewrite decide_False by by rewrite <- progress_test. done.
Qed.

Lemma measure_fields_printed (steps : Z) (probes : probes_arg F) component
    (st : sim solver) (a : tensor F) (st' : sim solver) :
  (20 ≤ steps)%Z →
  measure_fields solver initialize_fields forward source steps probes component st
    = (Returned a, st') →
  stdout st' = stdout st ++ progress_lines (Z.to_nat (steps / 20)) (Z.to_nat steps).
Proof.
  intros Hsteps E.
  assert (Hq : (0 < steps / 20)%Z) by (apply Z.div_str_pos; lia).
  unfold measure_fields in E. rewrite decide_False in E by lia.
  destruct (measure_steps _ _ _ _ _ _ _ _ _) as [[m'|e] st1] eqn:E1; [|done].
  simplify_eq. by apply measure_steps_printed in E1.
Qed.

End MeasureReturns.

Section MeasureFields.
Context {F : Type} `{Scalar F} `{Buffering}.
Variable solver : Type.
Variable initialize_fields : solver → solver.
Variable forward : solver → tensor F → solver * gmap string (tensor F).
Variable source : nat → tensor F.


End MeasureFields.

(** X12.  With fewer than 20 steps [measure_fields] measures nothing:
    [steps // 20] is zero and the first iteration raises
    [ZeroDivisionError] before the solver is advanced; zero steps return
    an empty array and a negative number is refused by [np.zeros].  The
    solver has only been initialised and nothing is printed. *)
Theorem measure_fields_needs_twenty_steps {F : Type} `{Scalar F} `{Buffering} (solver : Type)
    (initialize_fields : solver → solver)
    (forward : solver → tensor F → solver * gmap string (tensor F))
    (source : nat → tensor F)
    (steps : Z) (probes : probes_arg F) (component : string) (st : sim solver) :
  (steps < 20)%Z →
  measure_fields solver initialize_fields forward source steps probes component st
  = (if decide (steps < 0)%Z then Raised (PyError ValueError)
     else if decide (steps = 0)%Z
          then Returned (Tensor [0; length (probe_list probes)] [])
          else Raised ZeroDivisionError,
     Sim (initialize_fields (solver_state st)) (stdout st)).
Proof.
  intros Hlt. unfold measure_fields. fold (probe_list probes).
  destruct (decide (steps < 0)%Z) as [Hn|Hn]; [done|].
  destruct (decide (steps = 0)%Z) as [->|Hz]; [done|].
  destruct (Z.to_nat steps) as [|n] eqn:En; [lia|].
  cbn [seq measure_steps].
  by rewrite decide_True by (apply Z.div_small; lia).
Qed.

Lemma measure_fields_needs_twenty_steps_witness :
  measure_fields nat (λ _, 0) Sample.counter_forward Sample.unit_source 19
    (OneProbe Sample.probe_a) "Ez" (Sim 7 [])
  = (if decide (19 < 0)%Z then Raised (PyError ValueError)
     else if decide (19 = 0)%Z
          then Returned (Tensor [0; length (probe_list (OneProbe Sample.probe_a))] [])
          else Raised ZeroDivisionError,
     Sim ((λ _, 0) (solver_state (Sim 7 []))) (stdout (Sim 7 []))).
Proof.
  apply (measure_fields_needs_twenty_steps nat (λ _, 0) Sample.counter_forward
           Sample.unit_source 19 (OneProbe Sample.probe_a) "Ez" (Sim 7 [])).
  lia.
Defined.



(** A field of eight grid points [2^53, 1, ..., 1] under a probe of ones is
    measured as [2^53 + 6] at every step. *)
Example measure_fields_eight_points :
  (measure_fields nat (λ _, 0) Sample.counter_forward
     (λ _, Tensor [8] (Sample.two53 :: replicate 7 1%float)) 20
     (OneProbe (Tensor [8] (replicate 8 1%float))) "Ez" (Sim 7 [])).1
  = Returned (Tensor [20; 1] (replicate 20 9007199254740998%float)).
Proof. vm_compute. reflexivity. Qed.



(** X15.  With at least one probe and fields that lack [component],
    [measure_fields] raises [KeyError] in the first step, after one
    progress line and one call of [forward]. *)
Theorem measure_fields_missing_component {F : Type} `{Scalar F} `{Buffering} (solver : Type)
    (initialize_fields : solver → solver)
    (forward : solver → tensor F → solver * gmap string (tensor F))
    (source : nat → tensor F)
    (steps : Z) (probes : probes_arg F) (component : string) (st : sim solver) :
  (20 ≤ steps)%Z →
  probe_list probes ≠ [] →
  fields_at solver forward source (initialize_fields (solver_state st)) 0
    !! component = None →
  measure_fields solver initialize_fields forward source steps probes component st
  = (Raised (KeyError component),
     Sim (solver_at solver forward source (initialize_fields (solver_state st)) 1)
         (stdout st ++ [0])).
Proof.
  intros Hsteps Hne Hmiss.
  assert (Hq : (0 < steps / 20)%Z) by (apply Z.div_str_pos; lia).
  unfold measure_fields. fold (probe_list probes).
  rewrite decide_False by lia.
  destruct (Z.to_nat steps) as [|n] eqn:En; [lia|].
  cbn [seq measure_steps].
  rewrite decide_False by lia.
  rewrite decide_True by (by rewrite Z.mod_0_l by lia).
  unfold step_solver, print_progress. cbn [solver_state stdout].
  change ((forward (initialize_fields (solver_state st)) (source 0)).2)
    with (fields_at solver forward source (initialize_fields (solver_state st)) 0).
  destruct (probe_list probes) as [|probe rest]; [done|].
  cbn [measure_probes]. by rewrite Hmiss.
Qed.

Lemma measure_fields_missing_component_witness :
  measure_fields nat (λ _, 0) Sample.counter_forward Sample.unit_source 20
    (OneProbe Sample.probe_a) "Hx" (Sim 7 [])
  = (Raised (KeyError "Hx"),
     Sim (solver_at nat Sample.counter_forward Sample.unit_source
            ((λ _, 0) (solver_state (Sim 7 []))) 1)
         (stdout (Sim 7 []) ++ [0])).
Proof.
  apply (measure_fields_missing_component nat (λ _, 0) Sample.counter_forward
           Sample.unit_source 20 (OneProbe Sample.probe_a) "Hx" (Sim 7 [])).
  - lia.
  - discriminate.
  - reflexivity.
Defined.

(** X16.  Whenever [measure_fields] returns for 20 steps or more, it has
    printed between 20 and 39 progress lines: exactly 20 if and only if
    [steps] is a multiple of 20. *)
Theorem measure_fields_progress_count {F : Type} `{Scalar F} `{Buffering} (solver : Type)
    (initialize_fields : solver → solver)
    (forward : solver → tensor F → solver * gmap string (tensor F))
    (source : nat → tensor F)
    (steps : Z) (probes : probes_arg F) (component : string) (st : sim solver)
    (a : tensor F) (st' : sim solver) :
  (20 ≤ steps)%Z →
  measure_fields solver initialize_fields forward source steps probes component st
    = (Returned a, st') →
  ∃ printed, stdout st' = stdout st ++ printed ∧
             20 ≤ length printed ≤ 39 ∧
             (length printed = 20 ↔ (steps mod 20 = 0)%Z).
Proof.
  intros Hsteps E.
  exists (progress_lines (Z.to_nat (steps / 20)) (Z.to_nat steps)).
  split; [by eapply measure_fields_printed|].
  split; [by apply progress_lines_count|by apply progress_lines_twenty].
Qed.

Lemma measure_fields_progress_count_witness :
  ∃ printed, stdout (Sim 30 (seq 0 30)) = stdout (Sim 7 []) ++ printed ∧
             20 ≤ length printed ≤ 39 ∧
             (length printed = 20 ↔ (30 mod 20 = 0)%Z).
Proof.
  apply (measure_fields_progress_count nat (λ _, 0) Sample.counter_forward
           Sample.unit_source 30 (ProbeList []) "Ez" (Sim 7 [])
           (Tensor [30; 0] []) (Sim 30 (seq 0 30))).
  - lia.
  - vm_compute. reflexivity.
Defined.

(** ** [aniplot] *)

Lemma mod_test (d : Z) (t : nat) :
  (0 < d)%Z → (Z.of_nat t mod d = 0)%Z ↔ t mod Z.to_nat d = 0.
Proof.
  intros Hd.
  rewrite <- (Z2Nat.id d) at 1 by lia.
  rewrite <- Nat2Z.inj_mod. lia.
Qed.

(** Panels drawn before step [j]: one for each multiple of [q] below [j]. *)
Lemma panels_before_multiple (q a : nat) : 0 < q → (a * q + q - 1) / q = a.
Proof.
  intros Hq. symmetry. apply (Nat.div_unique _ _ _ (q - 1)); lia.
Qed.

Lemma panels_before_S (q j : nat) :
  0 < q →
  (S j + q - 1) / q = (j + q - 1) / q + (if decide (j mod q = 0) then 1 else 0).
Proof.
  intros Hq.
  pose proof (Nat.div_mod_eq j q) as Hj.
  pose proof (Nat.mod_upper_bound j q ltac:(lia)) as Hr.
  set (a := j / q) in *. set (r := j mod q) in *.
  assert (H2 : (S j + q - 1) / q = S a).
  { symmetry. apply (Nat.div_unique _ _ _ r); lia. }
  rewrite H2. destruct (decide (r = 0)).
  - rewrite <- (Nat.div_unique (j + q - 1) q a (q - 1)); lia.
  - rewrite <- (Nat.div_unique (j + q - 1) q (S a) (r - 1)); lia.
Qed.

Lemma panels_at_multiple (q j : nat) :
  0 < q → j mod q = 0 → j = (j + q - 1) / q * q.
Proof.
  intros Hq Hm.
  pose proof (Nat.div_mod_eq j q) as Hj. rewrite Hm in Hj.
  replace (j + q - 1) with (j / q * q + q - 1) by lia.
  rewrite panels_before_multiple by done. lia.
Qed.

Lemma panel_schedule_S (q k : nat) :
  panel_schedule q (S k) = panel_schedule q k ++ [(k, k * q)].
Proof. unfold panel_schedule. by rewrite seq_S, fmap_app. Qed.

Section AnimationFacts.
Context {F : Type}.
Variable solver : Type.
Variable initialize_fields : solver → solver.
Variable eps_r_shape : solver → list nat.
Variable forward : solver → tensor F → solver * gmap string (tensor F).
Variable source : nat → tensor F.
Variable subplots : Z → outcome axes.
Variable draw : solver → nat → nat → nat → gmap string (tensor F) → string → nat
                → option sim_exn.

(** The loop over the time steps [j .. j+k-1], as long as no more than
    [P] panels are started: [q] is the spacing of the panels. *)
Lemma aniplot_steps_run (steps num_panels : Z) component (P Nx Ny : nat) s1 out0 pan0 :
  (0 < steps / num_panels)%Z →
  let q := Z.to_nat (steps / num_panels) in
  ∀ k j tail (st : plot solver),
  j + k ≤ P * q →
  (∀ t ax, j ≤ t < j + k →
     draw (solver_at solver forward source s1 (S t)) ax Nx Ny
          (fields_at solver forward source s1 t) component t = None) →
  plot_solver st = solver_at solver forward source s1 j →
  plot_stdout st = out0 ++ panel_schedule q ((j + q - 1) / q) →
  plot_panels st = pan0 ++ panel_schedule q ((j + q - 1) / q) →
  aniplot_steps solver forward source draw steps component num_panels (AxesArray P) Nx Ny
    (seq j k ++ tail) ((j + q - 1) / q) st
  = aniplot_steps solver forward source draw steps component num_panels (AxesArray P) Nx Ny
      tail ((j + k + q - 1) / q)
      (Plot (solver_at solver forward source s1 (j + k))
            (out0 ++ panel_schedule q ((j + k + q - 1) / q))
            (pan0 ++ panel_schedule q ((j + k + q - 1) / q))).
Proof.
  intros Hq q.
  assert (Hq' : 0 < q) by (unfold q; lia).
  induction k as [|k IH]; intros j tail st Hjk Hdraw Hs Ho Hp.
  - rewrite Nat.add_0_r. simpl. destruct st as [s o p]. simpl in *. by subst.
  - cbn [seq app aniplot_steps].
    rewrite decide_False by lia.
    rewrite Hs.
    change (forward (solver_at solver forward source s1 j) (source j)).1
      with (solver_at solver forward source s1 (S j)).
    change (forward (solver_at solver forward source s1 j) (source j)).2
      with (fields_at solver forward source s1 j).
    replace (j + S k) with (S j + k) by lia.
    pose proof (panels_before_S q j Hq') as HS.
    destruct (decide (Z.of_nat j mod (steps / num_panels) = 0)%Z) as [Hd|Hd].
    + apply mod_test in Hd; [|done]. fold q in Hd.
      rewrite decide_True in HS by done.
      pose proof (panels_at_multiple q j Hq' Hd) as Hj.
      set (a := (j + q - 1) / q) in *.
      assert (Ha : a < P) by nia.
      cbn [ax_getitem]. rewrite decide_True by done.
      rewrite Hdraw by lia.
      replace (S a) with ((S j + q - 1) / q) by lia.
      apply IH; [lia| |done| |].
      * intros t ax Ht. apply Hdraw. lia.
      * cbn [plot_stdout]. rewrite Ho, <- app_assoc. f_equal.
        rewrite HS, Nat.add_1_r, panel_schedule_S. by rewrite <- Hj.
      * cbn [plot_panels]. rewrite Hp, <- app_assoc. f_equal.
        rewrite HS, Nat.add_1_r, panel_schedule_S. by rewrite <- Hj.
    + assert (Hd' : j mod q ≠ 0) by (intros Hm; apply Hd; by apply mod_test).
      rewrite decide_False in HS by done. rewrite Nat.add_0_r in HS.
      rewrite <- HS.
      apply IH; [lia| | done | by rewrite HS | by rewrite HS].
      intros t ax Ht. apply Hdraw. lia.
Qed.

End AnimationFacts.

Lemma panel_spacing (steps num_panels : Z) :
  (0 < num_panels ≤ steps)%Z →
  (0 < steps / num_panels)%Z ∧
  Z.to_nat num_panels * Z.to_nat (steps / num_panels) ≤ Z.to_nat steps ∧
  ((steps mod num_panels = 0)%Z →
   Z.to_nat steps = Z.to_nat num_panels * Z.to_nat (steps / num_panels)) ∧
  ((steps mod num_panels ≠ 0)%Z →
   Z.to_nat num_panels * Z.to_nat (steps / num_panels) < Z.to_nat steps).
Proof.
  intros HP.
  assert (Hq : (0 < steps / num_panels)%Z) by (apply Z.div_str_pos; lia).
  pose proof (Z.div_mod steps num_panels ltac:(lia)) as Hdm.
  pose proof (Z.mod_pos_bound steps num_panels ltac:(lia)) as Hr.
  repeat split; [done|nia|nia|nia].
Qed.

(** X17.  With at least one step but fewer steps than panels, [aniplot]
    raises [ZeroDivisionError] in the first iteration: after the solver has
    been advanced once, and before anything is printed or drawn. *)
Theorem aniplot_fewer_steps_than_panels {F : Type} (solver : Type)
    (initialize_fields : solver → solver) (eps_r_shape : solver → list nat)
    (forward : solver → tensor F → solver * gmap string (tensor F))
    (source : nat → tensor F) (subplots : Z → outcome axes)
    (draw : solver → nat → nat → nat → gmap string (tensor F) → string → nat
            → option sim_exn)
    (steps : Z) (component : string) (num_panels : Z) (st : plot solver)
    (ax_list : axes) (Nx Ny Nz : nat) :
  (0 < steps < num_panels)%Z →
  subplots num_panels = Returned ax_list →
  eps_r_shape (initialize_fields (plot_solver st)) = [Nx; Ny; Nz] →
  aniplot solver initialize_fields eps_r_shape forward source subplots draw
    steps component num_panels st
  = (Raised ZeroDivisionError,
     Plot (solver_at solver forward source (initialize_fields (plot_solver st)) 1)
          (plot_stdout st) (plot_panels st)).
Proof.
  intros Hs Esub Esh. unfold aniplot. rewrite Esub. cbn [plot_solver]. rewrite Esh.
  destruct (Z.to_nat steps) as [|n] eqn:En; [lia|].
  cbn [seq aniplot_steps]. by rewrite decide_True by (apply Z.div_small; lia).
Qed.

Lemma aniplot_fewer_steps_than_panels_witness :
  aniplot nat (λ _, 0) Sample.eps_shape Sample.counter_forward Sample.unit_source
    Sample.plt_subplots Sample.draw_ok 9 "Ez" 10 (Plot 7 [] [])
  = (Raised ZeroDivisionError,
     Plot (solver_at nat Sample.counter_forward Sample.unit_source
             ((λ _, 0) (plot_solver (Plot 7 [] []))) 1)
          (plot_stdout (Plot 7 [] [])) (plot_panels (Plot 7 [] []))).
Proof.
  apply (aniplot_fewer_steps_than_panels nat (λ _, 0) Sample.eps_shape
           Sample.counter_forward Sample.unit_source Sample.plt_subplots Sample.draw_ok
           9 "Ez" 10 (Plot 7 [] []) (AxesArray 10) 2 1 1).
  - lia.
  - reflexivity.
  - reflexivity.
Defined.

(** X18.  When [steps] is a multiple of [num_panels] and drawing succeeds,
    [aniplot] completes: it advances the solver [steps] times and draws
    panel [k] at time step [k * (steps // num_panels)], once for each of the
    [num_panels] axes. *)
Theorem aniplot_draws_every_panel {F : Type} (solver : Type)
    (initialize_fields : solver → solver) (eps_r_shape : solver → list nat)
    (forward : solver → tensor F → solver * gmap string (tensor F))
    (source : nat → tensor F) (subplots : Z → outcome axes)
    (draw : solver → nat → nat → nat → gmap string (tensor F) → string → nat
            → option sim_exn)
    (steps : Z) (component : string) (num_panels : Z) (st : plot solver)
    (Nx Ny Nz : nat) :
  (0 < num_panels ≤ steps)%Z →
  (steps mod num_panels = 0)%Z →
  subplots num_panels = Returned (AxesArray (Z.to_nat num_panels)) →
  eps_r_shape (initialize_fields (plot_solver st)) = [Nx; Ny; Nz] →
  (∀ t ax, t < Z.to_nat steps →
     draw (solver_at solver forward source (initialize_fields (plot_solver st)) (S t))
          ax Nx Ny
          (fields_at solver forward source (initialize_fields (plot_solver st)) t)
          component t = None) →
  aniplot solver initialize_fields eps_r_shape forward source subplots draw
    steps component num_panels st
  = (Returned tt,
     Plot (solver_at solver forward source (initialize_fields (plot_solver st))
             (Z.to_nat steps))
          (plot_stdout st
             ++ panel_schedule (Z.to_nat (steps / num_panels)) (Z.to_nat num_panels))
          (plot_panels st
             ++ panel_schedule (Z.to_nat (steps / num_panels)) (Z.to_nat num_panels))).
Proof.
  intros HP Hmod Esub Esh Hdraw.
  destruct (panel_spacing steps num_panels HP) as (Hq & _ & Hn & _).
  specialize (Hn Hmod).
  set (q := Z.to_nat (steps / num_panels)) in *.
  assert (Hq' : 0 < q) by (unfold q; lia).
  unfold aniplot. rewrite Esub. cbn [plot_solver plot_stdout plot_panels]. rewrite Esh.
  pose proof (aniplot_steps_run solver forward source draw steps num_panels component
                (Z.to_nat num_panels) Nx Ny (initialize_fields (plot_solver st))
                (plot_stdout st) (plot_panels st) Hq (Z.to_nat steps) 0 []
                (Plot (initialize_fields (plot_solver st)) (plot_stdout st) (plot_panels st)))
    as Hrun.
  fold q in Hrun. cbn [plot_solver plot_stdout plot_panels] in Hrun.
  assert (H0 : (0 + q - 1) / q = 0) by (apply Nat.div_small; lia).
  rewrite H0 in Hrun.
  rewrite <- (app_nil_r (seq 0 (Z.to_nat steps))).
  rewrite Hrun.
  - cbn [aniplot_steps]. rewrite Nat.add_0_l.
    replace ((Z.to_nat steps + q - 1) / q) with (Z.to_nat num_panels); [done|].
    rewrite Hn, (Nat.mul_comm _ q), Nat.mul_comm. by rewrite panels_before_multiple.
  - lia.
  - intros t ax Ht. apply Hdraw. lia.
  - done.
  - unfold panel_schedule. simpl. by rewrite app_nil_r.
  - unfold panel_schedule. simpl. by rewrite app_nil_r.
Qed.

Lemma aniplot_draws_every_panel_witness :
  aniplot nat (λ _, 0) Sample.eps_shape Sample.counter_forward Sample.unit_source
    Sample.plt_subplots Sample.draw_ok 6 "Ez" 3 (Plot 7 [] [])
  = (Returned tt,
     Plot (solver_at nat Sample.counter_forward Sample.unit_source
             ((λ _, 0) (plot_solver (Plot 7 [] []))) (Z.to_nat 6))
          (plot_stdout (Plot 7 [] []) ++ panel_schedule (Z.to_nat (6 / 3)) (Z.to_nat 3))
          (plot_panels (Plot 7 [] []) ++ panel_schedule (Z.to_nat (6 / 3)) (Z.to_nat 3))).
Proof.
  apply (aniplot_draws_every_panel nat (λ _, 0) Sample.eps_shape
           Sample.counter_forward Sample.unit_source Sample.plt_subplots Sample.draw_ok
           6 "Ez" 3 (Plot 7 [] []) 2 1 1).
  - lia.
  - reflexivity.
  - reflexivity.
  - reflexivity.
  - intros t ax _. reflexivity.
Defined.

(** X19.  When [steps] is not a multiple of [num_panels], [aniplot] starts
    one panel too many: once the [num_panels] panels are drawn, time step
    [num_panels * (steps // num_panels)] prints its line, asks for
    [ax_list[num_panels]] and raises [IndexError]. *)
Theorem aniplot_runs_out_of_axes {F : Type} (solver : Type)
    (initialize_fields : solver → solver) (eps_r_shape : solver → list nat)
    (forward : solver → tensor F → solver * gmap string (tensor F))
    (source : nat → tensor F) (subplots : Z → outcome axes)
    (draw : solver → nat → nat → nat → gmap string (tensor F) → string → nat
            → option sim_exn)
    (steps : Z) (component : string) (num_panels : Z) (st : plot solver)
    (Nx Ny Nz : nat) :
  (0 < num_panels ≤ steps)%Z →
  (steps mod num_panels ≠ 0)%Z →
  subplots num_panels = Returned (AxesArray (Z.to_nat num_panels)) →
  eps_r_shape (initialize_fields (plot_solver st)) = [Nx; Ny; Nz] →
  (∀ t ax, t < Z.to_nat steps →
     draw (solver_at solver forward source (initialize_fields (plot_solver st)) (S t))
          ax Nx Ny
          (fields_at solver forward source (initialize_fields (plot_solver st)) t)
          component t = None) →
  aniplot solver initialize_fields eps_r_shape forward source subplots draw
    steps component num_panels st
  = (Raised (PyError IndexError),
     Plot (solver_at solver forward source (initialize_fields (plot_solver st))
             (S (Z.to_nat num_panels * Z.to_nat (steps / num_panels))))
          (plot_stdout st
             ++ panel_schedule (Z.to_nat (steps / num_panels)) (S (Z.to_nat num_panels)))
          (plot_panels st
             ++ panel_schedule (Z.to_nat (steps / num_panels)) (Z.to_nat num_panels))).
Proof.
  intros HP Hmod Esub Esh Hdraw.
  destruct (panel_spacing steps num_panels HP) as (Hq & _ & _ & Hn).
  specialize (Hn Hmod).
  set (q := Z.to_nat (steps / num_panels)) in *.
  set (P := Z.to_nat num_panels) in *.
  assert (Hq' : 0 < q) by (unfold q; lia).
  unfold aniplot. rewrite Esub. cbn [plot_solver plot_stdout plot_panels]. rewrite Esh.
  replace (Z.to_nat steps) with (P * q + S (Z.to_nat steps - P * q - 1)) by lia.
  rewrite seq_app. cbn [seq]. rewrite Nat.add_0_l.
  pose proof (aniplot_steps_run solver forward source draw steps num_panels component
                P Nx Ny (initialize_fields (plot_solver st))
                (plot_stdout st) (plot_panels st) Hq (P * q) 0
                (P * q :: seq (S (P * q)) (Z.to_nat steps - P * q - 1))
                (Plot (initialize_fields (plot_solver st)) (plot_stdout st) (plot_panels st)))
    as Hrun.
  fold q in Hrun. cbn [plot_solver plot_stdout plot_panels] in Hrun.
  assert (H0 : (0 + q - 1) / q = 0) by (apply Nat.div_small; lia).
  rewrite H0 in Hrun.
  rewrite Hrun.
  - rewrite Nat.add_0_l, panels_before_multiple by done.
    cbn [aniplot_steps plot_solver plot_stdout plot_panels].
    rewrite decide_False by lia.
    rewrite decide_True.
    2:{ apply mod_test; [done|]. fold q. by rewrite Nat.Div0.mod_mul. }
    cbn [ax_getitem]. rewrite decide_False by lia.
    by rewrite panel_schedule_S, app_assoc.
  - lia.
  - intros t ax Ht. apply Hdraw. lia.
  - done.
  - unfold panel_schedule. simpl. by rewrite app_nil_r.
  - unfold panel_schedule. simpl. by rewrite app_nil_r.
Qed.

Lemma aniplot_runs_out_of_axes_witness :
  aniplot nat (λ _, 0) Sample.eps_shape Sample.counter_forward Sample.unit_source
    Sample.plt_subplots Sample.draw_ok 25 "Ez" 10 (Plot 7 [] [])
  = (Raised (PyError IndexError),
     Plot (solver_at nat Sample.counter_forward Sample.unit_source
             ((λ _, 0) (plot_solver (Plot 7 [] [])))
             (S (Z.to_nat 10 * Z.to_nat (25 / 10))))
          (plot_stdout (Plot 7 [] [])
             ++ panel_schedule (Z.to_nat (25 / 10)) (S (Z.to_nat 10)))
          (plot_panels (Plot 7 [] []) ++ panel_schedule (Z.to_nat (25 / 10)) (Z.to_nat 10))).
Proof.
  apply (aniplot_runs_out_of_axes nat (λ _, 0) Sample.eps_shape
           Sample.counter_forward Sample.unit_source Sample.plt_subplots Sample.draw_ok
           25 "Ez" 10 (Plot 7 [] []) 2 1 1).
  - lia.
  - discriminate.
  - reflexivity.
  - reflexivity.
  - intros t ax _. reflexivity.
Defined.

(** X20.  When [plt.subplots] returns a single axes object instead of an
    array (as it does for one panel), [aniplot] raises [TypeError] at the
    first panel: [ax_list[0]] on an object that cannot be indexed. *)
Theorem aniplot_single_axes_object {F : Type} (solver : Type)
    (initialize_fields : solver → solver) (eps_r_shape : solver → list nat)
    (forward : solver → tensor F → solver * gmap string (tensor F))
    (source : nat → tensor F) (subplots : Z → outcome axes)
    (draw : solver → nat → nat → nat → gmap string (tensor F) → string → nat
            → option sim_exn)
    (steps : Z) (component : string) (num_panels : Z) (st : plot solver)
    (Nx Ny Nz : nat) :
  (0 < num_panels ≤ steps)%Z →
  subplots num_panels = Returned OneAxes →
  eps_r_shape (initialize_fields (plot_solver st)) = [Nx; Ny; Nz] →
  aniplot solver initialize_fields eps_r_shape forward source subplots draw
    steps component num_panels st
  = (Raised (PyError TypeError),
     Plot (solver_at solver forward source (initialize_fields (plot_solver st)) 1)
          (plot_stdout st ++ [(0, 0)]) (plot_panels st)).
Proof.
  intros HP Esub Esh.
  destruct (panel_spacing steps num_panels HP) as (Hq & _).
  unfold aniplot. rewrite Esub. cbn [plot_solver plot_stdout plot_panels]. rewrite Esh.
  destruct (Z.to_nat steps) as [|n] eqn:En; [lia|].
  cbn [seq aniplot_steps plot_solver plot_stdout plot_panels].
  rewrite decide_False by lia.
  by rewrite decide_True by (by rewrite Z.mod_0_l by lia).
Qed.

Lemma aniplot_single_axes_object_witness :
  aniplot nat (λ _, 0) Sample.eps_shape Sample.counter_forward Sample.unit_source
    Sample.plt_subplots Sample.draw_ok 5 "Ez" 1 (Plot 7 [] [])
  = (Raised (PyError TypeError),
     Plot (solver_at nat Sample.counter_forward Sample.unit_source
             ((λ _, 0) (plot_solver (Plot 7 [] []))) 1)
          (plot_stdout (Plot 7 [] []) ++ [(0, 0)]) (plot_panels (Plot 7 [] []))).
Proof.
  apply (aniplot_single_axes_object nat (λ _, 0) Sample.eps_shape
           Sample.counter_forward Sample.unit_source Sample.plt_subplots Sample.draw_ok
           5 "Ez" 1 (Plot 7 [] []) 2 1 1).
  - lia.
  - reflexivity.
  - reflexivity.
Defined.

(** ** [grid_coords] and [circ2eps] *)

Lemma py_index_nat {A} (l : list A) j x :
  l !! j = Some x → py_index l (Z.of_nat j) = Ok x.
Proof.
  intros E. eapply py_index_run; [|exact E].
  apply norm_index_nat. by eapply lookup_lt_Some.
Qed.

Lemma py_index_past_end {A} (l : list A) j :
  length l ≤ j → py_index l (Z.of_nat j) = Raise IndexError.
Proof.
  intros Hj. unfold py_index, norm_index.
  destruct (Z.ltb_spec (Z.of_nat j) 0); [lia|].
  destruct (Z.leb_spec 0 (Z.of_nat j)); [|lia].
  destruct (Z.ltb_spec (Z.of_nat j) (Z.of_nat (length l))); [lia|]. done.
Qed.

(** Rows of equal length laid end to end. *)
Lemma length_bind_rows {A B} (f : A → list B) (l : list A) n :
  (∀ x, length (f x) = n) → length (l ≫= f) = length l * n.
Proof.
  intros Hf. induction l as [|x l IH]; [done|].
  rewrite bind_cons, length_app, Hf, IH. simpl. lia.
Qed.

Lemma lookup_bind_rows {A B} (f : A → list B) (l : list A) n i j :
  (∀ x, length (f x) = n) → j < n →
  (l ≫= f) !! (i * n + j) = l !! i ≫= λ x, f x !! j.
Proof.
  intros Hf Hj. revert i. induction l as [|x l IH]; intros i.
  - done.
  - rewrite bind_cons. destruct i as [|i].
    + simpl. rewrite lookup_app_l by (rewrite Hf; lia). done.
    + rewrite lookup_app_r by (rewrite Hf; lia).
      rewrite Hf. replace (S i * n + j - n) with (i * n + j) by lia.
      by rewrite IH.
Qed.

Lemma apply_zip_with_lookup {A B C} (f : A → B → C) (l : list A) (k : list B) i :
  zip_with f l k !! i = (l !! i) ≫= λ a, (k !! i) ≫= λ b, Some (f a b).
Proof.
  revert k i. induction l as [|a l IH]; intros [|b k] [|i]; simpl;
    first [done | by destruct (l !! i) | apply IH].
Qed.

Section GridFacts.
Context {F : Type}.
Variable linspace : nat → F → list F.
Variable in_circle : F → F → F → F → F → bool.

Lemma meshgrid_ij_run (xc yc : list F) :
  let xs := (meshgrid_ij xc yc).1 in
  let ys := (meshgrid_ij xc yc).2 in
  t_shape xs = [length xc; length yc] ∧ t_shape ys = [length xc; length yc] ∧
  length (t_data xs) = length xc * length yc ∧
  length (t_data ys) = length xc * length yc ∧
  ∀ i j, i < length xc → j < length yc →
    t_data xs !! (i * length yc + j) = xc !! i ∧
    t_data ys !! (i * length yc + j) = yc !! j.
Proof.
  simpl. split; [done|]. split; [done|].
  split; [apply length_bind_rows; intros; apply length_replicate|].
  split; [by apply length_bind_rows|].
  intros i j Hi Hj.
  destruct (lookup_lt_is_Some_2 xc i Hi) as [xi Exi].
  split.
  - rewrite (lookup_bind_rows _ _ (length yc)) by (intros; try apply length_replicate; done).
    rewrite Exi. simpl. by apply lookup_replicate_2.
  - rewrite (lookup_bind_rows _ _ (length yc)) by done.
    by rewrite Exi.
Qed.

(** The mask of a circle at the grid point with flat index [g]. *)
Lemma circle_mask_nth (xc yc : list F) xv yv rv g :
  g < length xc * length yc →
  nth g (zip_with (λ a b, in_circle a b xv yv rv)
           (t_data (meshgrid_ij xc yc).1) (t_data (meshgrid_ij xc yc).2)) false
  = match xc !! (g / length yc), yc !! (g mod length yc) with
    | Some xi, Some yj => in_circle xi yj xv yv rv
    | _, _ => false
    end.
Proof.
  intros Hg.
  assert (Hy : 0 < length yc) by (destruct (length yc); lia).
  pose proof (Nat.div_mod_eq g (length yc)) as Hdm.
  pose proof (Nat.mod_upper_bound g (length yc) ltac:(lia)) as Hr.
  assert (Hi : g / length yc < length xc).
  { apply Nat.Div0.div_lt_upper_bound. lia. }
  destruct (meshgrid_ij_run xc yc) as (_ & _ & _ & _ & Hent).
  destruct (Hent _ _ Hi Hr) as [Ex Ey].
  replace (g / length yc * length yc + g mod length yc) with g in * by lia.
  destruct (lookup_lt_is_Some_2 xc _ Hi) as [xi Exi].
  destruct (lookup_lt_is_Some_2 yc _ Hr) as [yj Eyj].
  rewrite Exi, Eyj. rewrite Exi in Ex. rewrite Eyj in Ey.
  apply nth_lookup_Some with (d := false).
  by rewrite apply_zip_with_lookup, Ex, Ey.
Qed.

Lemma setitem_mask_run (a : ndarray) (mask_shape : list nat) (mask : list bool) (c : F)
    (w : world F) (d : list F) :
  heap w !! buf a = Some d → take 2 (shape a) = mask_shape →
  setitem_mask a mask_shape mask c w
  = (Ok tt,
     World (<[buf a := imap (λ p v, if nth (p / arr_size (drop 2 (shape a))) mask false
                                    then c else v) d]> (heap w))
           (calls w)).
Proof.
  intros Ea Esh. unfold setitem_mask. rewrite decide_True by done.
  by rewrite (buffer_lookup _ _ _ Ea).
Qed.

(** One iteration either completes or raises [IndexError]; what existed
    before the copy was made is not touched. *)
Lemma circ2eps_body_frame (x y r eps_c : list F) (xs ys : tensor F) (eps_r : ndarray)
    (h0 : list (list F)) (c0 : list (list (tensor F))) (ih : nat) (w : world F) :
  length h0 ≤ buf eps_r → h0 `prefix_of` heap w → calls w = c0 →
  ∃ res w', circ2eps_body in_circle x y r eps_c xs ys eps_r ih w = (res, w') ∧
            (res = Ok tt ∨ res = Raise IndexError) ∧
            h0 `prefix_of` heap w' ∧ calls w' = c0.
Proof.
  intros Hb Hp Hc. unfold circ2eps_body.
  unfold mbind, M_bind, lift.
  destruct (py_index x (Z.of_nat ih)) as [xv|e] eqn:Ex.
  2:{ exists (Raise e), w. unfold py_index in Ex.
      destruct (norm_index _ _) as [k|]; [destruct (x !! k)|]; simplify_eq; eauto 6. }
  destruct (py_index y (Z.of_nat ih)) as [yv|e] eqn:Ey.
  2:{ exists (Raise e), w. unfold py_index in Ey.
      destruct (norm_index _ _) as [k|]; [destruct (y !! k)|]; simplify_eq; eauto 6. }
  destruct (py_index r (Z.of_nat ih)) as [rv|e] eqn:Er.
  2:{ exists (Raise e), w. unfold py_index in Er.
      destruct (norm_index _ _) as [k|]; [destruct (r !! k)|]; simplify_eq; eauto 6. }
  destruct (py_index eps_c (Z.of_nat ih)) as [c|e] eqn:Ec.
  2:{ exists (Raise e), w. unfold py_index in Ec.
      destruct (norm_index _ _) as [k|]; [destruct (eps_c !! k)|]; simplify_eq; eauto 6. }
  unfold setitem_mask. destruct (decide _).
  - eexists _, _. split; [done|]. split; [by left|]. simpl. split; [|done].
    by apply prefix_insert_ge.
  - eexists _, _. split; [done|]. split; [by right|]. done.
Qed.

(** The loop stops with [IndexError] once an index runs past the end of
    one of the parameter lists. *)
Lemma circ2eps_loop_raises (x y r eps_c : list F) (xs ys : tensor F) (eps_r : ndarray)
    (h0 : list (list F)) (c0 : list (list (tensor F))) (m : nat) :
  length h0 ≤ buf eps_r →
  (length y ≤ m ∨ length r ≤ m ∨ length eps_c ≤ m) →
  ∀ k j (w : world F),
  j ≤ m < j + k → h0 `prefix_of` heap w → calls w = c0 →
  ∃ w', for_each (seq j k) (circ2eps_body in_circle x y r eps_c xs ys eps_r) w
          = (Raise IndexError, w') ∧
        h0 `prefix_of` heap w' ∧ calls w' = c0.
Proof.
  intros Hb Hshort. induction k as [|k IH]; intros j w Hj Hp Hc; [lia|].
  cbn [seq for_each].
  destruct (circ2eps_body_frame x y r eps_c xs ys eps_r h0 c0 j w Hb Hp Hc)
    as (res & w1 & E1 & Hres & Hp1 & Hc1).
  destruct Hres as [-> | ->].
  - destruct (decide (j = m)) as [->|Hne].
    + exfalso. revert E1. unfold circ2eps_body, mbind, M_bind, lift.
      destruct (py_index x _); [|done].
      destruct Hshort as [Hs|[Hs|Hs]].
      * by rewrite (py_index_past_end y m Hs).
      * destruct (py_index y _); [|done]. by rewrite (py_index_past_end r m Hs).
      * destruct (py_index y _); [|done]. destruct (py_index r _); [|done].
        by rewrite (py_index_past_end eps_c m Hs).
    + destruct (IH (S j) w1) as (w' & E & Hp' & Hc'); [lia|done|done|].
      exists w'. split; [|done]. eapply bind_ok; [exact E1|exact E].
  - exists w1. split; [|done]. by apply bind_raise.
Qed.

End GridFacts.

Section CircFacts.
Context {F : Type}.
Variable linspace : nat → F → list F.
Variable in_circle : F → F → F → F → F → bool.

Lemma circ2eps_body_run (x y r eps_c xc yc : list F) (xs ys : tensor F) (eps_r : ndarray)
    (rest : list nat) (h0 : list (list F)) (c0 : list (list (tensor F))) (R : list F)
    (ih : nat) (xv yv rv c : F) :
  meshgrid_ij xc yc = (xs, ys) →
  shape eps_r = length xc :: length yc :: rest →
  buf eps_r = length h0 →
  x !! ih = Some xv → y !! ih = Some yv → r !! ih = Some rv → eps_c !! ih = Some c →
  circ2eps_body in_circle x y r eps_c xs ys eps_r ih (World (h0 ++ [R]) c0)
  = (Ok tt,
     World (h0 ++ [imap (λ p v, if nth (p / arr_size rest)
                                       (zip_with (λ a b, in_circle a b xv yv rv)
                                          (t_data xs) (t_data ys)) false
                                then c else v) R]) c0).
Proof.
  intros Em Esh Eb Ex Ey Er Ec. unfold circ2eps_body.
  eapply bind_ok; [apply lift_run; by apply py_index_nat|].
  eapply bind_ok; [apply lift_run; by apply py_index_nat|].
  eapply bind_ok; [apply lift_run; by apply py_index_nat|].
  eapply bind_ok; [apply lift_run; by apply py_index_nat|].
  rewrite (setitem_mask_run _ _ _ _ _ R).
  - cbn [heap calls]. rewrite Eb, Esh. cbn [drop].
    rewrite insert_app_r_alt by done. rewrite Nat.sub_diag. done.
  - cbn [heap]. rewrite Eb. by apply list_lookup_middle.
  - rewrite Esh. cbn [take]. apply (f_equal fst) in Em. simpl in Em. by subst xs.
Qed.

(** After the circles [0 .. j-1], each entry holds the value of the last
    of them that contains its grid point, and the background otherwise. *)
Lemma circ2eps_loop_run (x y r eps_c xc yc : list F) (xs ys : tensor F) (eps_r : ndarray)
    (rest : list nat) (h0 : list (list F)) (c0 : list (list (tensor F))) (B : list F) :
  meshgrid_ij xc yc = (xs, ys) →
  shape eps_r = length xc :: length yc :: rest →
  buf eps_r = length h0 →
  length B = arr_size (shape eps_r) →
  length x ≤ length y → length x ≤ length r → length x ≤ length eps_c →
  ∃ R, for_range (length x) (circ2eps_body in_circle x y r eps_c xs ys eps_r)
         (World (h0 ++ [B]) c0)
       = (Ok tt, World (h0 ++ [R]) c0) ∧
       length R = length B ∧
       ∀ p v, B !! p = Some v →
         let hit ih := in_circle_at in_circle xc yc x y r ih
                         (p / arr_size rest / length yc)
                         (p / arr_size rest mod length yc) in
         ((∀ ih, ih < length x → hit ih = false) → R !! p = Some v) ∧
         (∀ ih c, ih < length x → hit ih = true → eps_c !! ih = Some c →
                  (∀ ih', ih < ih' < length x → hit ih' = false) → R !! p = Some c).
Proof.
  intros Em Esh Eb HB Hy Hr Hc.
  set (hit p ih := in_circle_at in_circle xc yc x y r ih
                     (p / arr_size rest / length yc) (p / arr_size rest mod length yc)).
  set (I := λ (j : nat) (w' : world F),
    ∃ R, w' = World (h0 ++ [R]) c0 ∧ length R = length B ∧
         ∀ p v, B !! p = Some v →
           ((∀ ih, ih < j → hit p ih = false) → R !! p = Some v) ∧
           (∀ ih c, ih < j → hit p ih = true → eps_c !! ih = Some c →
                    (∀ ih', ih < ih' < j → hit p ih' = false) → R !! p = Some c)).
  destruct (for_range_inv I (circ2eps_body in_circle x y r eps_c xs ys eps_r) (length x))
    with (w := World (h0 ++ [B]) c0) as (w' & E & (R & -> & HR & Hent)).
  - intros j w' Hj (R & -> & HR & Hent).
    destruct (lookup_lt_is_Some_2 x j ltac:(lia)) as [xv Ex].
    destruct (lookup_lt_is_Some_2 y j ltac:(lia)) as [yv Ey].
    destruct (lookup_lt_is_Some_2 r j ltac:(lia)) as [rv Er].
    destruct (lookup_lt_is_Some_2 eps_c j ltac:(lia)) as [c Ec].
    eexists. split; [by eapply circ2eps_body_run|].
    eexists. split; [done|]. split; [by rewrite length_imap|].
    intros p v Ep.
    pose proof (lookup_lt_Some _ _ _ Ep) as Hp.
    destruct (lookup_lt_is_Some_2 R p ltac:(lia)) as [v' Ev'].
    assert (Hg : p / arr_size rest < length xc * length yc).
    { rewrite HB, Esh in Hp. unfold arr_size in Hp. simpl in Hp.
      fold (arr_size rest) in Hp.
      apply Nat.Div0.div_lt_upper_bound. lia. }
    assert (Hmask : nth (p / arr_size rest)
                      (zip_with (λ a b, in_circle a b xv yv rv) (t_data xs) (t_data ys)) false
                    = hit p j).
    { assert (xs = (meshgrid_ij xc yc).1) as -> by by rewrite Em.
      assert (ys = (meshgrid_ij xc yc).2) as -> by by rewrite Em.
      rewrite circle_mask_nth by done.
      unfold hit, in_circle_at. rewrite Ex, Ey, Er. done. }
    rewrite list_lookup_imap, Ev'. simpl. rewrite Hmask.
    destruct (Hent p v Ep) as [Hnone Hlast].
    split.
    + intros Hno. rewrite (Hno j) by lia.
      rewrite <- Ev'. apply Hnone. intros ih Hih. apply Hno. lia.
    + intros ih c' Hih Hhit Ec' Hlater.
      destruct (decide (ih = j)) as [->|Hne].
      * rewrite Hhit. congruence.
      * rewrite (Hlater j) by lia. rewrite <- Ev'.
        apply (Hlast ih c'); [lia|done|done|]. intros ih' Hih'. apply Hlater. lia.
  - exists B. split; [done|]. split; [done|]. intros p v Ep. split; [done|].
    intros ih c Hih. lia.
  - exists R. split; [exact E|]. split; [done|]. exact Hent.
Qed.

End CircFacts.

(** X21.  For a two-dimensional array [grid_coords] returns two arrays of
    its shape: entry [(i, j)] of the first is the i-th x coordinate, entry
    [(i, j)] of the second the j-th y coordinate. *)
Theorem grid_coords_mesh {F : Type} (linspace : nat → F → list F)
    (array : ndarray) (dL : F) (Nx Ny : nat) :
  shape array = [Nx; Ny] →
  length (linspace Nx dL) = Nx → length (linspace Ny dL) = Ny →
  ∃ xs ys, grid_coords linspace array dL = Ok (xs, ys) ∧
    t_shape xs = [Nx; Ny] ∧ t_shape ys = [Nx; Ny] ∧
    length (t_data xs) = Nx * Ny ∧ length (t_data ys) = Nx * Ny ∧
    ∀ i j, i < Nx → j < Ny →
      t_data xs !! (i * Ny + j) = linspace Nx dL !! i ∧
      t_data ys !! (i * Ny + j) = linspace Ny dL !! j.
Proof.
  intros Esh Hx Hy. unfold grid_coords. rewrite Esh.
  destruct (meshgrid_ij_run (linspace Nx dL) (linspace Ny dL))
    as (Hsx & Hsy & Hlx & Hly & Hent).
  rewrite Hx, Hy in *.
  exists (meshgrid_ij (linspace Nx dL) (linspace Ny dL)).1,
         (meshgrid_ij (linspace Nx dL) (linspace Ny dL)).2.
  repeat split; try done.
  - by apply Hent.
  - by apply Hent.
Qed.

Lemma grid_coords_mesh_witness :
  ∃ xs ys, grid_coords Sample.unit_linspace (NdArray 0 [2; 3]) 1%Qc = Ok (xs, ys) ∧
    t_shape xs = [2; 3] ∧ t_shape ys = [2; 3] ∧
    length (t_data xs) = 2 * 3 ∧ length (t_data ys) = 2 * 3 ∧
    ∀ i j, i < 2 → j < 3 →
      t_data xs !! (i * 3 + j) = Sample.unit_linspace 2 1%Qc !! i ∧
      t_data ys !! (i * 3 + j) = Sample.unit_linspace 3 1%Qc !! j.
Proof.
  apply (grid_coords_mesh Sample.unit_linspace (NdArray 0 [2; 3]) 1%Qc 2 3).
  - reflexivity.
  - reflexivity.
  - reflexivity.
Defined.

(** X22.  [circ2eps] returns a new array of the shape of [eps_b] and leaves
    [eps_b] and every other array as they were: an entry whose grid point
    lies in no circle keeps the background value, any other entry holds
    [eps_c] of the last circle that contains its grid point. *)
Theorem circ2eps_paints_last_circle {F : Type} (linspace : nat → F → list F)
    (in_circle : F → F → F → F → F → bool)
    (x y r eps_c : list F) (eps_b : ndarray) (dL : F) (w : world F)
    (Nx Ny : nat) (rest : list nat) (B : list F) :
  shape eps_b = Nx :: Ny :: rest →
  heap w !! buf eps_b = Some B → length B = arr_size (shape eps_b) →
  length (linspace Nx dL) = Nx → length (linspace Ny dL) = Ny →
  length x ≤ length y → length x ≤ length r → length x ≤ length eps_c →
  ∃ R, circ2eps linspace in_circle x y r eps_c eps_b dL w
       = (Ok (NdArray (length (heap w)) (shape eps_b)),
          World (heap w ++ [R]) (calls w)) ∧
       length R = length B ∧
       ∀ p v, B !! p = Some v →
         let hit ih := in_circle_at in_circle (linspace Nx dL) (linspace Ny dL) x y r ih
                         (p / arr_size rest / Ny) (p / arr_size rest mod Ny) in
         ((∀ ih, ih < length x → hit ih = false) → R !! p = Some v) ∧
         (∀ ih c, ih < length x → hit ih = true → eps_c !! ih = Some c →
                  (∀ ih', ih < ih' < length x → hit ih' = false) → R !! p = Some c).
Proof.
  intros Esh EB HB Hx Hy Hly Hlr Hlc.
  destruct (circ2eps_loop_run in_circle x y r eps_c (linspace Nx dL) (linspace Ny dL)
              (meshgrid_ij (linspace Nx dL) (linspace Ny dL)).1
              (meshgrid_ij (linspace Nx dL) (linspace Ny dL)).2
              (NdArray (length (heap w)) (shape eps_b)) rest (heap w) (calls w) B)
    as (R & E & HR & Hent); try done.
  { cbn [shape]. by rewrite Esh, Hx, Hy. }
  rewrite Hy in Hent.
  exists R. split; [|done].
  unfold circ2eps. rewrite Esh.
  change (let '(xs, ys) := meshgrid_ij (linspace Nx dL) (linspace Ny dL) in
          eps_r ← copy_copy eps_b;
          for_range (length x) (circ2eps_body in_circle x y r eps_c xs ys eps_r);;
          mret eps_r)
    with (eps_r ← copy_copy eps_b;
          for_range (length x)
            (circ2eps_body in_circle x y r eps_c
               (meshgrid_ij (linspace Nx dL) (linspace Ny dL)).1
               (meshgrid_ij (linspace Nx dL) (linspace Ny dL)).2 eps_r);;
          mret eps_r).
  eapply bind_ok; [by apply copy_copy_run|].
  rewrite <- Esh. eapply bind_ok; [exact E|]. done.
Qed.

Lemma circ2eps_paints_last_circle_witness :
  ∃ R, circ2eps Sample.unit_linspace Sample.disc [0; 1]%Qc [0; 1]%Qc [1; 1]%Qc [Q2Qc 5; Q2Qc 7]
         (NdArray 0 [2; 2]) 1%Qc Sample.w_eps
       = (Ok (NdArray (length (heap Sample.w_eps)) (shape (NdArray 0 [2; 2]))),
          World (heap Sample.w_eps ++ [R]) (calls Sample.w_eps)) ∧
       length R = length [1; 1; 1; 1]%Qc ∧
       ∀ p v, [1; 1; 1; 1]%Qc !! p = Some v →
         let hit ih := in_circle_at Sample.disc (Sample.unit_linspace 2 1%Qc)
                         (Sample.unit_linspace 2 1%Qc) [0; 1]%Qc [0; 1]%Qc [1; 1]%Qc ih
                         (p / arr_size [] / 2) (p / arr_size [] mod 2) in
         ((∀ ih, ih < length [0; 1]%Qc → hit ih = false) → R !! p = Some v) ∧
         (∀ ih c, ih < length [0; 1]%Qc → hit ih = true → [Q2Qc 5; Q2Qc 7] !! ih = Some c →
                  (∀ ih', ih < ih' < length [0; 1]%Qc → hit ih' = false) → R !! p = Some c).
Proof.
  apply (circ2eps_paints_last_circle Sample.unit_linspace Sample.disc
           [0; 1]%Qc [0; 1]%Qc [1; 1]%Qc [Q2Qc 5; Q2Qc 7] (NdArray 0 [2; 2]) 1%Qc Sample.w_eps
           2 2 [] [1; 1; 1; 1]%Qc).
  - reflexivity.
  - reflexivity.
  - reflexivity.
  - reflexivity.
  - reflexivity.
  - simpl. lia.
  - simpl. lia.
  - simpl. lia.
Defined.

(** X23.  When [y], [r] or [eps_c] has fewer entries than [x], [circ2eps]
    raises [IndexError]; the arrays that existed before are unchanged. *)
Theorem circ2eps_short_parameter_list {F : Type} (linspace : nat → F → list F)
    (in_circle : F → F → F → F → F → bool)
    (x y r eps_c : list F) (eps_b : ndarray) (dL : F) (w : world F)
    (Nx Ny : nat) (rest : list nat) :
  shape eps_b = Nx :: Ny :: rest →
  length y < length x ∨ length r < length x ∨ length eps_c < length x →
  ∃ w', circ2eps linspace in_circle x y r eps_c eps_b dL w = (Raise IndexError, w') ∧
        heap w `prefix_of` heap w' ∧ calls w' = calls w.
Proof.
  intros Esh Hshort.
  set (m := length y `min` (length r `min` length eps_c)).
  unfold circ2eps. rewrite Esh.
  change (let '(xs, ys) := meshgrid_ij (linspace Nx dL) (linspace Ny dL) in
          eps_r ← copy_copy eps_b;
          for_range (length x) (circ2eps_body in_circle x y r eps_c xs ys eps_r);;
          mret eps_r)
    with (eps_r ← copy_copy eps_b;
          for_range (length x)
            (circ2eps_body in_circle x y r eps_c
               (meshgrid_ij (linspace Nx dL) (linspace Ny dL)).1
               (meshgrid_ij (linspace Nx dL) (linspace Ny dL)).2 eps_r);;
          mret eps_r).
  destruct (circ2eps_loop_raises in_circle x y r eps_c
              (meshgrid_ij (linspace Nx dL) (linspace Ny dL)).1
              (meshgrid_ij (linspace Nx dL) (linspace Ny dL)).2
              (NdArray (length (heap w)) (shape eps_b)) (heap w) (calls w) m)
    with (k := length x) (j := 0)
         (w := World (heap w ++ [buffer w eps_b]) (calls w))
    as (w' & E & Hp & Hc).
  - done.
  - unfold m. lia.
  - unfold m. lia.
  - cbn [heap]. by apply prefix_app_r.
  - done.
  - exists w'. split; [|done].
    eapply bind_ok; [reflexivity|].
    eapply bind_raise. exact E.
Qed.

Lemma circ2eps_short_parameter_list_witness :
  ∃ w', circ2eps Sample.unit_linspace Sample.disc [0; 1]%Qc [0]%Qc [1; 1]%Qc [Q2Qc 5; Q2Qc 7]
          (NdArray 0 [2; 2]) 1%Qc Sample.w_eps = (Raise IndexError, w') ∧
        heap Sample.w_eps `prefix_of` heap w' ∧ calls w' = calls Sample.w_eps.
Proof.
  apply (circ2eps_short_parameter_list Sample.unit_linspace Sample.disc
           [0; 1]%Qc [0]%Qc [1; 1]%Qc [Q2Qc 5; Q2Qc 7] (NdArray 0 [2; 2]) 1%Qc Sample.w_eps 2 2 []).
  - reflexivity.
  - left. simpl. lia.
Defined.
